(** * Contact form pipeline of the portfolio site: a shallow embedding

    The development follows [assets/js/contact-form.js] (token issuance,
    field validation, rate limiting, the submit handler) and the two
    sanitizers of [assets/js/components.js] ([escapeHtml], [sanitizeHtml]).

    JavaScript strings are sequences of UTF-16 code units, storage areas
    are finite maps, the page is a record of the elements the script
    touches, and the script's functions are computations in a state and
    exception monad that also keeps a log of what they did. *)

From stdpp Require Import gmap strings list.
From Stdlib Require Import ZArith Lia.

Local Open Scope string_scope.
Local Open Scope list_scope.

(** ** JavaScript strings *)

Module JS.

(** A string value is the list of its UTF-16 code units. *)
Abbreviation jsstring := (list N).

(** A literal of the script, all of whose characters are ASCII. *)
Fixpoint lit (s : string) : jsstring :=
  match s with
  | EmptyString => []
  | String a s' => Ascii.N_of_ascii a :: lit s'
  end.

(** A one-character literal as a code unit. *)
Definition chr (s : string) : N :=
  match s with
  | String a _ => Ascii.N_of_ascii a
  | EmptyString => 0%N
  end.

(** WhiteSpace and LineTerminator code points of ECMAScript: what
    [String.prototype.trim] strips and what [\s] matches. *)
Definition is_whitespace (c : N) : bool :=
  ((9 <=? c) && (c <=? 13) || (c =? 32) || (c =? 160) || (c =? 5760)
   || (8192 <=? c) && (c <=? 8202) || (c =? 8232) || (c =? 8233)
   || (c =? 8239) || (c =? 8287) || (c =? 12288) || (c =? 65279))%N.

Fixpoint trimStart (s : jsstring) : jsstring :=
  match s with
  | c :: s' => if is_whitespace c then trimStart s' else s
  | [] => []
  end.

Definition trimEnd (s : jsstring) : jsstring := rev (trimStart (rev s)).

Definition trim (s : jsstring) : jsstring := trimEnd (trimStart s).

Definition is_upper (c : N) : bool := ((65 <=? c) && (c <=? 90))%N.
Definition is_lower (c : N) : bool := ((97 <=? c) && (c <=? 122))%N.
Definition is_digit (c : N) : bool := ((48 <=? c) && (c <=? 57))%N.

(** [\w] is [A-Za-z0-9_]. *)
Definition is_word (c : N) : bool :=
  is_upper c || is_lower c || is_digit c || (c =? 95)%N.

(** Canonicalisation of the [i] flag (without [u]): upper-casing, which a
    code unit outside ASCII never leaves for an ASCII one, so that against
    the ASCII characters of the script's patterns only ASCII case folds. *)
Definition canonicalize (c : N) : N := if is_lower c then (c - 32)%N else c.

(** Decimal digits of a non-negative integer, as [String(n)] prints it. *)
Fixpoint digits_fuel (fuel : nat) (n : N) (acc : jsstring) : jsstring :=
  match fuel with
  | O => acc
  | S fuel' =>
      let acc' := (48 + n mod 10)%N :: acc in
      if (n <? 10)%N then acc' else digits_fuel fuel' (n / 10)%N acc'
  end.

Definition decimal (z : Z) : jsstring :=
  let n := Z.abs_N z in
  let ds := digits_fuel (S (N.to_nat (N.log2 n))) n [] in
  if (z <? 0)%Z then chr "-" :: ds else ds.

End JS.

Import JS.

(** ** Regular expressions

    The patterns of the script use classes, sequence, greedy repetition,
    the anchors, the word boundary and one negative lookahead; none has a
    capture the script reads. The matcher is the backtracking matcher of
    the language definition, in continuation-passing style: a position is
    the reversed text before it and the text after it. *)

Module Regex.

Inductive regex : Type :=
| Empty
| Class (p : N -> bool)
| Seq (r1 r2 : regex)
| Alt (r1 r2 : regex)
| Star (r : regex)
| Bol
| Eol
| WordB
| NotAhead (r : regex).

Definition Plus (r : regex) : regex := Seq r (Star r).

Notation "r1 +++ r2" := (Seq r1 r2) (at level 60, right associativity).

Definition is_wordchar_before (pre : jsstring) : bool :=
  match pre with c :: _ => is_word c | [] => false end.

Definition is_wordchar_after (suf : jsstring) : bool :=
  match suf with c :: _ => is_word c | [] => false end.

Definition or_else {R} (a b : option R) : option R :=
  match a with Some x => Some x | None => b end.

(** The loop of a greedy repetition: [step] matches the body once. An
    iteration that consumes nothing is rejected, as RepeatMatcher does,
    so [n] above the length of the text left is never used up. *)
Fixpoint star_loop {R : Type}
    (step : jsstring -> jsstring -> (jsstring -> jsstring -> option R) -> option R)
    (k : jsstring -> jsstring -> option R)
    (n : nat) (pre suf : jsstring) {struct n} : option R :=
  match n with
  | O => k pre suf
  | S n' =>
      or_else
        (step pre suf
           (fun pre' suf' =>
              if (length suf' <? length suf)%nat
              then star_loop step k n' pre' suf' else None))
        (k pre suf)
  end.

(** [rmatch r pre suf k]: match [r] at the position [(pre, suf)] and hand
    the end position to [k], trying the alternatives in the order of the
    language definition. *)
Fixpoint rmatch {R : Type} (r : regex) (pre suf : jsstring)
    (k : jsstring -> jsstring -> option R) {struct r} : option R :=
  match r with
  | Empty => k pre suf
  | Class p =>
      match suf with
      | c :: suf' => if p c then k (c :: pre) suf' else None
      | [] => None
      end
  | Seq r1 r2 => rmatch r1 pre suf (fun pre' suf' => rmatch r2 pre' suf' k)
  | Alt r1 r2 => or_else (rmatch r1 pre suf k) (rmatch r2 pre suf k)
  | Star r1 =>
      star_loop (fun pre' suf' k' => rmatch r1 pre' suf' k') k
        (S (length suf)) pre suf
  | Bol => match pre with [] => k pre suf | _ :: _ => None end
  | Eol => match suf with [] => k pre suf | _ :: _ => None end
  | WordB =>
      if xorb (is_wordchar_before pre) (is_wordchar_after suf)
      then k pre suf else None
  | NotAhead r1 =>
      match rmatch r1 pre suf (fun _ _ => Some tt) with
      | Some _ => None
      | None => k pre suf
      end
  end.

(** The end position of the match of [r] that starts at [(pre, suf)]. *)
Definition match_at (r : regex) (pre suf : jsstring)
  : option (jsstring * jsstring) :=
  rmatch r pre suf (fun pre' suf' => Some (pre', suf')).

(** The first position, from [(pre, suf)] on, at which [r] matches. *)
Fixpoint search (r : regex) (pre suf : jsstring)
  : option (jsstring * (jsstring * jsstring)) :=
  match match_at r pre suf with
  | Some e => Some (pre, e)
  | None =>
      match suf with
      | c :: suf' => search r (c :: pre) suf'
      | [] => None
      end
  end.

(** [RegExp.prototype.test] of a pattern without the [g] flag. *)
Definition test (r : regex) (s : jsstring) : bool :=
  match search r [] s with Some _ => true | None => false end.

(** [String.prototype.replace] with a [g] pattern: the matches are found
    left to right, each search resuming where the last match ended (one
    code unit further after an empty match); [f] maps the matched text
    to its replacement. Every step consumes input, so [S (length s)]
    steps are enough. *)
Fixpoint replace_loop (fuel : nat) (r : regex) (f : jsstring -> jsstring)
    (pre suf : jsstring) {struct fuel} : jsstring :=
  match fuel with
  | O => suf
  | S fuel' =>
      let skip :=
        match suf with
        | c :: suf' => c :: replace_loop fuel' r f (c :: pre) suf'
        | [] => []
        end in
      match match_at r pre suf with
      | Some (pre', suf') =>
          let matched := take (length suf - length suf') suf in
          if (length suf' <? length suf)%nat
          then f matched ++ replace_loop fuel' r f pre' suf'
          else f matched ++ skip
      | None => skip
      end
  end.

Definition replace_all (r : regex) (f : jsstring -> jsstring) (s : jsstring)
  : jsstring :=
  replace_loop (S (length s)) r f [] s.

(** Pattern syntax used by the script. *)
Definition char (s : string) : regex := Class (fun c => (c =? chr s)%N).

(** A literal under the [i] flag. *)
Fixpoint lit_i (s : string) : regex :=
  match s with
  | EmptyString => Empty
  | String a s' =>
      Seq (Class (fun c => (canonicalize c =? canonicalize (Ascii.N_of_ascii a))%N))
          (lit_i s')
  end.

Definition one_of (s : string) : N -> bool :=
  fun c => bool_decide (c ∈ lit s).

Definition none_of (s : string) : N -> bool :=
  fun c => negb (one_of s c).

End Regex.

Import Regex.

(** ** The sanitizers of components.js *)

Module Components.

(** The values a caller may pass; only the tag matters to [typeof]. *)
Inductive value : Type :=
| VUndefined
| VNull
| VBoolean (b : bool)
| VNumber (n : Z)
| VString (s : jsstring)
| VObject.

Definition typeof (v : value) : string :=
  match v with
  | VUndefined => "undefined"
  | VNull => "object"
  | VBoolean _ => "boolean"
  | VNumber _ => "number"
  | VString _ => "string"
  | VObject => "object"
  end.

Definition dquote : N := 34%N.

(** The object literal [map] of [escapeHtml], keyed by one-character
    strings. *)
Definition escape_map : gmap jsstring jsstring :=
  list_to_map
    [ (lit "&", lit "&amp;");
      (lit "<", lit "&lt;");
      (lit ">", lit "&gt;");
      ([dquote], lit "&quot;");
      (lit "'", lit "&#039;");
      (lit "/", lit "&#x2F;") ].

(** The class of [escapeHtml]'s pattern: ampersand, the angle brackets,
    the double and the single quote, and the slash. *)
Definition escape_class (c : N) : bool := one_of "&<>'/" c || (c =? dquote)%N.

(** The replacer [(char) => map[char]]; a missing key would print as
    [undefined]. *)
Definition escape_replacer (char : jsstring) : jsstring :=
  default (lit "undefined") (escape_map !! char).

Definition escapeHtml (text : value) : jsstring :=
  match text with
  | VString s => replace_all (Class escape_class) escape_replacer s
  | _ => []
  end.

(** The script-block pattern, written here with blanks between its parts:
    [/<script\b [^<]* (?: (?!<\/script>) < [^<]* )* <\/script \s* >/gi] *)
Definition re_script_block : regex :=
  lit_i "<script" +++ WordB +++ Star (Class (none_of "<")) +++
  Star (NotAhead (lit_i "</script>") +++ lit_i "<" +++ Star (Class (none_of "<"))) +++
  lit_i "</script" +++ Star (Class is_whitespace) +++ lit_i ">".

Definition is_quote (c : N) : bool := (c =? dquote)%N || (c =? chr "'")%N.

(** [/\s*on\w+\s*=\s*[Q][^Q]*[Q]/gi], where [Q] stands for the two
    quote characters. *)
Definition re_handler_quoted : regex :=
  Star (Class is_whitespace) +++ lit_i "on" +++ Plus (Class is_word) +++
  Star (Class is_whitespace) +++ lit_i "=" +++ Star (Class is_whitespace) +++
  Class is_quote +++ Star (Class (fun c => negb (is_quote c))) +++ Class is_quote.

(** [/\s*on\w+\s*=\s*[^\s>]*/gi] *)
Definition re_handler_bare : regex :=
  Star (Class is_whitespace) +++ lit_i "on" +++ Plus (Class is_word) +++
  Star (Class is_whitespace) +++ lit_i "=" +++ Star (Class is_whitespace) +++
  Star (Class (fun c => negb (is_whitespace c || (c =? chr ">")%N))).

(** [/javascript\s*:/gi], [/data\s*:/gi], [/vbscript\s*:/gi] *)
Definition re_scheme (name : string) : regex :=
  lit_i name +++ Star (Class is_whitespace) +++ lit_i ":".

Definition sanitizeHtml (html : value) : jsstring :=
  match html with
  | VString html =>
      let html := replace_all re_script_block (fun _ => []) html in
      let html := replace_all re_handler_quoted (fun _ => []) html in
      let html := replace_all re_handler_bare (fun _ => []) html in
      let html := replace_all (re_scheme "javascript") (fun _ => lit "blocked:") html in
      let html := replace_all (re_scheme "data") (fun _ => lit "blocked:") html in
      let html := replace_all (re_scheme "vbscript") (fun _ => lit "blocked:") html in
      html
  | _ => []
  end.

End Components.

Import Components.

(** ** The page and the browser state *)

Module Dom.

(** The element after a form control, where the inline error goes. *)
Record Feedback : Type := mkFeedback {
  fb_classes : list string;
  fb_textContent : jsstring;
  fb_display : string
}.

(** A control of the contact form: text input, textarea, checkbox or
    hidden input. *)
Record Control : Type := mkControl {
  c_value : jsstring;
  c_defaultValue : jsstring;
  c_checked : bool;
  c_defaultChecked : bool;
  c_classes : list string;
  c_next : option Feedback
}.

(** The element with id [form-message]. *)
Record MessageBox : Type := mkMessageBox {
  m_className : string;
  m_textContent : jsstring;
  m_display : string
}.

(** The submit button of the form. *)
Record Button : Type := mkButton {
  b_disabled : bool;
  b_classes : list string;
  b_textContent : jsstring
}.

Definition classList_add (x : string) (l : list string) : list string :=
  if bool_decide (x ∈ l) then l else l ++ [x].

Definition classList_remove (x : string) (l : list string) : list string :=
  filter (fun y => y ≠ x) l.

Definition classList_contains (x : string) (l : list string) : bool :=
  bool_decide (x ∈ l).

(** The object [formData] handed to the transport. *)
Record Payload : Type := mkPayload {
  p_name : jsstring;
  p_email : jsstring;
  p_message : jsstring;
  p_csrf_token : jsstring;
  p_timestamp : Z
}.

(** What a run leaves in the log, in program order. *)
Inductive Event : Type :=
| Call (fn : string) (arg : string)
| ReadValue (name : string)
| ReadChecked (name : string)
| LocalGet (key : string)
| LocalSet (key : string) (v : list Z)
| SessionGet (key : string)
| SessionSet (key : string) (v : jsstring)
| Random (n : nat)
| Console (level : string) (msg : string) (args : list jsstring)
| Transport (p : Payload).

(** The browser state the script reads and writes.

    - [localStorage] holds, under a key, the array that the JSON text
      stored there denotes: the script writes the key only with
      [JSON.stringify] of an array of [Date.now()] readings, and
      [JSON.parse] gives that array back. A key that is absent reads as
      [null]. The array may have any length: the store outlives the page
      and is open to every script of the origin.
    - [controls] are the controls of [#contact-form] by their [name]
      attribute; the hidden input named [csrf_token] is also the element
      with that id.
    - [clock] is what [Date.now()] returns; [entropy] is the source behind
      [crypto.getRandomValues], of which [entropyUsed] values are spent. *)
Record State : Type := mkState {
  localStorage : gmap string (list Z);
  sessionStorage : gmap string jsstring;
  controls : gmap string Control;
  formMessage : option MessageBox;
  submitButton : option Button;
  clock : Z;
  entropy : nat -> N;
  entropyUsed : nat;
  timers : list (Z * string);
  trace : list Event
}.

Definition with_localStorage (v : gmap string (list Z)) (s : State) : State :=
  mkState v (sessionStorage s) (controls s) (formMessage s) (submitButton s)
    (clock s) (entropy s) (entropyUsed s) (timers s) (trace s).

Definition with_sessionStorage (v : gmap string jsstring) (s : State) : State :=
  mkState (localStorage s) v (controls s) (formMessage s) (submitButton s)
    (clock s) (entropy s) (entropyUsed s) (timers s) (trace s).

Definition with_controls (v : gmap string Control) (s : State) : State :=
  mkState (localStorage s) (sessionStorage s) v (formMessage s) (submitButton s)
    (clock s) (entropy s) (entropyUsed s) (timers s) (trace s).

Definition with_formMessage (v : option MessageBox) (s : State) : State :=
  mkState (localStorage s) (sessionStorage s) (controls s) v (submitButton s)
    (clock s) (entropy s) (entropyUsed s) (timers s) (trace s).

Definition with_submitButton (v : option Button) (s : State) : State :=
  mkState (localStorage s) (sessionStorage s) (controls s) (formMessage s) v
    (clock s) (entropy s) (entropyUsed s) (timers s) (trace s).

Definition with_clock (v : Z) (s : State) : State :=
  mkState (localStorage s) (sessionStorage s) (controls s) (formMessage s)
    (submitButton s) v (entropy s) (entropyUsed s) (timers s) (trace s).

Definition with_entropyUsed (v : nat) (s : State) : State :=
  mkState (localStorage s) (sessionStorage s) (controls s) (formMessage s)
    (submitButton s) (clock s) (entropy s) v (timers s) (trace s).

Definition with_timers (v : list (Z * string)) (s : State) : State :=
  mkState (localStorage s) (sessionStorage s) (controls s) (formMessage s)
    (submitButton s) (clock s) (entropy s) (entropyUsed s) v (trace s).

Definition with_trace (v : list Event) (s : State) : State :=
  mkState (localStorage s) (sessionStorage s) (controls s) (formMessage s)
    (submitButton s) (clock s) (entropy s) (entropyUsed s) (timers s) v.

(** *** Computations: state, exceptions, log *)

Inductive Outcome (A : Type) : Type :=
| Normal (a : A)
| Throw (error : string).
Arguments Normal {A} a.
Arguments Throw {A} error.

Definition M (A : Type) : Type := State -> Outcome A * State.

#[export] Instance M_ret : MRet M := fun A a s => (Normal a, s).

#[export] Instance M_bind : MBind M := fun A B f m s =>
  match m s with
  | (Normal a, s') => f a s'
  | (Throw e, s') => (Throw e, s')
  end.

Definition throw {A} (e : string) : M A := fun s => (Throw e, s).

(** [try { body } catch (error) { handler } finally { final }] *)
Definition try_catch_finally {A} (body : M A) (handler : string -> M A)
    (final : M unit) : M A :=
  fun s =>
    let '(o, s1) :=
      match body s with
      | (Normal a, s1) => (Normal a, s1)
      | (Throw e, s1) => handler e s1
      end in
    match final s1 with
    | (Normal _, s2) => (o, s2)
    | (Throw e, s2) => (Throw e, s2)
    end.

Definition gets {A} (f : State -> A) : M A := fun s => (Normal (f s), s).

Definition modify (f : State -> State) : M unit := fun s => (Normal tt, f s).

Definition log (e : Event) : M unit :=
  modify (fun s => with_trace (trace s ++ [e]) s).

Definition console (level msg : string) (args : list jsstring) : M unit :=
  log (Console level msg args).

Definition Date_now : M Z := gets clock.

(** Time that passes while the handler is suspended. *)
Definition elapse (ms : Z) : M unit :=
  modify (fun s => with_clock (clock s + ms)%Z s).

Definition localStorage_getItem (key : string) : M (option (list Z)) :=
  log (LocalGet key);;
  gets (fun s => localStorage s !! key).

Definition localStorage_setItem (key : string) (v : list Z) : M unit :=
  log (LocalSet key v);;
  modify (fun s => with_localStorage (<[key := v]> (localStorage s)) s).

Definition sessionStorage_getItem (key : string) : M (option jsstring) :=
  log (SessionGet key);;
  gets (fun s => sessionStorage s !! key).

Definition sessionStorage_setItem (key : string) (v : jsstring) : M unit :=
  log (SessionSet key v);;
  modify (fun s => with_sessionStorage (<[key := v]> (sessionStorage s)) s).

(** [crypto.getRandomValues] on a fresh [Uint8Array(n)]. *)
Definition getRandomValues (n : nat) : M (list N) :=
  log (Random n);;
  bytes ← gets (fun s =>
    map (fun i => (entropy s (entropyUsed s + i)%nat mod 256)%N) (seq 0 n));
  modify (fun s => with_entropyUsed (entropyUsed s + n)%nat s);;
  mret bytes.

(** A property read or write on the control a query by [name] found; on
    [null] it is a [TypeError]. *)
Definition control (name : string) : M Control :=
  found ← gets (fun s => controls s !! name);
  match found with
  | Some c => mret c
  | None => throw "TypeError"
  end.

Definition update_control (name : string) (f : Control -> Control) : M unit :=
  c ← control name;
  modify (fun s => with_controls (<[name := f c]> (controls s)) s).

Definition read_value (name : string) : M jsstring :=
  c ← control name;
  log (ReadValue name);;
  mret (c_value c).

Definition read_checked (name : string) : M bool :=
  c ← control name;
  log (ReadChecked name);;
  mret (c_checked c).

Definition set_classes (f : list string -> list string) (c : Control) : Control :=
  mkControl (c_value c) (c_defaultValue c) (c_checked c) (c_defaultChecked c)
    (f (c_classes c)) (c_next c).

Definition set_next (f : Feedback -> Feedback) (c : Control) : Control :=
  mkControl (c_value c) (c_defaultValue c) (c_checked c) (c_defaultChecked c)
    (c_classes c) (f <$> c_next c).

(** A write to [value] of a text control. *)
Definition set_value (v : jsstring) (c : Control) : Control :=
  mkControl v (c_defaultValue c) (c_checked c) (c_defaultChecked c)
    (c_classes c) (c_next c).

(** A write to [value] of a hidden input: it is a write to the [value]
    attribute of the element, which gives the default value as well. *)
Definition set_value_attribute (v : jsstring) (c : Control) : Control :=
  mkControl v v (c_checked c) (c_defaultChecked c) (c_classes c) (c_next c).

(** What [form.reset()] does to one control. *)
Definition reset_control (c : Control) : Control :=
  mkControl (c_defaultValue c) (c_defaultValue c) (c_defaultChecked c)
    (c_defaultChecked c) (c_classes c) (c_next c).

Definition button : M Button :=
  found ← gets submitButton;
  match found with
  | Some b => mret b
  | None => throw "TypeError"
  end.

Definition update_button (f : Button -> Button) : M unit :=
  b ← button;
  modify (with_submitButton (Some (f b))).

End Dom.

Import Dom.

(** ** contact-form.js *)

Module ContactForm.

Definition hex_digit (d : N) : N :=
  if (d <? 10)%N then (48 + d)%N else (87 + d)%N.

(** [byte.toString(16)] of an element of a [Uint8Array]. *)
Definition toString16 (byte : N) : jsstring :=
  if (byte <? 16)%N then [hex_digit byte]
  else [hex_digit (byte / 16); hex_digit (byte mod 16)].

(** [s.padStart(n, fill)] with a one-character filler. *)
Definition padStart (n : nat) (fill : N) (s : jsstring) : jsstring :=
  replicate (n - length s) fill ++ s.

Definition generateCSRFToken : M jsstring :=
  log (Call "generateCSRFToken" "");;
  array ← getRandomValues 32;
  mret (concat (map (fun byte => padStart 2 (chr "0") (toString16 byte)) array)).

(** [!token]: [null] and the empty string are falsy. *)
Definition falsy (token : option jsstring) : bool :=
  match token with
  | Some (_ :: _) => false
  | _ => true
  end.

Definition initCSRFToken : M jsstring :=
  log (Call "initCSRFToken" "");;
  stored ← sessionStorage_getItem "csrf_token";
  token ← (if falsy stored then
             token ← generateCSRFToken;
             sessionStorage_setItem "csrf_token" token;;
             console "log" "[Security] CSRF token generated" [];;
             mret token
           else mret (default [] stored));
  tokenField ← gets (fun s => controls s !! "csrf_token");
  match tokenField with
  | Some _ => update_control "csrf_token" (set_value_attribute token)
  | None => mret tt
  end;;
  mret token.

(** The class [[a-zA-Z\s'-]]. *)
Definition name_class (c : N) : bool :=
  is_lower c || is_upper c || is_whitespace c || (c =? chr "'")%N || (c =? chr "-")%N.

(** The class [[^\s@]]. *)
Definition email_class (c : N) : bool :=
  negb (is_whitespace c || (c =? chr "@")%N).

(** [/^[a-zA-Z\s'-]+$/] *)
Definition name_pattern : regex := Bol +++ Plus (Class name_class) +++ Eol.

(** [/^[^\s@]+@[^\s@]+\.[^\s@]+$/] *)
Definition emailRegex : regex :=
  Bol +++ Plus (Class email_class) +++ char "@" +++ Plus (Class email_class) +++
  char "." +++ Plus (Class email_class) +++ Eol.

(** The [switch (fieldName)] of [validateField]: the verdict [isValid]
    and the [errorMessage] for the trimmed [value]. *)
Definition validation_rule (fieldName : string) (value : jsstring)
  : bool * jsstring :=
  if String.eqb fieldName "name" then
    if (length value <? 2)%nat || (100 <? length value)%nat then
      (false, lit "Name must be between 2 and 100 characters")
    else if negb (test name_pattern value) then
      (false, lit "Name can only contain letters, spaces, hyphens, and apostrophes")
    else (true, [])
  else if String.eqb fieldName "email" then
    if negb (test emailRegex value) then
      (false, lit "Please enter a valid email address")
    else (true, [])
  else if String.eqb fieldName "message" then
    if (length value <? 10)%nat || (2000 <? length value)%nat then
      (false, lit "Message must be between 10 and 2000 characters")
    else (true, [])
  else (true, []).

Definition show_feedback (errorMessage : jsstring) (fb : Feedback) : Feedback :=
  if classList_contains "invalid-feedback" (fb_classes fb)
  then mkFeedback (fb_classes fb) errorMessage "block"
  else fb.

Definition hide_feedback (fb : Feedback) : Feedback :=
  if classList_contains "invalid-feedback" (fb_classes fb)
  then mkFeedback (fb_classes fb) (fb_textContent fb) "none"
  else fb.

(** The "update field state" part of [validateField]. *)
Definition mark_field (isValid : bool) (errorMessage : jsstring) (c : Control)
  : Control :=
  if isValid then
    set_next hide_feedback
      (set_classes (fun l => classList_add "is-valid" (classList_remove "is-invalid" l)) c)
  else
    set_next (show_feedback errorMessage)
      (set_classes (fun l => classList_add "is-invalid" (classList_remove "is-valid" l)) c).

Definition validateField (field : string) : M bool :=
  log (Call "validateField" field);;
  raw ← read_value field;
  let value := trim raw in
  let fieldName := field in
  let '(isValid, errorMessage) := validation_rule fieldName value in
  update_control field (mark_field isValid errorMessage);;
  mret isValid.

(** What [checkRateLimit] returns; [message] is absent when allowed. *)
Record RateLimit : Type := mkRateLimit {
  allowed : bool;
  message : option jsstring
}.

(** [Math.min(...l)] of a list that is not empty (the call site has at
    least three entries). *)
Definition Math_min (l : list Z) : Z :=
  match l with
  | x :: l' => foldl Z.min x l'
  | [] => 0%Z
  end.

(** [Math.ceil(a / b)] for integers [a] and [b > 0]. *)
Definition Math_ceil_div (a b : Z) : Z := (- ((- a) / b))%Z.

Definition oneHour : Z := (60 * 60 * 1000)%Z.

(** The decision of [checkRateLimit], from the parsed [submissions] and
    the reading [now] of the clock. *)
Definition rate_limit (submissions : list Z) (now : Z) : RateLimit :=
  let recentSubmissions :=
    filter (fun timestamp => (now - timestamp < oneHour)%Z) submissions in
  if (3 <=? length recentSubmissions)%nat then
    let oldestSubmission := Math_min recentSubmissions in
    let timeUntilNext := (oldestSubmission + oneHour - now)%Z in
    let minutesLeft := Math_ceil_div timeUntilNext 60000 in
    mkRateLimit false
      (Some (lit "Rate limit exceeded. Please try again in "
             ++ decimal minutesLeft ++ lit " minute(s)."))
  else mkRateLimit true None.

(** [JSON.parse(item || '[]')] *)
Definition parse_submissions (item : option (list Z)) : list Z := default [] item.

Definition checkRateLimit : M RateLimit :=
  log (Call "checkRateLimit" "");;
  item ← localStorage_getItem "form_submissions";
  let submissions := parse_submissions item in
  now ← Date_now;
  mret (rate_limit submissions now).

(** [submissions.push(now)] and the [shift()] that follows it. *)
Definition push_keep_last (submissions : list Z) (now : Z) : list Z :=
  let submissions := submissions ++ [now] in
  if (10 <? length submissions)%nat then tail submissions else submissions.

Definition recordSubmission : M unit :=
  log (Call "recordSubmission" "");;
  item ← localStorage_getItem "form_submissions";
  let submissions := parse_submissions item in
  now ← Date_now;
  let submissions := push_keep_last submissions now in
  localStorage_setItem "form_submissions" submissions;;
  console "log" "[Security] Form submission recorded" [].

Definition showMessage (type : string) (message : jsstring) : M unit :=
  log (Call "showMessage" type);;
  messageDiv ← gets formMessage;
  match messageDiv with
  | None => mret tt
  | Some _ =>
      modify (with_formMessage
                (Some (mkMessageBox ("alert alert-" ++ type) message "block")));;
      if String.eqb type "success" then
        modify (fun s =>
          with_timers (timers s ++ [((clock s + 5000)%Z, "hide form-message")]) s)
      else mret tt
  end.

(** The simulated network call: it resolves after its 1500 ms timer, and
    logs the escaped data when the timer fires. *)
Definition simulateAPICall (data : Payload) : M unit :=
  log (Transport data);;
  elapse 1500;;
  console "log" "[Security] Form data (sanitized):"
    [ escapeHtml (VString (p_name data));
      escapeHtml (VString (p_email data));
      take 50 (escapeHtml (VString (p_message data))) ++ lit "...";
      decimal (p_timestamp data) ].

Definition form_reset : M unit :=
  modify (fun s => with_controls (reset_control <$> controls s) s).

Definition remove_validation_classes : M unit :=
  modify (fun s =>
    with_controls
      (set_classes (fun l => classList_remove "is-invalid" (classList_remove "is-valid" l))
         <$> controls s) s).

Definition set_disabled (v : bool) (b : Button) : Button :=
  mkButton v (b_classes b) (b_textContent b).

Definition set_button_classes (f : list string -> list string) (b : Button) : Button :=
  mkButton (b_disabled b) (f (b_classes b)) (b_textContent b).

Definition set_button_text (v : jsstring) (b : Button) : Button :=
  mkButton (b_disabled b) (b_classes b) v.

Definition is_nil {A} (l : list A) : bool :=
  match l with [] => true | _ :: _ => false end.

(** The submit listener. [event.preventDefault()] has no effect on the
    state kept here; while the handler waits for the transport nothing
    else runs on the page. An exception that leaves the [try] statement
    or is thrown before it rejects the promise the handler returns. *)
Definition handleSubmit : M unit :=
  log (Call "handleSubmit" "");;
  rateLimit ← checkRateLimit;
  if negb (allowed rateLimit) then
    showMessage "danger" (default (lit "undefined") (message rateLimit));;
    console "warn" "[Security] Rate limit exceeded" []
  else
    nameOk ← validateField "name";
    emailOk ← validateField "email";
    messageOk ← validateField "message";
    let isFormValid := nameOk && emailOk && messageOk in
    privacy ← read_checked "privacy";
    isFormValid ← (if negb privacy then
                     showMessage "danger"
                       (lit "Please accept the privacy policy to continue.");;
                     mret false
                   else mret isFormValid) : M bool;
    honeypot ← read_value "website";
    if negb (is_nil (trim honeypot)) then
      console "warn" "[Security] Honeypot field filled - potential bot detected" [];;
      showMessage "danger" (lit "Invalid submission detected.")
    else if negb isFormValid then
      showMessage "danger" (lit "Please correct the errors in the form.")
    else
      update_button (set_disabled true);;
      update_button (set_button_classes (classList_add "btn-loading"));;
      originalText ← (b ← button; mret (b_textContent b));
      update_button (set_button_text (lit "Sending..."));;
      try_catch_finally
        (name ← read_value "name";
         email ← read_value "email";
         message ← read_value "message";
         csrf_token ← read_value "csrf_token";
         timestamp ← Date_now;
         let formData :=
           mkPayload (trim name) (trim email) (trim message) csrf_token timestamp in
         simulateAPICall formData;;
         recordSubmission;;
         showMessage "success"
           (lit "Thank you for your message! I will get back to you soon.");;
         form_reset;;
         remove_validation_classes;;
         initCSRFToken;;
         console "log" "[Security] Form submitted successfully" [])
        (fun error =>
           console "error" "[Security] Form submission error:" [lit error];;
           showMessage "danger"
             (lit "An error occurred while sending your message. Please try again later."))
        (update_button (set_disabled false);;
         update_button (set_button_classes (classList_remove "btn-loading"));;
         update_button (set_button_text originalText)).

(** [initContactForm], on a page that has the form; the listeners it
    attaches call [validateField] and [handleSubmit]. *)
Definition initContactForm : M unit :=
  console "log" "[Security] Initializing contact form..." [];;
  initCSRFToken;;
  console "log" "[Security] Contact form initialized with security features" [].

End ContactForm.

Import ContactForm.

(** ** What the patterns mean

    The text a pattern matches between two positions, stated without
    reference to the order in which the matcher tries things: [pre] is the
    reversed text before the match, [w] the matched text, [post] the rest. *)

Module Lang.

Inductive iter (P : jsstring -> jsstring -> jsstring -> Prop)
  : jsstring -> jsstring -> jsstring -> Prop :=
| iter_done pre post : iter P pre [] post
| iter_step pre w1 w2 post :
    w1 <> [] ->
    P pre w1 (w2 ++ post) ->
    iter P (rev w1 ++ pre) w2 post ->
    iter P pre (w1 ++ w2) post.

Fixpoint lang (r : regex) (pre w post : jsstring) : Prop :=
  match r with
  | Empty => w = []
  | Class p => exists c, w = [c] /\ p c = true
  | Seq r1 r2 =>
      exists w1 w2, w = w1 ++ w2 /\ lang r1 pre w1 (w2 ++ post)
                    /\ lang r2 (rev w1 ++ pre) w2 post
  | Alt r1 r2 => lang r1 pre w post \/ lang r2 pre w post
  | Star r1 => iter (lang r1) pre w post
  | Bol => w = [] /\ pre = []
  | Eol => w = [] /\ post = []
  | WordB => w = [] /\ xorb (is_wordchar_before pre) (is_wordchar_after post) = true
  | NotAhead r1 =>
      w = [] /\ ~ exists w1 post1, post = w1 ++ post1 /\ lang r1 pre w1 post1
  end.

End Lang.

Import Lang.

(** ** Vocabulary of the statements *)

Module Vocabulary.

(** The state a computation leaves, and what it added to the log. *)
Definition after {A} (m : M A) (s : State) : State := (m s).2.

Definition outcome {A} (m : M A) (s : State) : Outcome A := (m s).1.

Definition new_events {A} (m : M A) (s : State) : list Event :=
  drop (length (trace s)) (trace (after m s)).

(** The payloads handed to the transport, in order. *)
Definition transports (t : list Event) : list Payload :=
  omap (fun e => match e with Transport p => Some p | _ => None end) t.

(** The checks of a submit attempt, and the event by which the log shows
    that one was made: the rate-limit check is the call of
    [checkRateLimit], the validation of a field the call of
    [validateField] on that field, the consent check the read of the
    privacy checkbox, the honeypot check the read of the [website]
    control, the token attachment the read of the [csrf_token] control
    for the payload, the network call the call of the transport. *)
Inductive Stage : Type :=
| RateLimitCheck
| FieldValidation (field : string)
| ConsentCheck
| HoneypotCheck
| TokenAttachment
| NetworkCall.

#[export] Instance Stage_eq_dec : EqDecision Stage.
Proof. solve_decision. Defined.

Definition stage_of (e : Event) : option Stage :=
  match e with
  | Call fn arg =>
      if String.eqb fn "checkRateLimit" then Some RateLimitCheck
      else if String.eqb fn "validateField" then Some (FieldValidation arg)
      else None
  | ReadChecked name =>
      if String.eqb name "privacy" then Some ConsentCheck else None
  | ReadValue name =>
      if String.eqb name "website" then Some HoneypotCheck
      else if String.eqb name "csrf_token" then Some TokenAttachment
      else None
  | Transport _ => Some NetworkCall
  | _ => None
  end.

Definition stages (t : list Event) : list Stage := omap stage_of t.

(** The order in which [handleSubmit] makes its checks. *)
Definition order_of_checks : list Stage :=
  [RateLimitCheck; FieldValidation "name"; FieldValidation "email";
   FieldValidation "message"; ConsentCheck; HoneypotCheck; TokenAttachment;
   NetworkCall].

(** The checks of an attempt that is admitted and not sent. *)
Definition checks_before_sending : list Stage :=
  [RateLimitCheck; FieldValidation "name"; FieldValidation "email";
   FieldValidation "message"; ConsentCheck; HoneypotCheck].

(** No rate-limit check and no field validation before the honeypot
    check. *)
Definition honeypot_first (done : list Stage) : Prop :=
  forall before rest,
    done = before ++ HoneypotCheck :: rest ->
    (RateLimitCheck ∉ before) /\ (forall field, FieldValidation field ∉ before).

(** [m] adds to the log; the stages of what it adds are [l] when it
    returns, and an initial part of [l] when it throws. *)
Definition emits {A} (m : M A) (l : list Stage) : Prop :=
  forall s, exists t,
    trace (after m s) = trace s ++ t
    /\ match outcome m s with
       | Normal _ => stages t = l
       | Throw _ => stages t `prefix_of` l
       end.

(** The stages of what [m] adds to the log are an initial part of [l]. *)
Definition bounded {A} (m : M A) (l : list Stage) : Prop :=
  forall s, exists t,
    trace (after m s) = trace s ++ t /\ stages t `prefix_of` l.

(** A run of [m] from [s] that writes neither storage area and does not
    call the transport. *)
Definition voided {A} (m : M A) (s : State) : Prop :=
  localStorage (after m s) = localStorage s
  /\ sessionStorage (after m s) = sessionStorage s
  /\ transports (new_events m s) = [].

(** [m] keeps the property [I] of the state, whatever it returns. *)
Definition preserves {A} (I : State -> Prop) (m : M A) : Prop :=
  forall s, I s -> I (after m s).

(** The session store is [sigma], and it holds a token. *)
Definition session_is (sigma : gmap string jsstring) (s : State) : Prop :=
  sessionStorage s = sigma /\ falsy (sigma !! "csrf_token") = false.

(** The control [c] called [field] after [validateField] has marked it
    with its verdict. *)
Definition validated (field : string) (c : Control) : Control :=
  let v := validation_rule field (trim (c_value c)) in mark_field v.1 v.2 c.

(** Field rules. The characters of the name pattern: the letters
    [a-z] and [A-Z] of ASCII; the class [\s], which is the space, the tab,
    the line terminators, the no-break space and the other white space
    of ECMAScript; the hyphen and the apostrophe. *)
Definition ascii_letter (c : N) : Prop := is_lower c = true \/ is_upper c = true.

Definition whitespace (c : N) : Prop := is_whitespace c = true.

Definition name_char (c : N) : Prop :=
  ascii_letter c \/ whitespace c \/ c = chr "-" \/ c = chr "'".

(** The same rule in the words of the specification and of the error
    message, read as written: a space is the space character U+0020; a
    letter is a letter of an alphabet, with or without a diacritic, of
    which these are the Latin letters of the first three blocks of
    Unicode (Basic Latin, Latin-1 Supplement, Latin Extended-A). *)
Definition letter (c : N) : Prop :=
  is_lower c = true \/ is_upper c = true
  \/ (192 <= c <= 214)%N \/ (216 <= c <= 246)%N \/ (248 <= c <= 383)%N.

Definition space (c : N) : Prop := c = 32%N.

Definition worded_name_char (c : N) : Prop :=
  letter c \/ space c \/ c = chr "-" \/ c = chr "'".

#[export] Instance worded_name_char_dec (c : N) : Decision (worded_name_char c).
Proof. unfold worded_name_char, letter, space. apply _. Defined.

(** The page of [s] after the user has put [v] into the control
    [field]. *)
Definition typed (field : string) (v : jsstring) (s : State) : State :=
  match controls s !! field with
  | Some c => with_controls (<[field := set_value v c]> (controls s)) s
  | None => s
  end.

(** Neither whitespace nor [@]. *)
Definition plain (c : N) : Prop := is_whitespace c = false /\ c <> chr "@".

(** The shape [local@domain.tld]. *)
Definition email_shape (v : jsstring) : Prop :=
  exists loc dom tld,
    v = loc ++ [chr "@"] ++ dom ++ [chr "."] ++ tld
    /\ loc <> [] /\ dom <> [] /\ tld <> []
    /\ Forall plain loc /\ Forall plain dom /\ Forall plain tld.

(** The entity that stands for a character in escaped text, and the
    character itself where it needs none. *)
Definition entity (c : N) : jsstring :=
  if (c =? chr "&")%N then lit "&amp;"
  else if (c =? chr "<")%N then lit "&lt;"
  else if (c =? chr ">")%N then lit "&gt;"
  else if (c =? dquote)%N then lit "&quot;"
  else if (c =? chr "'")%N then lit "&#039;"
  else if (c =? chr "/")%N then lit "&#x2F;"
  else [c].

Definition entities : list jsstring :=
  [lit "&amp;"; lit "&lt;"; lit "&gt;"; lit "&quot;"; lit "&#039;"; lit "&#x2F;"].

(** The characters of the class other than the ampersand. *)
Definition markup_chars : list N :=
  [chr "<"; chr ">"; dquote; chr "'"; chr "/"].

(** Every ampersand of [out] opens one of the six entities. *)
Definition ampersands_open_entities (out : jsstring) : Prop :=
  forall pre post,
    out = pre ++ chr "&" :: post ->
    exists e rest, e ∈ entities /\ chr "&" :: post = e ++ rest.

(** The trailing window of 3,600,000 ms that ends at [now]. *)
Definition in_window (now t : Z) : Prop := (now - 3600000 < t <= now)%Z.

#[export] Instance in_window_dec (now t : Z) : Decision (in_window now t).
Proof. unfold in_window. apply _. Defined.

(** A page with the six controls of the form, a message box and a
    submit button, at a given time and with given storage. *)
Definition feedback0 : option Feedback := Some (mkFeedback ["invalid-feedback"] [] "").

Definition text_control (v : string) : Control :=
  mkControl (lit v) [] false false [] feedback0.

Definition checkbox (checked : bool) : Control :=
  mkControl (lit "on") (lit "on") checked false [] None.

Definition page (name email message website : string) (privacy : bool)
    (token : jsstring) (submissions : gmap string (list Z)) (now : Z) : State :=
  mkState submissions
    (if token is [] then ∅ else {[ "csrf_token" := token ]})
    (list_to_map
       [ ("name", text_control name); ("email", text_control email);
         ("message", text_control message); ("privacy", checkbox privacy);
         ("website", mkControl (lit website) [] false false [] None);
         ("csrf_token", mkControl token [] false false [] None) ])
    (Some (mkMessageBox "alert" [] "none"))
    (Some (mkButton false ["btn"] (lit "Send Message")))
    now (fun i => N.of_nat (7 * i + 3)) 0 [] [].

Definition token0 : jsstring :=
  lit "00112233445566778899aabbccddeeff00112233445566778899aabbccddeeff".

(** The page in the middle of a session: the token has been issued. *)
Definition scenario (name message website : string) (submissions : list Z) (now : Z)
  : State :=
  page name "john@example.com" message website true token0
    (if submissions is [] then ∅ else {[ "form_submissions" := submissions ]}) now.

(** The page as it is loaded, before [initContactForm] has run. *)
Definition fresh_page (now : Z) : State :=
  page "John Doe" "john@example.com" "Hello, this is a test message." "" true
    [] ∅ now.

(** The 32 values [generateCSRFToken] draws from the source [e] of which
    [used] values are spent, and those it draws in state [s]. *)
Definition drawn_from (e : nat -> N) (used : nat) : list N :=
  map (fun i => (e (used + i)%nat mod 256)%N) (seq 0 32).

Definition drawn (s : State) : list N := drawn_from (entropy s) (entropyUsed s).

(** Hexadecimal text of a list of bytes, two digits each. *)
Definition hex (bytes : list N) : jsstring :=
  concat (map (fun byte => padStart 2 (chr "0") (toString16 byte)) bytes).

End Vocabulary.

Import Vocabulary.

(** ** Vocabulary of the further statements *)

Module Schemes.

(** The text of a match of [lit_i s]: the characters of [s], in either
    case. *)
Definition folds_to (s : string) (w : jsstring) : Prop :=
  Forall2 (fun c a => canonicalize c = canonicalize a) w (lit s).

(** A scheme word: the name of the scheme in either case, whitespace,
    and a colon. *)
Definition scheme_word (name : string) (w : jsstring) : Prop :=
  exists n ws, w = n ++ ws ++ [chr ":"]
               /\ folds_to name n /\ Forall (fun c => is_whitespace c = true) ws.

(** A scheme word starts the text [s]. *)
Definition hit (name : string) (s : jsstring) : Prop :=
  exists w post, s = w ++ post /\ scheme_word name w.

(** [o] is [s] with some of its pieces replaced by [rep]; a character
    that is kept stands where [found] does not hold of the text from it
    on. *)
Inductive replaced (found : jsstring -> Prop) (rep : jsstring)
  : jsstring -> jsstring -> Prop :=
| replaced_nil : replaced found rep [] []
| replaced_keep c s o :
    ~ found (c :: s) -> replaced found rep s o -> replaced found rep (c :: s) (c :: o)
| replaced_cut w s o :
    replaced found rep s o -> replaced found rep (w ++ s) (rep ++ o).

(** No scheme word anywhere in [s]. *)
Definition scheme_free (name : string) (s : jsstring) : Prop :=
  forall u v, s = u ++ v -> ~ hit name v.

(** The names of the three schemes. *)
Definition known (name : string) : Prop :=
  name = "javascript" \/ name = "data" \/ name = "vbscript".

(** The characters that the patterns of the sanitizers need. *)
Definition structural (c : N) : Prop := c = chr "<" \/ c = chr "=" \/ c = chr ":".

End Schemes.

Import Schemes.

Module FieldVocabulary.

(** A digit of lower-case hexadecimal text. *)
Definition hex_char (c : N) : Prop := (48 <= c <= 57 \/ 97 <= c <= 102)%N.

(** The entries [checkRateLimit] counts at the time [now]. *)
Definition counted (stored : list Z) (now : Z) : list Z :=
  filter (fun t => (now - t < 3600000)%Z) stored.

End FieldVocabulary.

Import FieldVocabulary.

Module AttemptVocabulary.

(** A control after [form.reset()] and the removal of the validity
    classes. *)
Definition cleared (c : Control) : Control :=
  set_classes (fun l => classList_remove "is-invalid" (classList_remove "is-valid" l))
    (reset_control c).

(** The submit button as the [finally] block leaves it. *)
Definition released (b : Button) : Button :=
  mkButton false
    (classList_remove "btn-loading" (classList_add "btn-loading" (b_classes b)))
    (b_textContent b).

(** The token [initCSRFToken] returns in [s]: the stored one, or a new
    one where none is stored. *)
Definition session_token (s : State) : jsstring :=
  if falsy (sessionStorage s !! "csrf_token") then hex (drawn s)
  else default [] (sessionStorage s !! "csrf_token").

(** The controls after the three field validations of an attempt. *)
Definition validated_controls (s : State) (cn ce cm : Control) : gmap string Control :=
  <["message" := validated "message" cm]>
    (<["email" := validated "email" ce]>
       (<["name" := validated "name" cn]> (controls s))).

(** An attempt that passes every check, on a page that has the controls
    and the button the handler uses. *)
Definition passes (s : State) (cn ce cm ct : Control) (b : Button) : Prop :=
  allowed (rate_limit (parse_submissions (localStorage s !! "form_submissions"))
             (clock s)) = true
  /\ controls s !! "name" = Some cn /\ controls s !! "email" = Some ce
  /\ controls s !! "message" = Some cm
  /\ (exists cp, controls s !! "privacy" = Some cp /\ c_checked cp = true)
  /\ (exists ch, controls s !! "website" = Some ch /\ trim (c_value ch) = [])
  /\ controls s !! "csrf_token" = Some ct
  /\ submitButton s = Some b
  /\ (validation_rule "name" (trim (c_value cn))).1 = true
  /\ (validation_rule "email" (trim (c_value ce))).1 = true
  /\ (validation_rule "message" (trim (c_value cm))).1 = true.

(** The page has the five controls that an attempt checks. *)
Definition has_checked_controls (s : State) : Prop :=
  is_Some (controls s !! "name") /\ is_Some (controls s !! "email")
  /\ is_Some (controls s !! "message") /\ is_Some (controls s !! "privacy")
  /\ is_Some (controls s !! "website").

(** What the transport is handed in an attempt that passes. *)
Definition payload_of (s : State) (cn ce cm ct : Control) : Payload :=
  mkPayload (trim (c_value cn)) (trim (c_value ce)) (trim (c_value cm))
    (c_value ct) (clock s).

(** The store after the attempt has been recorded. *)
Definition recorded (s : State) : gmap string (list Z) :=
  <["form_submissions" :=
      push_keep_last (parse_submissions (localStorage s !! "form_submissions"))
        (clock s + 1500)]> (localStorage s).

Definition thanks : MessageBox :=
  mkMessageBox "alert alert-success"
    (lit "Thank you for your message! I will get back to you soon.") "block".

End AttemptVocabulary.

Import AttemptVocabulary.

(** ** sanitizeInput of contact-form.js *)

Module Input.

(** The loop of a lazy repetition: the rest of the pattern is tried
    first, and the body is matched once more only where the rest fails. *)
Fixpoint lazy_loop {R : Type}
    (step : jsstring -> jsstring -> (jsstring -> jsstring -> option R) -> option R)
    (k : jsstring -> jsstring -> option R)
    (n : nat) (pre suf : jsstring) {struct n} : option R :=
  match n with
  | O => k pre suf
  | S n' =>
      or_else
        (k pre suf)
        (step pre suf
           (fun pre' suf' =>
              if (length suf' <? length suf)%nat
              then lazy_loop step k n' pre' suf' else None))
  end.

(** [.] without the [s] flag: any character but a line terminator. *)
Definition dot (c : N) : bool :=
  negb ((c =? 10) || (c =? 13) || (c =? 8232) || (c =? 8233))%N.

(** The end position of a match of [open .*? close] that starts at
    [(pre, suf)]. *)
Definition match_lazy (open close : regex) (pre suf : jsstring)
  : option (jsstring * jsstring) :=
  rmatch open pre suf
    (fun pre1 suf1 =>
       lazy_loop (fun p s k => rmatch (Class dot) p s k)
         (fun pre2 suf2 => match_at close pre2 suf2)
         (S (length suf1)) pre1 suf1).

(** [String.prototype.replace] with a [g] pattern whose matches [m]
    finds; as [replace_loop]. *)
Fixpoint replace_loop_by (m : jsstring -> jsstring -> option (jsstring * jsstring))
    (fuel : nat) (f : jsstring -> jsstring) (pre suf : jsstring) {struct fuel}
  : jsstring :=
  match fuel with
  | O => suf
  | S fuel' =>
      let skip :=
        match suf with
        | c :: suf' => c :: replace_loop_by m fuel' f (c :: pre) suf'
        | [] => []
        end in
      match m pre suf with
      | Some (pre', suf') =>
          let matched := take (length suf - length suf') suf in
          if (length suf' <? length suf)%nat
          then f matched ++ replace_loop_by m fuel' f pre' suf'
          else f matched ++ skip
      | None => skip
      end
  end.

Definition replace_all_by (m : jsstring -> jsstring -> option (jsstring * jsstring))
    (f : jsstring -> jsstring) (s : jsstring) : jsstring :=
  replace_loop_by m (S (length s)) f [] s.

(** [/<script[^>]*>.*?<\/script>/gi] *)
Definition match_script : jsstring -> jsstring -> option (jsstring * jsstring) :=
  match_lazy (lit_i "<script" +++ Star (Class (none_of ">")) +++ lit_i ">")
    (lit_i "</script>").

(** [/<iframe[^>]*>.*?<\/iframe>/gi] *)
Definition match_iframe : jsstring -> jsstring -> option (jsstring * jsstring) :=
  match_lazy (lit_i "<iframe" +++ Star (Class (none_of ">")) +++ lit_i ">")
    (lit_i "</iframe>").

(** [/on\w+\s*=/gi] *)
Definition re_handler_name : regex :=
  lit_i "on" +++ Plus (Class is_word) +++ Star (Class is_whitespace) +++ lit_i "=".

(** The four replacements of [sanitizeInput]. *)
Definition sanitized (value : jsstring) : jsstring :=
  let value := replace_all_by match_script (fun _ => []) value in
  let value := replace_all_by match_iframe (fun _ => []) value in
  let value := replace_all (lit_i "javascript:") (fun _ => []) value in
  let value := replace_all re_handler_name (fun _ => []) value in
  value.

Definition sanitizeInput (input : string) : M unit :=
  value ← read_value input;
  update_control input (set_value (sanitized value)).

(** A matcher that ends its matches further on in the text. *)
Definition advancing (m : jsstring -> jsstring -> option (jsstring * jsstring)) : Prop :=
  forall pre suf pre' suf', m pre suf = Some (pre', suf') -> suf' `suffix_of` suf.

End Input.

Import Input.

(** ** The page in use *)

Module Page.

(** What happens on the page of the form, one thing at a time: time
    passes, the user edits a control, or an event reaches one of the
    listeners that [initContactForm] has attached. *)
Inductive Action : Type :=
| Wait (ms : N)
| Fill (field : string) (value : jsstring)
| Tick (field : string) (checked : bool)
| Blur (field : string)
| Input (field : string)
| Submit.

Definition set_checked (v : bool) (c : Control) : Control :=
  mkControl (c_value c) (c_defaultValue c) v (c_defaultChecked c) (c_classes c) (c_next c).

(** The user's edit of a control of the page. *)
Definition edit (field : string) (f : Control -> Control) : M unit :=
  modify (fun s =>
    match controls s !! field with
    | Some c => with_controls (<[field := f c]> (controls s)) s
    | None => s
    end).

(** A listener that throws, or returns a promise that is rejected,
    leaves the page running. *)
Definition listener {A} (m : M A) : M unit := fun s => (Normal tt, (m s).2).

(** The fields to which [initContactForm] attaches its [blur] and [input]
    listeners, where the page has them. *)
Definition watched (field : string) : bool :=
  bool_decide (field ∈ ["name"; "email"; "message"]).

Definition when_present (field : string) (m : M unit) : M unit :=
  present ← gets (fun s => controls s !! field);
  match present with
  | Some _ => m
  | None => mret tt
  end.

(** One action.  A submit attempt is followed to its end before the next
    action: the handler's wait for the transport is not interleaved with
    other events.  The timer that hides the success message is recorded,
    not run; it touches the message box only. *)
Definition dispatch (a : Action) : M unit :=
  match a with
  | Wait ms => elapse (Z.of_N ms)
  | Fill field value => edit field (set_value value)
  | Tick field checked => edit field (set_checked checked)
  | Blur field =>
      if watched field then when_present field (listener (validateField field))
      else mret tt
  | Input field =>
      if watched field then when_present field (listener (sanitizeInput field))
      else mret tt
  | Submit => listener handleSubmit
  end.

Fixpoint session (acts : list Action) : M unit :=
  match acts with
  | [] => mret tt
  | a :: acts => dispatch a;; session acts
  end.

(** The timestamps of the payloads sent, in order. *)
Definition sent_at (t : list Event) : list Z := p_timestamp <$> transports t.

(** Of any four sends in a row, the last comes at least [gap] after the
    first. *)
Definition spaced (gap : Z) (ts : list Z) : Prop :=
  forall i t t', ts !! i = Some t -> ts !! (i + 3)%nat = Some t' -> (gap <= t' - t)%Z.

(** The submission store of [s]. *)
Definition store (s : State) : list Z :=
  parse_submissions (localStorage s !! "form_submissions").

(** The last sends, at most three of them, are in the store, in order
    and at its end, each with the 1500 ms the transport took. *)
Definition remembered (s : State) (w : list Z) : Prop :=
  (length w <= 3)%nat
  /\ Forall (fun t => (t + 1500 <= clock s)%Z) w
  /\ (forall i j a b, (i <= j)%nat -> w !! i = Some a -> w !! j = Some b -> (a <= b)%Z)
  /\ ((fun t => (t + 1500)%Z) <$> w) `suffix_of` store s.

Definition last3 (l : list Z) : list Z := drop (length l - 3) l.

(** The session store and the hidden field of the form hold the token
    [token]. *)
Definition in_sync (token : jsstring) (s : State) : Prop :=
  sessionStorage s !! "csrf_token" = Some token /\ token <> []
  /\ (c_value <$> controls s !! "csrf_token") = Some token.

(** The user does not write into the hidden field. *)
Definition hands_off (a : Action) : Prop := forall v, a <> Fill "csrf_token" v.

(** A computation that only adds to the log. *)
Definition extends {A} (m : M A) : Prop :=
  forall s, exists t, trace (after m s) = trace s ++ t.

End Page.

Import Page.

(** ** Template literals

    A template literal of the scripts, piece by piece: its fixed text, a
    double quote of the text, a line break of the text, and an
    interpolated value. *)

Module Template.

Inductive piece : Type :=
| Text (s : string)
| Quote
| Break
| Value (v : jsstring).

Definition piece_text (p : piece) : jsstring :=
  match p with
  | Text s => lit s
  | Quote => [dquote]
  | Break => [10%N]
  | Value v => v
  end.

Definition render (ps : list piece) : jsstring := flat_map piece_text ps.

End Template.

(** ** The portfolio filter *)

Module Portfolio.

Import Template.

(** An attribute read with [getAttribute]: [None] is the [null] of an
    element without it. *)
Abbreviation attribute := (option jsstring).

(** A [.portfolio-card] element: its [data-category], its class list and
    its [style.animation]. *)
Record Card : Type := mkCard {
  card_category : attribute;
  card_classes : list string;
  card_animation : jsstring
}.

(** A [.filter-btn] element. *)
Record FilterButton : Type := mkFilterButton {
  btn_filter : attribute;
  btn_classes : list string
}.

Record Grid : Type := mkGrid {
  currentFilter : attribute;
  portfolioItems : list Card;
  filterButtons : list FilterButton;
  console_lines : list jsstring
}.

(** How a template literal prints the category. *)
Definition printed (category : attribute) : jsstring :=
  match category with
  | Some s => s
  | None => lit "null"
  end.

Definition filter_item (category : attribute) (item : Card) : Card :=
  if bool_decide (category = Some (lit "all"))
     || bool_decide (card_category item = category)
  then mkCard (card_category item) (classList_remove "hidden" (card_classes item))
         (lit "fadeInUp 0.5s ease")
  else mkCard (card_category item) (classList_add "hidden" (card_classes item))
         (card_animation item).

Definition mark_button (category : attribute) (btn : FilterButton) : FilterButton :=
  if bool_decide (btn_filter btn = category)
  then mkFilterButton (btn_filter btn) (classList_add "active" (btn_classes btn))
  else mkFilterButton (btn_filter btn) (classList_remove "active" (btn_classes btn)).

Definition filterPortfolio (category : attribute) (g : Grid) : Grid :=
  mkGrid category
    (filter_item category <$> portfolioItems g)
    (mark_button category <$> filterButtons g)
    (console_lines g ++ [lit "[Security] Portfolio filtered by: " ++ printed category]).

(** The click listener that [initFilterButtons] attaches to the button at
    position [i]. *)
Definition click (i : nat) (g : Grid) : Grid :=
  match filterButtons g !! i with
  | Some button => filterPortfolio (btn_filter button) g
  | None => g
  end.

(** Which cards are hidden and which buttons are marked active. *)
Definition hidden_cards (g : Grid) : list bool :=
  (fun item => classList_contains "hidden" (card_classes item)) <$> portfolioItems g.

Definition active_buttons (g : Grid) : list bool :=
  (fun btn => classList_contains "active" (btn_classes btn)) <$> filterButtons g.

(** A project of [content.portfolio]; [tags] is an array. *)
Record Project : Type := mkProject {
  project_title : value;
  project_category : value;
  project_description : value;
  project_tags : list value
}.

Definition portfolio_tag (tag : value) : jsstring :=
  render
    [ Text "<span class="; Quote; Text "portfolio-tag"; Quote; Text ">";
      Value (escapeHtml tag); Text "</span>" ].

(** The [innerHTML] that [populatePortfolio] gives the column of a
    project. *)
Definition portfolio_card (project : Project) : jsstring :=
  render
    [ Break;
      Text "      <div class="; Quote; Text "portfolio-card animate-on-scroll"; Quote;
        Text " data-category="; Quote; Value (escapeHtml (project_category project));
        Quote; Text ">"; Break;
      Text "        <div class="; Quote; Text "portfolio-image"; Quote; Text ">"; Break;
      Text "          <i class="; Quote; Text "bi bi-image"; Quote; Text "></i>"; Break;
      Text "        </div>"; Break;
      Text "        <div class="; Quote; Text "portfolio-overlay"; Quote; Text ">"; Break;
      Text "          <h4 class="; Quote; Text "portfolio-title"; Quote; Text ">";
        Value (escapeHtml (project_title project)); Text "</h4>"; Break;
      Text "          <p class="; Quote; Text "portfolio-category"; Quote; Text ">";
        Value (escapeHtml (project_category project)); Text "</p>"; Break;
      Text "          <p class="; Quote; Text "portfolio-description"; Quote; Text ">";
        Value (escapeHtml (project_description project)); Text "</p>"; Break;
      Text "          <div class="; Quote; Text "portfolio-tags"; Quote; Text ">"; Break;
      Text "            "; Value (flat_map portfolio_tag (project_tags project)); Break;
      Text "          </div>"; Break;
      Text "        </div>"; Break;
      Text "      </div>"; Break;
      Text "    " ].

(** The markup characters of a text, in order. *)
Definition markup_of (html : jsstring) : jsstring :=
  filter (fun c => c ∈ markup_chars) html.

End Portfolio.

Import Portfolio.

(** ** The navigation menu of components.js *)

Module Navigation.

(** An entry of [siteContent.navigation]. *)
Record NavItem : Type := mkNavItem {
  item_name : value;
  item_href : value
}.

(** The [a] element made for an entry: its [href] attribute, its text,
    its class list and its [aria-current] attribute. *)
Record NavLink : Type := mkNavLink {
  a_href : jsstring;
  a_textContent : jsstring;
  a_classes : list string;
  a_aria_current : option jsstring
}.

(** [s.split(sep)] for a one-character separator. *)
Fixpoint split_on (sep : N) (s : jsstring) : list jsstring :=
  match s with
  | [] => [[]]
  | c :: s' =>
      if (c =? sep)%N then [] :: split_on sep s'
      else match split_on sep s' with
           | x :: rest => (c :: x) :: rest
           | [] => [[c]]
           end
  end.

(** [pathname.split('/').pop() || 'index.html'] *)
Definition currentPage (pathname : jsstring) : jsstring :=
  match last (split_on (chr "/") pathname) with
  | Some (c :: page) => c :: page
  | _ => lit "index.html"
  end.

(** [item.href === currentPage || (currentPage === '' && item.href === 'index.html')] *)
Definition is_current (page : jsstring) (item : NavItem) : bool :=
  match item_href item with
  | VString href =>
      bool_decide (href = page)
      || (bool_decide (page = []) && bool_decide (href = lit "index.html"))
  | _ => false
  end.

Definition nav_link (page : jsstring) (item : NavItem) : NavLink :=
  let a := mkNavLink (escapeHtml (item_href item)) (escapeHtml (item_name item))
             ["nav-link"] None in
  if is_current page item
  then mkNavLink (a_href a) (a_textContent a) (classList_add "active" (a_classes a))
         (Some (lit "page"))
  else a.

(** [populateNavigation] on the links of the menu: [navigation] is
    [None] without site content or without its [navigation], [navMenu]
    is [None] on a page without the menu.  The list items around the
    links and the console line are left out. *)
Definition populateNavigation (navigation : option (list NavItem)) (pathname : jsstring)
    (navMenu : option (list NavLink)) : option (list NavLink) :=
  match navigation, navMenu with
  | Some items, Some _ => Some (nav_link (currentPage pathname) <$> items)
  | _, _ => navMenu
  end.

(** A path ends in a directory where it is empty or ends in a slash. *)
Definition directory (dir : jsstring) : Prop :=
  dir = [] \/ exists d, dir = d ++ [chr "/"].

End Navigation.

Import Navigation.

(** * Properties *)

(** ** The matcher against the meaning of patterns *)

Section Matcher.

Lemma or_else_is_Some {R} (a b : option R) :
  is_Some (or_else a b) <-> is_Some a \/ is_Some b.
Proof.
  destruct a; simpl; split; eauto.
  - intros [[x Hx]|H]; [discriminate | exact H].
Qed.

Lemma length_app_lt (w post : jsstring) :
  (length post <? length (w ++ post))%nat = true <-> w <> [].
Proof.
  rewrite Nat.ltb_lt, length_app. destruct w; simpl; split; intros; try lia; congruence.
Qed.

Lemma star_loop_spec {R} (P : jsstring -> jsstring -> jsstring -> Prop)
    (step : jsstring -> jsstring -> (jsstring -> jsstring -> option R) -> option R)
    (k : jsstring -> jsstring -> option R) :
  (forall pre suf k', is_Some (step pre suf k') <->
     exists w post, suf = w ++ post /\ P pre w post /\ is_Some (k' (rev w ++ pre) post)) ->
  forall n pre suf, (length suf < n)%nat ->
    is_Some (star_loop step k n pre suf) <->
    exists w post, suf = w ++ post /\ iter P pre w post /\ is_Some (k (rev w ++ pre) post).
Proof.
  intros Hstep n. induction n as [|n IH]; intros pre suf Hlen; [lia|].
  simpl. rewrite or_else_is_Some, Hstep. split.
  - intros [(w1 & post1 & -> & Hw1 & Hk)|Hk].
    + destruct (length post1 <? length (w1 ++ post1))%nat eqn:Hlt;
        [|destruct Hk; discriminate].
      apply length_app_lt in Hlt.
      apply IH in Hk; [|rewrite length_app in Hlen; destruct w1; simpl in *; [congruence|lia]].
      destruct Hk as (w2 & post & -> & Hit & Hk).
      exists (w1 ++ w2), post. split; [by rewrite <- app_assoc|].
      split; [by apply iter_step|].
      by rewrite rev_app_distr, <- app_assoc.
    + exists [], suf. repeat split; [constructor | exact Hk].
  - intros (w & post & -> & Hit & Hk).
    destruct Hit as [pre post|pre w1 w2 post Hne Hw1 Hit]; [by right|].
    left. exists w1, (w2 ++ post). split; [by rewrite <- app_assoc|]. split; [done|].
    assert (Hlt : (length (w2 ++ post) <? length (w1 ++ w2 ++ post))%nat = true)
      by by apply length_app_lt.
    rewrite <- app_assoc in Hlen |- *. rewrite Hlt. apply IH.
    + apply Nat.ltb_lt in Hlt. lia.
    + exists w2, post. repeat split; [done|].
      by rewrite rev_app_distr, <- app_assoc in Hk.
Qed.

Lemma rmatch_spec (r : regex) :
  forall R pre suf (k : jsstring -> jsstring -> option R),
    is_Some (rmatch r pre suf k) <->
    exists w post, suf = w ++ post /\ lang r pre w post /\ is_Some (k (rev w ++ pre) post).
Proof.
  induction r as [|p|r1 IH1 r2 IH2|r1 IH1 r2 IH2|r1 IH1| | | |r1 IH1];
    intros R pre suf k; cbn [rmatch lang].
  - split; [intros Hk; by exists [], suf|].
    by intros (w & post & -> & -> & Hk).
  - destruct suf as [|c suf].
    + split; [intros []; discriminate|].
      intros (w & post & Heq & (c & -> & _) & _). discriminate.
    + destruct (p c) eqn:Hp.
      * split; [intros Hk; exists [c], suf; eauto 6|].
        intros (w & post & Heq & (c' & -> & _) & Hk). by inversion Heq; subst.
      * split; [intros []; discriminate|].
        intros (w & post & Heq & (c' & -> & Hp') & _). inversion Heq; subst. congruence.
  - rewrite IH1. split.
    + intros (w1 & post1 & -> & Hw1 & Hk). apply IH2 in Hk.
      destruct Hk as (w2 & post & -> & Hw2 & Hk).
      exists (w1 ++ w2), post. split; [by rewrite <- app_assoc|].
      split; [by exists w1, w2|]. by rewrite rev_app_distr, <- app_assoc.
    + intros (w & post & -> & (w1 & w2 & -> & Hw1 & Hw2) & Hk).
      exists w1, (w2 ++ post). split; [by rewrite <- app_assoc|]. split; [done|].
      apply IH2. exists w2, post. repeat split; [done|].
      by rewrite rev_app_distr, <- app_assoc in Hk.
  - rewrite or_else_is_Some, IH1, IH2. split.
    + intros [(w & post & ? & ? & ?)|(w & post & ? & ? & ?)]; exists w, post; eauto.
    + intros (w & post & ? & [?|?] & ?); [left|right]; exists w, post; eauto.
  - apply (star_loop_spec (lang r1)); [|lia].
    intros pre' suf' k'. apply IH1.
  - destruct pre as [|c pre].
    + split; [intros Hk; by exists [], suf|].
      by intros (w & post & -> & (-> & _) & Hk).
    + split; [intros []; discriminate|].
      intros (w & post & _ & (_ & ?) & _). discriminate.
  - destruct suf as [|c suf].
    + split; [intros Hk; by exists [], []|].
      intros (w & post & Heq & (-> & ->) & Hk). done.
    + split; [intros []; discriminate|].
      intros (w & post & Heq & (-> & ->) & _). discriminate.
  - destruct (xorb _ _) eqn:Hx.
    + split; [intros Hk; by exists [], suf|].
      by intros (w & post & -> & (-> & _) & Hk).
    + split; [intros []; discriminate|].
      intros (w & post & -> & (-> & Hx') & _). simpl in Hx. congruence.
  - specialize (IH1 unit pre suf (fun _ _ => Some tt)).
    destruct (rmatch r1 pre suf _) as [[]|] eqn:Hm.
    + split; [intros []; discriminate|].
      intros (w & post & -> & (-> & Hno) & _). exfalso. apply Hno.
      destruct IH1 as [IH1 _]. destruct IH1 as (w1 & post1 & ? & ? & _); eauto.
    + split.
      * intros Hk. exists [], suf. repeat split; [|done].
        intros (w1 & post1 & -> & Hw1). destruct IH1 as [_ IH1].
        destruct IH1 as [? ?]; [|discriminate]. exists w1, post1; eauto.
      * by intros (w & post & -> & (-> & _) & Hk).
Qed.

Lemma match_at_spec (r : regex) (pre suf : jsstring) :
  is_Some (match_at r pre suf) <->
  exists w post, suf = w ++ post /\ lang r pre w post.
Proof.
  unfold match_at. rewrite rmatch_spec. split.
  - intros (w & post & ? & ? & _). eauto.
  - intros (w & post & ? & ?). exists w, post. eauto.
Qed.

Lemma search_spec (r : regex) (suf : jsstring) :
  forall pre,
    is_Some (search r pre suf) <->
    exists u w post, suf = u ++ w ++ post /\ lang r (rev u ++ pre) w post.
Proof.
  induction suf as [|c suf IH]; intros pre; simpl.
  - pose proof (match_at_spec r pre []) as Hm.
    destruct (match_at r pre []) as [e|].
    + split; [intros _|eauto].
      destruct Hm as [Hm _]. destruct Hm as (w & post & Heq & Hw); [eauto|].
      by exists [], w, post.
    + split; [intros []; discriminate|].
      intros (u & w & post & Heq & Hw).
      symmetry in Heq. apply app_eq_nil in Heq as [-> Heq].
      exfalso. destruct Hm as [_ Hm].
      destruct Hm as [? ?]; [|discriminate]. exists w, post. eauto.
  - pose proof (match_at_spec r pre (c :: suf)) as Hm.
    destruct (match_at r pre (c :: suf)) as [e|].
    + split; [intros _|eauto].
      destruct Hm as [Hm _]. destruct Hm as (w & post & Heq & Hw); [eauto|].
      by exists [], w, post.
    + rewrite IH. split.
      * intros (u & w & post & -> & Hw). exists (c :: u), w, post.
        split; [done|]. simpl. by rewrite <- app_assoc.
      * intros (u & w & post & Heq & Hw). destruct u as [|c' u].
        -- exfalso. destruct Hm as [_ Hm].
           destruct Hm as [? ?]; [|discriminate]. exists w, post. eauto.
        -- simpl in Heq. inversion Heq; subst. exists u, w, post.
           split; [done|]. simpl in Hw. by rewrite <- app_assoc in Hw.
Qed.

Lemma test_spec (r : regex) (s : jsstring) :
  test r s = true <->
  exists u w post, s = u ++ w ++ post /\ lang r (rev u) w post.
Proof.
  unfold test. pose proof (search_spec r s []) as Hs.
  setoid_rewrite app_nil_r in Hs. rewrite <- Hs.
  destruct (search r [] s); split; intros H; try done; eauto.
Qed.

(** A pattern between [^] and [$] has to match the whole text. *)
Lemma test_anchored (r : regex) (s : jsstring) :
  test (Bol +++ r +++ Eol) s = true <-> lang r [] s [].
Proof.
  rewrite test_spec. cbn [lang]. split.
  - intros (u & w & post & -> & w1 & w2 & -> & (-> & Hu) & w3 & w4 & -> & Hr & -> & ->).
    assert (u = []) as ->.
    { rewrite <- (rev_involutive u), Hu. done. }
    simpl in *. by rewrite !app_nil_r in *.
  - intros Hr. exists [], s, []. split; [by rewrite app_nil_r|].
    exists [], s. repeat split. exists s, []. rewrite !app_nil_r. by repeat split.
Qed.

Lemma iter_class (p : N -> bool) (pre w post : jsstring) :
  iter (lang (Class p)) pre w post <-> Forall (fun c => p c = true) w.
Proof.
  split.
  - induction 1 as [|pre' w1 w2 post' _ (c & -> & Hc) _ IH]; constructor; auto.
  - intros Hall. revert pre. induction Hall as [|c w Hc _ IH]; intros pre; [constructor|].
    change (c :: w) with ([c] ++ w). apply iter_step; [done| |apply IH].
    by exists c.
Qed.

Lemma lang_plus_class (p : N -> bool) (pre w post : jsstring) :
  lang (Plus (Class p)) pre w post <-> w <> [] /\ Forall (fun c => p c = true) w.
Proof.
  unfold Plus. cbn [lang]. split.
  - intros (w1 & w2 & -> & (c & -> & Hc) & Hit). apply iter_class in Hit.
    split; [done|]. by constructor.
  - intros [Hne Hall]. destruct Hall as [|c w Hc Hall]; [done|].
    exists [c], w. repeat split; [by exists c|]. by apply iter_class.
Qed.

Lemma lang_char (a : string) (pre w post : jsstring) :
  lang (char a) pre w post <-> w = [chr a].
Proof.
  unfold char. cbn [lang]. split.
  - intros (c & -> & Hc). apply N.eqb_eq in Hc. by subst.
  - intros ->. exists (chr a). split; [done|]. apply N.eqb_refl.
Qed.

End Matcher.

(** ** Running the computations *)

Section Run.

Lemma bind_run {A B} (m : M A) (f : A -> M B) (s : State) :
  (m ≫= f) s =
  match m s with
  | (Normal a, s') => f a s'
  | (Throw e, s') => (Throw e, s')
  end.
Proof. reflexivity. Qed.

Lemma ret_run {A} (a : A) (s : State) : (mret a : M A) s = (Normal a, s).
Proof. reflexivity. Qed.

Lemma gets_run {A} (f : State -> A) (s : State) : gets f s = (Normal (f s), s).
Proof. reflexivity. Qed.

Lemma modify_run (f : State -> State) (s : State) : modify f s = (Normal tt, f s).
Proof. reflexivity. Qed.

Lemma throw_run {A} (e : string) (s : State) : (throw e : M A) s = (Throw e, s).
Proof. reflexivity. Qed.

Lemma log_run (e : Event) (s : State) :
  log e s = (Normal tt, with_trace (trace s ++ [e]) s).
Proof. reflexivity. Qed.

Lemma console_run (level msg : string) (args : list jsstring) (s : State) :
  console level msg args s =
  (Normal tt, with_trace (trace s ++ [Console level msg args]) s).
Proof. reflexivity. Qed.

Lemma Date_now_run (s : State) : Date_now s = (Normal (clock s), s).
Proof. reflexivity. Qed.

Lemma elapse_run (ms : Z) (s : State) :
  elapse ms s = (Normal tt, with_clock (clock s + ms)%Z s).
Proof. reflexivity. Qed.

Lemma control_run (name : string) (s : State) :
  control name s =
  match controls s !! name with
  | Some c => (Normal c, s)
  | None => (Throw "TypeError", s)
  end.
Proof.
  unfold control. rewrite bind_run, gets_run.
  by destruct (controls s !! name).
Qed.

Lemma read_value_run (name : string) (s : State) :
  read_value name s =
  match controls s !! name with
  | Some c => (Normal (c_value c), with_trace (trace s ++ [ReadValue name]) s)
  | None => (Throw "TypeError", s)
  end.
Proof.
  unfold read_value. rewrite bind_run, control_run.
  by destruct (controls s !! name).
Qed.

Lemma read_checked_run (name : string) (s : State) :
  read_checked name s =
  match controls s !! name with
  | Some c => (Normal (c_checked c), with_trace (trace s ++ [ReadChecked name]) s)
  | None => (Throw "TypeError", s)
  end.
Proof.
  unfold read_checked. rewrite bind_run, control_run.
  by destruct (controls s !! name).
Qed.

Lemma update_control_run (name : string) (f : Control -> Control) (s : State) :
  update_control name f s =
  match controls s !! name with
  | Some c => (Normal tt, with_controls (<[name := f c]> (controls s)) s)
  | None => (Throw "TypeError", s)
  end.
Proof.
  unfold update_control. rewrite bind_run, control_run.
  by destruct (controls s !! name).
Qed.

Lemma button_run (s : State) :
  button s =
  match submitButton s with
  | Some b => (Normal b, s)
  | None => (Throw "TypeError", s)
  end.
Proof.
  unfold button. rewrite bind_run, gets_run.
  by destruct (submitButton s).
Qed.

Lemma update_button_run (f : Button -> Button) (s : State) :
  update_button f s =
  match submitButton s with
  | Some b => (Normal tt, with_submitButton (Some (f b)) s)
  | None => (Throw "TypeError", s)
  end.
Proof.
  unfold update_button. rewrite bind_run, button_run.
  by destruct (submitButton s).
Qed.

Lemma localStorage_getItem_run (key : string) (s : State) :
  localStorage_getItem key s =
  (Normal (localStorage s !! key), with_trace (trace s ++ [LocalGet key]) s).
Proof. reflexivity. Qed.

Lemma localStorage_setItem_run (key : string) (v : list Z) (s : State) :
  localStorage_setItem key v s =
  (Normal tt,
   with_localStorage (<[key := v]> (localStorage s))
     (with_trace (trace s ++ [LocalSet key v]) s)).
Proof. reflexivity. Qed.

Lemma sessionStorage_getItem_run (key : string) (s : State) :
  sessionStorage_getItem key s =
  (Normal (sessionStorage s !! key), with_trace (trace s ++ [SessionGet key]) s).
Proof. reflexivity. Qed.

Lemma sessionStorage_setItem_run (key : string) (v : jsstring) (s : State) :
  sessionStorage_setItem key v s =
  (Normal tt,
   with_sessionStorage (<[key := v]> (sessionStorage s))
     (with_trace (trace s ++ [SessionSet key v]) s)).
Proof. reflexivity. Qed.

End Run.

(** Bring the states a run has built to the form of a record of fields
    of the initial state. *)
Ltac fields :=
  unfold with_localStorage, with_sessionStorage, with_controls, with_formMessage,
    with_submitButton, with_clock, with_entropyUsed, with_timers, with_trace, drawn;
  cbn [fst snd
       localStorage sessionStorage controls formMessage submitButton clock
       entropy entropyUsed timers trace].

(** One step of a run; the state is brought to its record form after each
    step, which keeps it small. *)
Ltac run_step :=
  first
    [ rewrite bind_run | rewrite ret_run | rewrite gets_run | rewrite modify_run
    | rewrite throw_run | rewrite log_run | rewrite console_run
    | rewrite Date_now_run | rewrite elapse_run
    | rewrite read_value_run | rewrite read_checked_run
    | rewrite update_control_run | rewrite button_run | rewrite update_button_run
    | rewrite localStorage_getItem_run | rewrite localStorage_setItem_run
    | rewrite sessionStorage_getItem_run | rewrite sessionStorage_setItem_run ].

Ltac run := fields; repeat (run_step; fields).

(** Two states built by a run are equal when their fields are. *)
Ltac same_state := fields; rewrite <- ?app_assoc; reflexivity.

(** ** Field rules *)

Section Validate.

Lemma name_class_spec (c : N) : name_class c = true <-> name_char c.
Proof.
  unfold name_class, name_char, ascii_letter, whitespace.
  rewrite !orb_true_iff, !N.eqb_eq. tauto.
Qed.

Lemma email_class_spec (c : N) : email_class c = true <-> plain c.
Proof.
  unfold email_class, plain.
  rewrite negb_true_iff, orb_false_iff, N.eqb_neq. tauto.
Qed.

Lemma Forall_name_class (v : jsstring) :
  Forall (fun c => name_class c = true) v <-> Forall name_char v.
Proof. apply Forall_iff. intros c. apply name_class_spec. Qed.

Lemma Forall_email_class (v : jsstring) :
  Forall (fun c => email_class c = true) v <-> Forall plain v.
Proof. apply Forall_iff. intros c. apply email_class_spec. Qed.

Lemma name_pattern_spec (v : jsstring) :
  test name_pattern v = true <-> v <> [] /\ Forall name_char v.
Proof.
  unfold name_pattern. by rewrite test_anchored, lang_plus_class, Forall_name_class.
Qed.

Lemma emailRegex_spec (v : jsstring) :
  test emailRegex v = true <-> email_shape v.
Proof.
  rewrite test_spec. unfold emailRegex, email_shape. cbn [lang]. split.
  - intros (u & w & post & -> & w0 & w1 & -> & (-> & Hu)
            & l & w2 & -> & Hl & a & w3 & -> & Ha & d & w4 & -> & Hd
            & dot & w5 & -> & Hdot & t & w6 & -> & Ht & -> & ->).
    assert (u = []) as -> by (rewrite <- (rev_involutive u), Hu; done).
    apply lang_plus_class in Hl as [Hl1 Hl2].
    apply lang_plus_class in Hd as [Hd1 Hd2].
    apply lang_plus_class in Ht as [Ht1 Ht2].
    apply lang_char in Ha as ->. apply lang_char in Hdot as ->.
    exists l, d, t. rewrite !app_nil_r. simpl.
    repeat split; try done; by apply Forall_email_class.
  - intros (l & d & t & -> & Hl & Hd & Ht & Hl' & Hd' & Ht').
    exists [], (l ++ [chr "@"] ++ d ++ [chr "."] ++ t), [].
    split; [by rewrite app_nil_r|].
    exists [], (l ++ [chr "@"] ++ d ++ [chr "."] ++ t). repeat split.
    exists l, ([chr "@"] ++ d ++ [chr "."] ++ t). split; [done|].
    split; [apply lang_plus_class; split; [done|by apply Forall_email_class]|].
    exists [chr "@"], (d ++ [chr "."] ++ t). split; [done|].
    split; [by apply lang_char|].
    exists d, ([chr "."] ++ t). split; [done|].
    split; [apply lang_plus_class; split; [done|by apply Forall_email_class]|].
    exists [chr "."], t. split; [done|].
    split; [by apply lang_char|].
    exists t, []. split; [by rewrite app_nil_r|].
    split; [apply lang_plus_class; split; [done|by apply Forall_email_class]|].
    done.
Qed.

Lemma name_rule (v : jsstring) :
  (validation_rule "name" v).1 = true <->
  (2 <= length v <= 100)%nat /\ Forall name_char v.
Proof.
  unfold validation_rule. cbn [String.eqb Ascii.eqb Bool.eqb].
  destruct (length v <? 2)%nat eqn:H2; cbn [orb].
  { apply Nat.ltb_lt in H2. cbn. split; [done|lia]. }
  apply Nat.ltb_ge in H2.
  destruct (100 <? length v)%nat eqn:H100.
  { apply Nat.ltb_lt in H100. cbn. split; [done|lia]. }
  apply Nat.ltb_ge in H100.
  pose proof (name_pattern_spec v) as Hp.
  destruct (test name_pattern v); cbn [negb fst].
  - split; [intros _|done]. split; [lia|]. by apply Hp.
  - split; [done|]. intros [_ Hall]. apply Hp. split; [|done].
    intros ->. simpl in H2. lia.
Qed.

Lemma email_rule (v : jsstring) :
  (validation_rule "email" v).1 = true <-> email_shape v.
Proof.
  unfold validation_rule. cbn [String.eqb Ascii.eqb Bool.eqb].
  rewrite <- emailRegex_spec. by destruct (test emailRegex v).
Qed.

Lemma message_rule (v : jsstring) :
  (validation_rule "message" v).1 = true <-> (10 <= length v <= 2000)%nat.
Proof.
  unfold validation_rule. cbn [String.eqb Ascii.eqb Bool.eqb].
  destruct (length v <? 10)%nat eqn:H10; cbn [orb].
  { apply Nat.ltb_lt in H10. cbn. split; [done|lia]. }
  apply Nat.ltb_ge in H10.
  destruct (2000 <? length v)%nat eqn:H2000; cbn [fst].
  - apply Nat.ltb_lt in H2000. split; [done|lia].
  - apply Nat.ltb_ge in H2000. split; [lia|done].
Qed.

Lemma validateField_run (field : string) (s : State) :
  validateField field s =
  match controls s !! field with
  | Some c =>
      let v := validation_rule field (trim (c_value c)) in
      (Normal v.1,
       with_controls (<[field := mark_field v.1 v.2 c]> (controls s))
         (with_trace (trace s ++ [Call "validateField" field; ReadValue field]) s))
  | None => (Throw "TypeError",
             with_trace (trace s ++ [Call "validateField" field]) s)
  end.
Proof.
  unfold validateField. run.
  destruct (controls s !! field) as [c|] eqn:Hc; [|done].
  destruct (validation_rule field (trim (c_value c))) as [ok msg] eqn:Hv.
  run. rewrite Hc. same_state.
Qed.

End Validate.

(** C8, as the code has it. [validateField] succeeds on the name field
    exactly when the trimmed value has between 2 and 100 characters, all
    of them ASCII letters, characters of the class [\s], hyphens or
    apostrophes; on the email field exactly when the trimmed value has
    the shape local@domain.tld, each part non-empty and free of
    whitespace and of [@]; on the message field exactly when the trimmed
    value has between 10 and 2000 characters. *)
Theorem validateField_rules (s : State) (field : string) (c : Control) :
  controls s !! field = Some c ->
  exists ok,
    outcome (validateField field) s = Normal ok /\
    let v := trim (c_value c) in
    (field = "name" ->
       (ok = true <-> (2 <= length v <= 100)%nat /\ Forall name_char v)) /\
    (field = "email" -> (ok = true <-> email_shape v)) /\
    (field = "message" -> (ok = true <-> (10 <= length v <= 2000)%nat)).
Proof.
  intros Hc. exists (validation_rule field (trim (c_value c))).1.
  split; [unfold outcome; by rewrite validateField_run, Hc|].
  intros v. subst v. split; [|split]; intros ->;
    first [apply name_rule | apply email_rule | apply message_rule].
Qed.

Lemma validateField_rules_witness :
  exists ok,
    outcome (validateField "name")
      (page "John Doe" "john@example.com" "Hello, this is a test message." "" true
         [] ∅ 1700000000000) = Normal ok /\
    let v := trim (lit "John Doe") in
    ("name" = "name" ->
       (ok = true <-> (2 <= length v <= 100)%nat /\ Forall name_char v)) /\
    ("name" = "email" -> (ok = true <-> email_shape v)) /\
    ("name" = "message" -> (ok = true <-> (10 <= length v <= 2000)%nat)).
Proof.
  apply (validateField_rules
           (page "John Doe" "john@example.com" "Hello, this is a test message." "" true
              [] ∅ 1700000000000) "name" (text_control "John Doe")).
  reflexivity.
Defined.

(** C8, as stated, fails in both directions on names of everyday use.
    The four letters of José are letters, and the name is rejected: the
    pattern has the letters of ASCII only.  John and Doe with a tab
    between them are accepted, and a tab is neither a letter nor a space,
    a hyphen or an apostrophe: the pattern has all of the class [\s]. *)
Lemma validateField_name_as_worded :
  let jose := [74; 111; 115; 233]%N in
  let tabbed := lit "John" ++ [9%N] ++ lit "Doe" in
  let s := fresh_page 1700000000000 in
  ((2 <= length (trim jose) <= 100)%nat /\ Forall worded_name_char (trim jose)
   /\ outcome (validateField "name") (typed "name" jose s) = Normal false)
  /\ (outcome (validateField "name") (typed "name" tabbed s) = Normal true
      /\ ~ ((2 <= length (trim tabbed) <= 100)%nat
             /\ Forall worded_name_char (trim tabbed))).
Proof.
  cbn zeta. split; [split; [|split]|split].
  - vm_compute. lia.
  - eapply bool_decide_unpack. vm_compute. exact I.
  - vm_compute. reflexivity.
  - vm_compute. reflexivity.
  - eapply bool_decide_unpack. vm_compute. exact I.
Qed.

(** ** The sanitizers *)

Section Sanitizers.

Lemma match_at_class (p : N -> bool) (pre suf : jsstring) :
  match_at (Class p) pre suf =
  match suf with
  | c :: suf' => if p c then Some (c :: pre, suf') else None
  | [] => None
  end.
Proof. reflexivity. Qed.

(** The steps allotted to a replacement are enough: above the length of
    the text left, their number does not change the result. *)
Lemma replace_loop_fuel (r : regex) (f : jsstring -> jsstring) :
  forall n m pre s, (length s < n)%nat -> (length s < m)%nat ->
    replace_loop n r f pre s = replace_loop m r f pre s.
Proof.
  induction n as [|n IH]; intros m pre s Hn Hm; [lia|].
  destruct m as [|m]; [lia|]. cbn [replace_loop].
  assert (Hskip :
    match s with
    | c :: s' => c :: replace_loop n r f (c :: pre) s'
    | [] => []
    end =
    match s with
    | c :: s' => c :: replace_loop m r f (c :: pre) s'
    | [] => []
    end).
  { destruct s as [|c s']; [done|]. cbn [length] in Hn, Hm. f_equal. apply IH; lia. }
  destruct (match_at r pre s) as [[pre' s']|]; [|exact Hskip].
  destruct (length s' <? length s)%nat eqn:Hlt.
  - apply Nat.ltb_lt in Hlt. f_equal. apply IH; lia.
  - by rewrite Hskip.
Qed.

(** Replacing the matches of a one-character class goes character by
    character. *)
Lemma replace_loop_class (p : N -> bool) (f : jsstring -> jsstring) :
  forall n pre s, (length s < n)%nat ->
    replace_loop n (Class p) f pre s =
    flat_map (fun c => if p c then f [c] else [c]) s.
Proof.
  induction n as [|n IH]; intros pre s Hn; [lia|].
  cbn [replace_loop]. rewrite match_at_class.
  destruct s as [|c s]; [done|]. cbn [length] in Hn. cbn [flat_map].
  destruct (p c).
  - replace (length (c :: s) - length s)%nat with 1%nat by (cbn [length]; lia).
    assert ((length s <? length (c :: s))%nat = true) as ->
      by (apply Nat.ltb_lt; cbn [length]; lia).
    cbn [take]. rewrite take_0. f_equal. apply IH. lia.
  - cbn [app]. f_equal. apply IH. lia.
Qed.

Lemma escape_class_other (c : N) :
  c <> chr "&" -> c <> chr "<" -> c <> chr ">" -> c <> dquote ->
  c <> chr "'" -> c <> chr "/" -> escape_class c = false.
Proof.
  intros H1 H2 H3 H4 H5 H6.
  unfold escape_class, one_of. apply orb_false_iff. split.
  - apply bool_decide_eq_false. cbn [lit]. rewrite !elem_of_cons, elem_of_nil.
    intros [?|[?|[?|[?|[?|[]]]]]]; contradiction.
  - by apply N.eqb_neq.
Qed.

Ltac entity_case c :=
  unfold entity;
  destruct (N.eqb_spec c (chr "&")) as [->|?];
  [|destruct (N.eqb_spec c (chr "<")) as [->|?];
    [|destruct (N.eqb_spec c (chr ">")) as [->|?];
      [|destruct (N.eqb_spec c dquote) as [->|?];
        [|destruct (N.eqb_spec c (chr "'")) as [->|?];
          [|destruct (N.eqb_spec c (chr "/")) as [->|?]]]]]].

Lemma escape_step (c : N) :
  (if escape_class c then escape_replacer [c] else [c]) = entity c.
Proof.
  entity_case c; try by vm_compute.
  by rewrite escape_class_other.
Qed.

Lemma escapeHtml_string (s : jsstring) :
  escapeHtml (VString s) = flat_map entity s.
Proof.
  unfold escapeHtml, replace_all. rewrite replace_loop_class by lia.
  induction s as [|c s IH]; [done|]. cbn [flat_map]. by rewrite escape_step, IH.
Qed.

Lemma entity_cases (c : N) :
  (entity c ∈ entities /\ escape_class c = true)
  \/ (entity c = [c] /\ escape_class c = false).
Proof.
  entity_case c;
    try (left; split; [unfold entities; rewrite !elem_of_cons; tauto|by vm_compute]).
  right. split; [done|]. by apply escape_class_other.
Qed.

(** An entity is an ampersand followed by text that has neither an
    ampersand nor a character of the class. *)
Lemma entities_shape (e : jsstring) :
  e ∈ entities ->
  exists t, e = chr "&" :: t /\ Forall (fun x => escape_class x = false) t.
Proof.
  unfold entities. rewrite !elem_of_cons, elem_of_nil.
  intros [->|[->|[->|[->|[->|[->|[]]]]]]]; eexists; (split; [reflexivity|]);
    repeat constructor.
Qed.

Lemma escape_class_markup (c : N) :
  escape_class c = false -> (c ∉ markup_chars) /\ c <> chr "&".
Proof.
  intros Hc. split.
  - unfold markup_chars. rewrite !elem_of_cons, elem_of_nil.
    intros [->|[->|[->|[->|[->|[]]]]]]; by vm_compute in Hc.
  - intros ->. by vm_compute in Hc.
Qed.

Lemma entity_no_markup (c : N) : Forall (fun x => x ∉ markup_chars) (entity c).
Proof.
  destruct (entity_cases c) as [[He _]|[-> Hc]].
  - apply entities_shape in He as (t & -> & Ht). constructor.
    + unfold markup_chars. rewrite !elem_of_cons, elem_of_nil.
      intros [?|[?|[?|[?|[?|[]]]]]]; discriminate.
    + eapply Forall_impl; [exact Ht|]. intros x Hx. by apply escape_class_markup.
  - constructor; [|constructor]. by apply escape_class_markup.
Qed.

(** An element that does not occur in [t] lies, in [t ++ out], in [out]. *)
Lemma split_after_prefix {A} (a : A) (t : list A) :
  a ∉ t ->
  forall pre post out,
    pre ++ a :: post = t ++ out ->
    exists pre', pre = t ++ pre' /\ out = pre' ++ a :: post.
Proof.
  induction t as [|x t IH]; intros Hnot pre post out Heq.
  - exists pre. done.
  - apply not_elem_of_cons in Hnot as [Hne Hnot].
    destruct pre as [|y pre]; simpl in Heq.
    + inversion Heq; subst. done.
    + inversion Heq; subst.
      destruct (IH Hnot pre post out) as (pre' & -> & ->); [done|].
      by exists pre'.
Qed.

Lemma escaped_ampersands (s : jsstring) :
  ampersands_open_entities (flat_map entity s).
Proof.
  induction s as [|c s IH]; intros pre post Heq; cbn [flat_map] in Heq.
  - by destruct pre.
  - destruct (entity_cases c) as [[He _]|[Hc Hcls]].
    + destruct (entities_shape _ He) as (t & Ht & Hfree).
      destruct pre as [|y pre].
      * exists (entity c), (flat_map entity s). split; [done|]. by rewrite Heq.
      * rewrite Ht in Heq. simpl in Heq. inversion Heq as [[Hy Heq']].
        destruct (split_after_prefix (chr "&") t) with (pre := pre) (post := post)
          (out := flat_map entity s) as (pre' & -> & Hout); [|done|].
        { intros Hin. rewrite Forall_forall in Hfree. apply Hfree in Hin.
          by vm_compute in Hin. }
        by apply (IH pre' post).
    + rewrite Hc in Heq. destruct pre as [|y pre]; simpl in Heq.
      * inversion Heq; subst. by vm_compute in Hcls.
      * inversion Heq; subst. by apply (IH pre post).
Qed.

(** The model on a fragment with an inline handler, a script block and a
    script URL. *)
Example sanitizeHtml_sample :
  sanitizeHtml
    (VString (lit "<p onclick='x()'>a</p><SCRIPT>alert(1)</script ><a href='javascript:go()'>b</a>"))
  = lit "<p>a</p><a href='blocked:go()'>b</a>".
Proof. by vm_compute. Qed.

Example escapeHtml_sample :
  escapeHtml (VString (lit "<a href='x'>T&C</a>"))
  = lit "&lt;a href=&#039;x&#039;&gt;T&amp;C&lt;&#x2F;a&gt;".
Proof. by vm_compute. Qed.

End Sanitizers.

(** C6. For a string, [escapeHtml] maps each of the six characters to its
    entity and leaves the other characters alone; its result has none of
    the characters [<], [>], the two quotes and [/], and its only
    ampersands are those that open an entity. For anything that is not a
    string the result is the empty string. *)
Theorem escapeHtml_no_raw_characters (text : value) :
  match text with
  | VString s =>
      escapeHtml text = flat_map entity s
      /\ Forall (fun c => c ∉ markup_chars) (escapeHtml text)
      /\ ampersands_open_entities (escapeHtml text)
  | _ => escapeHtml text = []
  end.
Proof.
  destruct text as [| | | |s|]; try reflexivity.
  rewrite escapeHtml_string. split; [done|]. split.
  - induction s as [|c s IH]; [constructor|].
    cbn [flat_map]. apply Forall_app. split; [apply entity_no_markup|exact IH].
  - apply escaped_ampersands.
Qed.

(** C10. [sanitizeHtml] returns the empty string for every input that is
    not a string. *)
Theorem sanitizeHtml_non_string (html : value) :
  typeof html <> "string" -> sanitizeHtml html = [].
Proof. destruct html; intros H; try reflexivity. by destruct H. Qed.

Lemma sanitizeHtml_non_string_witness :
  sanitizeHtml (VNumber 42) = [] /\ sanitizeHtml VNull = [] /\ sanitizeHtml VUndefined = [].
Proof.
  split; [|split]; apply sanitizeHtml_non_string; vm_compute; discriminate.
Defined.

(** ** The rate limiter *)

Section RateLimiter.

Lemma checkRateLimit_run (s : State) :
  checkRateLimit s =
  (Normal (rate_limit (parse_submissions (localStorage s !! "form_submissions")) (clock s)),
   with_trace (trace s ++ [Call "checkRateLimit" ""; LocalGet "form_submissions"]) s).
Proof. unfold checkRateLimit. run. same_state. Qed.

Lemma recordSubmission_run (s : State) :
  recordSubmission s =
  let stored :=
    push_keep_last (parse_submissions (localStorage s !! "form_submissions")) (clock s) in
  (Normal tt,
   with_localStorage (<["form_submissions" := stored]> (localStorage s))
     (with_trace
        (trace s ++ [Call "recordSubmission" ""; LocalGet "form_submissions";
                     LocalSet "form_submissions" stored;
                     Console "log" "[Security] Form submission recorded" []]) s)).
Proof. unfold recordSubmission. run. cbn zeta. same_state. Qed.

Lemma Math_min_spec (l : list Z) :
  l <> [] -> Math_min l ∈ l /\ Forall (fun t => (Math_min l <= t)%Z) l.
Proof.
  destruct l as [|x l]; [done|]. intros _. unfold Math_min.
  assert (Hfold : forall (l : list Z) (x : Z),
             (foldl Z.min x l = x \/ foldl Z.min x l ∈ l)
             /\ (foldl Z.min x l <= x)%Z
             /\ Forall (fun t => (foldl Z.min x l <= t)%Z) l).
  { clear. induction l as [|y l IH]; intros x; cbn [foldl].
    - split; [by left|]. split; [lia|constructor].
    - destruct (IH (Z.min x y)) as (Hin & Hle & Hall). split; [|split].
      + destruct Hin as [Hin|Hin]; [|right; by apply list_elem_of_further].
        rewrite Hin. destruct (Z.min_spec x y) as [[_ ->]|[_ ->]];
          [by left|right; apply list_elem_of_here].
      + lia.
      + constructor; [lia|done]. }
  destruct (Hfold l x) as (Hin & Hle & Hall). split.
  - destruct Hin as [->|Hin]; [apply list_elem_of_here|by apply list_elem_of_further].
  - by constructor.
Qed.

Lemma Math_ceil_div_spec (a b : Z) :
  (0 < b)%Z ->
  (b * (Math_ceil_div a b - 1) < a <= b * Math_ceil_div a b)%Z.
Proof.
  intros Hb. unfold Math_ceil_div.
  pose proof (Z.div_mod (- a) b) as Hdm.
  pose proof (Z.mod_pos_bound (- a) b Hb) as Hmod. nia.
Qed.

Lemma filter_in_window (now : Z) (l : list Z) :
  Forall (fun t => (t <= now)%Z) l ->
  filter (fun t => (now - t < oneHour)%Z) l = filter (in_window now) l.
Proof.
  induction 1 as [|t l Ht _ IH]; [done|].
  rewrite !filter_cons, IH. unfold in_window, oneHour.
  repeat case_decide; try done; lia.
Qed.

(** Three submissions 1, 2 and 3 seconds ago: the fourth attempt is
    denied, and the wait of 3,597,000 ms is shown as 60 minutes. *)
Example checkRateLimit_three_recent :
  outcome checkRateLimit
    (scenario "John Doe" "Hello, this is a test message." ""
       [1699999997000; 1699999998000; 1699999999000]%Z 1700000000000)
  = Normal (mkRateLimit false
              (Some (lit "Rate limit exceeded. Please try again in 60 minute(s)."))).
Proof. by vm_compute. Qed.

End RateLimiter.

(** C4, as the code has it. [checkRateLimit] allows exactly when fewer
    than 3 stored entries [t] have [now - t < 3,600,000]; an entry later
    than [now] passes that test too, and for a store with no such entry
    these are the entries of the trailing window of 3,600,000 ms that
    ends at [now]. When it denies, the wait is computed from the earliest
    of those entries as entry + 3,600,000 - now, which is positive, and
    the message shows it rounded up to whole minutes. *)
Theorem checkRateLimit_admission (s : State) :
  let stored := parse_submissions (localStorage s !! "form_submissions") in
  let now := clock s in
  let recent := filter (fun t => (now - t < 3600000)%Z) stored in
  exists r,
    outcome checkRateLimit s = Normal r
    /\ (allowed r = true <-> (length recent < 3)%nat)
    /\ (Forall (fun t => (t <= now)%Z) stored -> recent = filter (in_window now) stored)
    /\ (allowed r = false ->
        exists oldest minutes,
          oldest ∈ recent /\ Forall (fun t => (oldest <= t)%Z) recent
          /\ (0 < oldest + 3600000 - now)%Z
          /\ (60000 * (minutes - 1) < oldest + 3600000 - now <= 60000 * minutes)%Z
          /\ (1 <= minutes)%Z
          /\ message r =
             Some (lit "Rate limit exceeded. Please try again in "
                   ++ decimal minutes ++ lit " minute(s).")).
Proof.
  intros stored now recent.
  exists (rate_limit stored now).
  split; [unfold outcome; by rewrite checkRateLimit_run|].
  unfold rate_limit. change (3600000%Z) with oneHour in recent. fold recent.
  split; [|split].
  - destruct (3 <=? length recent)%nat eqn:H3; cbn [allowed].
    + apply Nat.leb_le in H3. split; [done|lia].
    + apply Nat.leb_gt in H3. done.
  - apply filter_in_window.
  - destruct (3 <=? length recent)%nat eqn:H3; cbn [allowed message]; [|done].
    intros _. apply Nat.leb_le in H3.
    assert (Hne : recent <> []) by (intros Heq; rewrite Heq in H3; simpl in H3; lia).
    destruct (Math_min_spec recent Hne) as [Hin Hall].
    exists (Math_min recent), (Math_ceil_div (Math_min recent + oneHour - now) 60000).
    assert (Hpos : (0 < Math_min recent + 3600000 - now)%Z).
    { apply list_elem_of_filter in Hin as [Hlt _].
      unfold oneHour in Hlt. lia. }
    pose proof (Math_ceil_div_spec (Math_min recent + oneHour - now) 60000 eq_refl) as Hceil.
    change oneHour with 3600000%Z in *.
    repeat split; try done; lia.
Qed.

(** C4, as stated, fails where the store holds entries later than the
    check time: none of the three entries lies in the window that ends at
    [now], and the check denies. *)
Lemma checkRateLimit_counts_later_entries :
  let now := 1700000000000%Z in
  let stored := [1700000001000; 1700000002000; 1700000003000]%Z in
  (length (filter (in_window now) stored) < 3)%nat
  /\ exists r, outcome checkRateLimit (scenario "John Doe" "Hello, this is a test message." "" stored now) = Normal r
               /\ allowed r = false.
Proof.
  split; [vm_compute; lia|].
  eexists. split; [vm_compute; reflexivity|reflexivity].
Qed.

Section RecordSubmission.

Lemma push_keep_last_length (l : list Z) (now : Z) :
  length (push_keep_last l now) =
  if (10 <=? length l)%nat then length l else S (length l).
Proof.
  unfold push_keep_last. rewrite length_app. cbn [length].
  destruct (10 <? length l + 1)%nat eqn:H; [apply Nat.ltb_lt in H|apply Nat.ltb_ge in H].
  - destruct (10 <=? length l)%nat eqn:H'; [|apply Nat.leb_gt in H'; lia].
    destruct l; simpl in *; [lia|]. rewrite length_app. simpl. lia.
  - destruct (10 <=? length l)%nat eqn:H'; [apply Nat.leb_le in H'; lia|].
    rewrite length_app. simpl. lia.
Qed.

Lemma push_keep_last_drop (l : list Z) (now : Z) :
  (length l <= 10)%nat ->
  push_keep_last l now = drop (length l + 1 - 10) (l ++ [now]).
Proof.
  intros Hl. unfold push_keep_last. rewrite length_app. cbn [length].
  destruct (10 <? length l + 1)%nat eqn:H; [apply Nat.ltb_lt in H|apply Nat.ltb_ge in H].
  - replace (length l + 1 - 10)%nat with 1%nat by lia. by destruct l.
  - replace (length l + 1 - 10)%nat with 0%nat by lia. done.
Qed.

(** A store that only [recordSubmission] has written, from an empty one,
    holds at most 10 entries. *)
Lemma push_keep_last_fold (times : list Z) :
  forall l, (length l <= 10)%nat ->
    length (foldl push_keep_last l times) = Nat.min (length l + length times) 10.
Proof.
  induction times as [|t times IH]; intros l Hl; cbn [foldl length].
  - lia.
  - rewrite IH; rewrite push_keep_last_length;
      destruct (10 <=? length l)%nat eqn:H;
      [apply Nat.leb_le in H|apply Nat.leb_gt in H| apply Nat.leb_le in H
      |apply Nat.leb_gt in H]; lia.
Qed.

End RecordSubmission.

(** On a store of at most 10 entries (every store [recordSubmission]
    itself has written from an empty one is such a store),
    [recordSubmission] appends the reading of the clock and, if that makes
    11 entries, removes the first one: the store then has
    min(previous length + 1, 10) entries, what is dropped is dropped from
    the front, and the length does not exceed 10. *)
Lemma recordSubmission_keeps_last_ten (s : State) :
  let prior := parse_submissions (localStorage s !! "form_submissions") in
  (length prior <= 10)%nat ->
  exists stored,
    localStorage (after recordSubmission s) !! "form_submissions" = Some stored
    /\ stored = drop (length prior + 1 - 10) (prior ++ [clock s])
    /\ length stored = Nat.min (length prior + 1) 10
    /\ (length stored <= 10)%nat.
Proof.
  intros prior Hlen. exists (push_keep_last prior (clock s)).
  unfold after. rewrite recordSubmission_run. fields.
  split; [apply lookup_insert_eq|].
  split; [by apply push_keep_last_drop|].
  rewrite push_keep_last_length.
  destruct (10 <=? length prior)%nat eqn:H; [apply Nat.leb_le in H|apply Nat.leb_gt in H]; lia.
Qed.

Lemma recordSubmission_keeps_last_ten_witness :
  exists stored,
    localStorage (after recordSubmission (scenario "John Doe" "Hello, this is a test message." ""
              [1; 2; 3; 4; 5; 6; 7; 8; 9; 10]%Z 11))
      !! "form_submissions" = Some stored
    /\ stored = drop (10 + 1 - 10) ([1; 2; 3; 4; 5; 6; 7; 8; 9; 10]%Z ++ [11%Z])
    /\ length stored = Nat.min (10 + 1) 10
    /\ (length stored <= 10)%nat.
Proof.
  apply (recordSubmission_keeps_last_ten
           (scenario "John Doe" "Hello, this is a test message." ""
              [1; 2; 3; 4; 5; 6; 7; 8; 9; 10]%Z 11)).
  vm_compute. lia.
Defined.



(** ** The token *)

Section Token.

Lemma hex_byte_length (byte : N) :
  length (padStart 2 (chr "0") (toString16 byte)) = 2%nat.
Proof. unfold padStart, toString16. by destruct (byte <? 16)%N. Qed.

Lemma hex_length (bytes : list N) : length (hex bytes) = (2 * length bytes)%nat.
Proof.
  unfold hex. induction bytes as [|b bytes IH]; [done|].
  cbn [map concat length]. rewrite length_app, hex_byte_length, IH. lia.
Qed.

Lemma hex_digit_inj (d d' : N) :
  (d < 16)%N -> (d' < 16)%N -> hex_digit d = hex_digit d' -> d = d'.
Proof.
  unfold hex_digit. intros Hd Hd'.
  destruct (N.ltb_spec d 10), (N.ltb_spec d' 10); lia.
Qed.

Lemma hex_byte_inj (b b' : N) :
  (b < 256)%N -> (b' < 256)%N ->
  padStart 2 (chr "0") (toString16 b) = padStart 2 (chr "0") (toString16 b') ->
  b = b'.
Proof.
  intros Hb Hb'. unfold padStart, toString16.
  assert (Hz : chr "0" = hex_digit 0) by reflexivity.
  assert (Hq : forall x, (x < 256)%N -> (x / 16 < 16)%N)
    by (intros x Hx; apply N.Div0.div_lt_upper_bound; lia).
  assert (Hr : forall x, (x mod 16 < 16)%N) by (intros x; apply N.mod_lt; lia).
  assert (Hpair : forall x y x' y' : N, [x; y] = [x'; y'] -> x = x' /\ y = y')
    by (by intros x y x' y' [= -> ->]).
  destruct (N.ltb_spec b 16), (N.ltb_spec b' 16); cbn [length replicate Nat.sub app];
    intros Heq; apply Hpair in Heq as [H1 H2].
  - apply hex_digit_inj in H2; [done|lia|lia].
  - rewrite Hz in H1. apply hex_digit_inj in H1; [|lia|by apply Hq].
    apply hex_digit_inj in H2; [|lia|apply Hr].
    rewrite (N.div_mod' b' 16). lia.
  - rewrite Hz in H1. apply hex_digit_inj in H1; [|by apply Hq|lia].
    apply hex_digit_inj in H2; [|apply Hr|lia].
    rewrite (N.div_mod' b 16). lia.
  - apply hex_digit_inj in H1; [|by apply Hq|by apply Hq].
    apply hex_digit_inj in H2; [|apply Hr|apply Hr].
    rewrite (N.div_mod' b 16), (N.div_mod' b' 16). lia.
Qed.

(** Two runs of bytes of the same length have the same hexadecimal text
    only if they are the same bytes. *)
Lemma hex_inj (bs bs' : list N) :
  Forall (fun b => (b < 256)%N) bs -> Forall (fun b => (b < 256)%N) bs' ->
  length bs = length bs' -> hex bs = hex bs' -> bs = bs'.
Proof.
  intros Hbs. revert bs'. induction Hbs as [|b bs Hb _ IH]; intros bs' Hbs' Hlen Heq.
  - by destruct bs'.
  - destruct Hbs' as [|b' bs' Hb' Hbs']; [done|].
    unfold hex in Heq. cbn [map concat] in Heq.
    apply app_inj_1 in Heq as [H1 H2]; [|by rewrite !hex_byte_length].
    f_equal; [by apply hex_byte_inj|]. apply IH; auto.
Qed.

Lemma drawn_bytes (s : State) : Forall (fun b => (b < 256)%N) (drawn s).
Proof.
  unfold drawn, drawn_from. apply Forall_map, Forall_forall. intros i _.
  apply N.mod_lt. lia.
Qed.

Lemma generateCSRFToken_run (s : State) :
  generateCSRFToken s =
  (Normal (hex (drawn s)),
   with_entropyUsed (entropyUsed s + 32)
     (with_trace (trace s ++ [Call "generateCSRFToken" ""; Random 32]) s)).
Proof. unfold generateCSRFToken, getRandomValues. run. same_state. Qed.

(** A generated token is 64 characters long. *)
Lemma generateCSRFToken_length (s : State) :
  exists token, outcome generateCSRFToken s = Normal token /\ length token = 64%nat.
Proof.
  exists (hex (drawn s)). unfold outcome. rewrite generateCSRFToken_run.
  split; [done|]. rewrite hex_length. unfold drawn, drawn_from.
  by rewrite length_map, length_seq.
Qed.

(** Two generated tokens are equal only if the same 32 bytes were drawn. *)
Lemma generateCSRFToken_distinct (s s' : State) :
  drawn s <> drawn s' -> outcome generateCSRFToken s <> outcome generateCSRFToken s'.
Proof.
  intros Hne. unfold outcome. rewrite !generateCSRFToken_run. cbn [fst].
  intros [= Heq]. apply Hne. apply hex_inj; auto using drawn_bytes.
Qed.

(** What [initCSRFToken] does to the hidden input of the form. *)
Lemma initCSRFToken_stored (s : State) (token : jsstring) :
  sessionStorage s !! "csrf_token" = Some token -> token <> [] ->
  initCSRFToken s =
  (Normal token,
   with_controls
     (match controls s !! "csrf_token" with
      | Some c => <["csrf_token" := set_value_attribute token c]> (controls s)
      | None => controls s
      end)
     (with_trace (trace s ++ [Call "initCSRFToken" ""; SessionGet "csrf_token"]) s)).
Proof.
  intros Hs Hne. unfold initCSRFToken. run. rewrite Hs.
  destruct token as [|c token]; [done|]. cbn [falsy default]. run.
  destruct (controls s !! "csrf_token") as [f|] eqn:Hf; run; [rewrite Hf|]; same_state.
Qed.

Lemma initCSRFToken_absent (s : State) :
  falsy (sessionStorage s !! "csrf_token") = true ->
  initCSRFToken s =
  (Normal (hex (drawn s)),
   with_controls
     (match controls s !! "csrf_token" with
      | Some c =>
          <["csrf_token" := set_value_attribute (hex (drawn s)) c]> (controls s)
      | None => controls s
      end)
     (with_sessionStorage (<["csrf_token" := hex (drawn s)]> (sessionStorage s))
        (with_entropyUsed (entropyUsed s + 32)
           (with_trace
              (trace s ++ [Call "initCSRFToken" ""; SessionGet "csrf_token";
                           Call "generateCSRFToken" ""; Random 32;
                           SessionSet "csrf_token" (hex (drawn s));
                           Console "log" "[Security] CSRF token generated" []]) s)))).
Proof.
  intros Hs. unfold initCSRFToken. run. rewrite Hs.
  rewrite bind_run, generateCSRFToken_run. run.
  destruct (controls s !! "csrf_token") as [f|] eqn:Hf; run; [rewrite Hf|]; same_state.
Qed.

Lemma falsy_false (o : option jsstring) :
  falsy o = false <-> exists token, o = Some token /\ token <> [].
Proof.
  destruct o as [[|c t]|]; cbn; split; try done.
  - intros (token & [= <-] & H). done.
  - intros _. by eexists.
  - intros (token & [=] & _).
Qed.

(** Reading the token twice gives the same token. *)
Lemma initCSRFToken_twice (s : State) :
  exists token,
    outcome initCSRFToken s = Normal token
    /\ outcome initCSRFToken (after initCSRFToken s) = Normal token
    /\ token <> [].
Proof.
  unfold outcome, after.
  destruct (falsy (sessionStorage s !! "csrf_token")) eqn:Hf.
  - assert (Hne : hex (drawn s) <> []).
    { intros Heq. apply (f_equal length) in Heq. rewrite hex_length in Heq.
      unfold drawn, drawn_from in Heq. rewrite length_map, length_seq in Heq.
      discriminate. }
    exists (hex (drawn s)). rewrite initCSRFToken_absent by done. fields.
    split; [done|]. split; [|done].
    erewrite initCSRFToken_stored; [done| |done]. fields. apply lookup_insert_eq.
  - apply falsy_false in Hf as (token & Hs & Hne).
    exists token. rewrite (initCSRFToken_stored s token) by done. fields.
    split; [done|]. split; [|done].
    by erewrite initCSRFToken_stored.
Qed.

End Token.

(** C7, at the step that is to rotate the token. The submit handler calls
    [initCSRFToken] for it, and with a token in the session store that
    call returns the stored token and leaves the session store as it was:
    the token after the step is the token before it. *)
Theorem initCSRFToken_keeps_stored_token (s : State) (token : jsstring) :
  sessionStorage s !! "csrf_token" = Some token -> token <> [] ->
  outcome initCSRFToken s = Normal token
  /\ sessionStorage (after initCSRFToken s) = sessionStorage s.
Proof.
  intros Hs Hne. unfold outcome, after.
  by rewrite (initCSRFToken_stored s token).
Qed.

Lemma initCSRFToken_keeps_stored_token_witness :
  let s := scenario "John Doe" "Hello, this is a test message." "" [] 1700000000000 in
  outcome initCSRFToken s = Normal token0
  /\ sessionStorage (after initCSRFToken s) = sessionStorage s.
Proof.
  apply (initCSRFToken_keeps_stored_token
           (scenario "John Doe" "Hello, this is a test message." "" [] 1700000000000)
           token0).
  - reflexivity.
  - discriminate.
Defined.

(** ** The order of the checks *)

Section Order.

Lemma stages_app (t1 t2 : list Event) : stages (t1 ++ t2) = stages t1 ++ stages t2.
Proof. apply omap_app. Qed.

Lemma emits_bounded {A} (m : M A) (l : list Stage) : emits m l -> bounded m l.
Proof.
  intros Hm s. destruct (Hm s) as (t & Ht & Hst). exists t. split; [done|].
  destruct (outcome m s); [by rewrite Hst|done].
Qed.

Lemma bounded_weaken {A} (m : M A) (l l' : list Stage) :
  bounded m l -> l `prefix_of` l' -> bounded m l'.
Proof.
  intros Hm Hl s. destruct (Hm s) as (t & Ht & Hst). exists t.
  split; [done|]. by etrans.
Qed.

Lemma emits_bind {A B} (m : M A) (f : A -> M B) (l1 l2 l : list Stage) :
  emits m l1 -> l = l1 ++ l2 -> (forall a, emits (f a) l2) -> emits (m ≫= f) l.
Proof.
  intros Hm -> Hf s. unfold emits, bounded, after, outcome in *. rewrite bind_run.
  destruct (Hm s) as (t1 & Ht1 & Hst1). destruct (m s) as [[a|e] s1]; cbn [fst snd] in *.
  - destruct (Hf a s1) as (t2 & Ht2 & Hst2). exists (t1 ++ t2).
    split; [by rewrite Ht2, Ht1, app_assoc|].
    rewrite stages_app, Hst1. destruct (f a s1).1; [by rewrite Hst2|by apply prefix_app].
  - exists t1. split; [done|]. by apply prefix_app_r.
Qed.

Lemma bounded_bind {A B} (m : M A) (f : A -> M B) (l1 l2 l : list Stage) :
  emits m l1 -> l = l1 ++ l2 -> (forall a, bounded (f a) l2) -> bounded (m ≫= f) l.
Proof.
  intros Hm -> Hf s. unfold emits, bounded, after, outcome in *. rewrite bind_run.
  destruct (Hm s) as (t1 & Ht1 & Hst1). destruct (m s) as [[a|e] s1]; cbn [fst snd] in *.
  - destruct (Hf a s1) as (t2 & Ht2 & Hst2). exists (t1 ++ t2).
    split; [by rewrite Ht2, Ht1, app_assoc|].
    rewrite stages_app, Hst1. by apply prefix_app.
  - exists t1. split; [done|]. by apply prefix_app_r.
Qed.

Lemma bounded_try {A} (body : M A) (handler : string -> M A) (final : M unit)
    (l : list Stage) :
  bounded body l -> (forall e, bounded (handler e) []) -> bounded final [] ->
  bounded (try_catch_finally body handler final) l.
Proof.
  intros Hb Hh Hf s. unfold bounded, after, try_catch_finally in *.
  destruct (Hb s) as (t1 & Ht1 & Hst1). destruct (body s) as [[a|e] s1]; cbn [fst snd] in *.
  - destruct (Hf s1) as (t3 & Ht3 & Hst3). apply prefix_nil_inv in Hst3.
    exists (t1 ++ t3). split.
    + destruct (final s1) as [[[]|e] s2]; cbn [snd] in *; by rewrite Ht3, Ht1, app_assoc.
    + by rewrite stages_app, Hst3, app_nil_r.
  - destruct (Hh e s1) as (t2 & Ht2 & Hst2). apply prefix_nil_inv in Hst2.
    destruct (handler e s1) as [o s2]; cbn [snd] in *.
    destruct (Hf s2) as (t3 & Ht3 & Hst3). apply prefix_nil_inv in Hst3.
    exists (t1 ++ t2 ++ t3). split.
    + destruct (final s2) as [[[]|e'] s3]; cbn [snd] in *;
        by rewrite Ht3, Ht2, Ht1, !app_assoc.
    + by rewrite !stages_app, Hst2, Hst3, !app_nil_r.
Qed.

Lemma emits_ret {A} (a : A) : emits (mret a : M A) [].
Proof. intros s. exists []. by rewrite app_nil_r. Qed.

(** A computation whose run adds the events [t], whatever the state. *)
Lemma emits_events {A} (m : M A) (t : list Event) :
  (forall s, trace (after m s) = trace s ++ t) -> emits m (stages t).
Proof.
  intros Hm s. exists t. split; [done|]. by destruct (outcome m s).
Qed.

Lemma emits_log (e : Event) : emits (log e) (stages [e]).
Proof. by apply emits_events. Qed.

Lemma emits_console (level msg : string) (args : list jsstring) :
  emits (console level msg args) [].
Proof. by apply (emits_events _ [Console level msg args]). Qed.

Lemma emits_Date_now : emits Date_now [].
Proof. apply (emits_events _ []). intros s. unfold after. run. by rewrite app_nil_r. Qed.

Lemma emits_checkRateLimit : emits checkRateLimit [RateLimitCheck].
Proof.
  apply (emits_events _ [Call "checkRateLimit" ""; LocalGet "form_submissions"]).
  intros s. unfold after. by rewrite checkRateLimit_run.
Qed.

Lemma emits_read_value (name : string) :
  emits (read_value name) (stages [ReadValue name]).
Proof.
  intros s. unfold after, outcome. run.
  destruct (controls s !! name); fields.
  - by exists [ReadValue name].
  - exists []. rewrite app_nil_r. split; [done|apply prefix_nil].
Qed.

Lemma emits_read_checked (name : string) :
  emits (read_checked name) (stages [ReadChecked name]).
Proof.
  intros s. unfold after, outcome. run.
  destruct (controls s !! name); fields.
  - by exists [ReadChecked name].
  - exists []. rewrite app_nil_r. split; [done|apply prefix_nil].
Qed.

Lemma emits_validateField (field : string) :
  emits (validateField field)
    (stages [Call "validateField" field; ReadValue field]).
Proof.
  intros s. unfold after, outcome. rewrite validateField_run.
  destruct (controls s !! field); fields.
  - by exists [Call "validateField" field; ReadValue field].
  - exists [Call "validateField" field]. split; [done|].
    change [Call "validateField" field; ReadValue field]
      with ([Call "validateField" field] ++ [ReadValue field]).
    rewrite stages_app. by apply prefix_app_r.
Qed.

Lemma emits_button : emits button [].
Proof.
  intros s. unfold after, outcome. run. exists []. rewrite app_nil_r.
  destruct (submitButton s); (split; [done|]); [done|apply prefix_nil].
Qed.

Lemma emits_update_button (f : Button -> Button) : emits (update_button f) [].
Proof.
  intros s. unfold after, outcome. run. exists []. rewrite app_nil_r.
  destruct (submitButton s); (split; [done|]); [done|apply prefix_nil].
Qed.

Lemma showMessage_run (type : string) (message : jsstring) (s : State) :
  showMessage type message s =
  (Normal tt,
   with_timers
     (match formMessage s with
      | Some _ =>
          if String.eqb type "success"
          then timers s ++ [((clock s + 5000)%Z, "hide form-message")]
          else timers s
      | None => timers s
      end)
     (with_formMessage
        (match formMessage s with
         | Some _ => Some (mkMessageBox ("alert alert-" ++ type) message "block")
         | None => None
         end)
        (with_trace (trace s ++ [Call "showMessage" type]) s))).
Proof.
  unfold showMessage. run.
  destruct (formMessage s); run; [|done].
  by destruct (String.eqb type "success"); run.
Qed.

Lemma emits_showMessage (type : string) (message : jsstring) :
  emits (showMessage type message) [].
Proof.
  apply (emits_events _ [Call "showMessage" type]). intros s.
  unfold after. by rewrite showMessage_run.
Qed.

Lemma simulateAPICall_run (data : Payload) (s : State) :
  simulateAPICall data s =
  (Normal tt,
   with_clock (clock s + 1500)
     (with_trace
        (trace s ++
         [Transport data;
          Console "log" "[Security] Form data (sanitized):"
            [ escapeHtml (VString (p_name data));
              escapeHtml (VString (p_email data));
              take 50 (escapeHtml (VString (p_message data))) ++ lit "...";
              decimal (p_timestamp data) ]]) s)).
Proof. unfold simulateAPICall. run. same_state. Qed.

Lemma emits_simulateAPICall (data : Payload) :
  emits (simulateAPICall data) [NetworkCall].
Proof.
  intros s. unfold after, outcome. rewrite simulateAPICall_run. fields.
  by eexists.
Qed.

Lemma emits_recordSubmission : emits recordSubmission [].
Proof.
  intros s. unfold after, outcome. rewrite recordSubmission_run. cbn zeta. fields.
  by eexists.
Qed.

Lemma emits_form_reset : emits form_reset [].
Proof. apply (emits_events _ []). intros s. unfold after. by rewrite app_nil_r. Qed.

Lemma emits_remove_validation_classes : emits remove_validation_classes [].
Proof. apply (emits_events _ []). intros s. unfold after. by rewrite app_nil_r. Qed.

Lemma emits_initCSRFToken : emits initCSRFToken [].
Proof.
  intros s. unfold after, outcome.
  destruct (falsy (sessionStorage s !! "csrf_token")) eqn:Hf.
  - rewrite initCSRFToken_absent by done. fields. by eexists.
  - apply falsy_false in Hf as (token & Hs & Hne).
    rewrite (initCSRFToken_stored s token) by done. fields. by eexists.
Qed.

End Order.

Create HintDb emits.

#[local] Hint Resolve emits_log emits_console emits_Date_now emits_checkRateLimit
  emits_read_value emits_read_checked emits_validateField emits_button
  emits_update_button emits_showMessage emits_simulateAPICall
  emits_recordSubmission emits_form_reset emits_remove_validation_classes
  emits_initCSRFToken emits_ret : emits.

(** The stages a computation emits, read off its structure. *)
Ltac emit :=
  lazymatch goal with
  | |- emits (mbind _ _) _ =>
      eapply emits_bind; [emit | reflexivity | intros ?; emit]
  | |- emits (if ?b then _ else _) _ => destruct b; emit
  | |- emits _ _ => solve [eauto with emits]
  end.

Ltac bound :=
  lazymatch goal with
  | |- bounded (mbind _ _) _ =>
      eapply bounded_bind; [emit | reflexivity | intros ?; bound]
  | |- bounded (if ?b then _ else _) _ => destruct b; bound
  | |- bounded (try_catch_finally _ _ _) _ =>
      apply bounded_try; [bound | intros ?; bound | bound]
  | |- bounded _ _ =>
      eapply bounded_weaken; [apply emits_bounded; emit | by eexists]
  end.

(** Whatever the page and the stores are, the checks of an attempt are
    an initial part of the eight, in their order. *)
Lemma handleSubmit_stages_prefix (s : State) :
  stages (new_events handleSubmit s) `prefix_of` order_of_checks.
Proof.
  assert (Hb : bounded handleSubmit order_of_checks).
  { unfold handleSubmit, order_of_checks. bound. }
  destruct (Hb s) as (t & Ht & Hst).
  unfold new_events. by rewrite Ht, drop_app_length.
Qed.

(** C3, as stated, fails on the submission of the scenario: the honeypot
    check is the sixth check made, after the rate-limit check and the
    field validations. *)
Lemma handleSubmit_honeypot_not_first :
  let s := scenario "John Doe" "Hello, this is a test message." "" [] 1700000000000 in
  stages (new_events handleSubmit s) = order_of_checks
  /\ ~ honeypot_first (stages (new_events handleSubmit s)).
Proof.
  assert (Hst : stages (new_events handleSubmit
                  (scenario "John Doe" "Hello, this is a test message." "" []
                     1700000000000)) = order_of_checks) by (by vm_compute).
  split; [exact Hst|]. cbn zeta. rewrite Hst. intros Hfirst.
  destruct (Hfirst [RateLimitCheck; FieldValidation "name"; FieldValidation "email";
                    FieldValidation "message"; ConsentCheck]
              [TokenAttachment; NetworkCall] eq_refl) as [Hrl _].
  apply Hrl. apply list_elem_of_here.
Qed.

(** ** The submit handler *)

Ltac run_fn :=
  first
    [ run_step | rewrite checkRateLimit_run | rewrite validateField_run
    | rewrite showMessage_run | rewrite recordSubmission_run
    | rewrite simulateAPICall_run ].

(** Lookups in the controls after updates of other controls. *)
Ltac look :=
  repeat first
    [ rewrite lookup_insert_ne by done
    | rewrite lookup_insert_eq
    | match goal with H : controls _ !! _ = _ |- _ => rewrite H end ].

Ltac exec := fields; repeat (first [run_fn | progress look]; fields).

(** The end of a path on which nothing was stored or sent. *)
Ltac voided_leaf :=
  intros <-; left; fields; repeat split;
  rewrite <- ?app_assoc, drop_app_length; reflexivity.

Section Submit.

(** Either the attempt is voided, or it has passed every gate: the rate
    limit, the three field rules, the consent and the honeypot. The run is
    followed once, with its result [r] kept aside. *)
Lemma handleSubmit_gates_of (s : State) (r : Outcome unit * State) :
  handleSubmit s = r ->
  (localStorage r.2 = localStorage s /\ sessionStorage r.2 = sessionStorage s
   /\ transports (drop (length (trace s)) (trace r.2)) = [])
  \/
  (allowed (rate_limit (parse_submissions (localStorage s !! "form_submissions"))
              (clock s)) = true
   /\ exists cn ce cm cp ch,
        controls s !! "name" = Some cn /\ controls s !! "email" = Some ce
        /\ controls s !! "message" = Some cm /\ controls s !! "privacy" = Some cp
        /\ controls s !! "website" = Some ch
        /\ (validation_rule "name" (trim (c_value cn))).1 = true
        /\ (validation_rule "email" (trim (c_value ce))).1 = true
        /\ (validation_rule "message" (trim (c_value cm))).1 = true
        /\ c_checked cp = true
        /\ trim (c_value ch) = []).
Proof.
  unfold handleSubmit. exec.
  destruct (allowed _) eqn:Hrl; cbn [negb]; [|exec; voided_leaf].
  destruct (controls s !! "name") as [cn|] eqn:Hn; [|exec; voided_leaf].
  exec. 
  destruct (controls s !! "email") as [ce|] eqn:He; [|exec; voided_leaf].
  exec.
  destruct (controls s !! "message") as [cm|] eqn:Hm; [|exec; voided_leaf].
  exec.
  destruct (controls s !! "privacy") as [cp|] eqn:Hp; [|exec; voided_leaf].
  exec.
  destruct (c_checked cp) eqn:Hc; cbn [negb]; exec;
    (destruct (controls s !! "website") as [ch|] eqn:Hw; [|exec; voided_leaf]);
    exec;
    (destruct (trim (c_value ch)) as [|x t] eqn:Hh; cbn [is_nil negb];
     [|exec; voided_leaf]).
  - destruct (validation_rule "name" (trim (c_value cn))).1 eqn:H1;
      [|cbn [andb negb]; exec; voided_leaf].
    destruct (validation_rule "email" (trim (c_value ce))).1 eqn:H2;
      [|cbn [andb negb]; exec; voided_leaf].
    destruct (validation_rule "message" (trim (c_value cm))).1 eqn:H3;
      [|cbn [andb negb]; exec; voided_leaf].
    intros _. right. split; [done|]. exists cn, ce, cm, cp, ch. by repeat split.
  - cbn [negb]. exec. voided_leaf.
Qed.

Lemma handleSubmit_gates (s : State) :
  voided handleSubmit s \/
  (allowed (rate_limit (parse_submissions (localStorage s !! "form_submissions"))
              (clock s)) = true
   /\ exists cn ce cm cp ch,
        controls s !! "name" = Some cn /\ controls s !! "email" = Some ce
        /\ controls s !! "message" = Some cm /\ controls s !! "privacy" = Some cp
        /\ controls s !! "website" = Some ch
        /\ (validation_rule "name" (trim (c_value cn))).1 = true
        /\ (validation_rule "email" (trim (c_value ce))).1 = true
        /\ (validation_rule "message" (trim (c_value cm))).1 = true
        /\ c_checked cp = true
        /\ trim (c_value ch) = []).
Proof. exact (handleSubmit_gates_of s (handleSubmit s) eq_refl). Qed.


Lemma outcome_checkRateLimit (s : State) (r : RateLimit) :
  outcome checkRateLimit s = Normal r ->
  r = rate_limit (parse_submissions (localStorage s !! "form_submissions")) (clock s).
Proof. unfold outcome. rewrite checkRateLimit_run. by intros [= <-]. Qed.

Lemma outcome_validateField (field : string) (s : State) (ok : bool) :
  outcome (validateField field) s = Normal ok ->
  exists c, controls s !! field = Some c
            /\ ok = (validation_rule field (trim (c_value c))).1.
Proof.
  unfold outcome. rewrite validateField_run.
  destruct (controls s !! field) as [c|]; [|done].
  intros [= <-]. by exists c.
Qed.


Lemma outcome_read_checked (name : string) (s : State) (v : bool) :
  outcome (read_checked name) s = Normal v ->
  exists c, controls s !! name = Some c /\ v = c_checked c.
Proof.
  unfold outcome. rewrite read_checked_run.
  destruct (controls s !! name) as [c|]; [|done].
  intros [= <-]. by exists c.
Qed.

End Submit.

(** C9. An attempt that passes the rate-limit check and the honeypot
    check, and in which the name, the email or the message fails its rule
    or the privacy box is not checked, calls no transport and leaves the
    submission store and the session store as they were. *)
Theorem handleSubmit_invalid_form_voided (s : State) (r : RateLimit)
    (honeypot : jsstring) :
  outcome checkRateLimit s = Normal r -> allowed r = true ->
  outcome (read_value "website") s = Normal honeypot -> trim honeypot = [] ->
  outcome (validateField "name") s = Normal false
  \/ outcome (validateField "email") s = Normal false
  \/ outcome (validateField "message") s = Normal false
  \/ outcome (read_checked "privacy") s = Normal false ->
  voided handleSubmit s.
Proof.
  intros Hr Hrl Hw Hh Hbad.
  destruct (handleSubmit_gates s)
    as [Hv|(_ & cn & ce & cm & cp & ch & Hn & He & Hm & Hp & _ & H1 & H2 & H3 & Hc & _)];
    [done|].
  exfalso. destruct Hbad as [Hb|[Hb|[Hb|Hb]]].
  - apply outcome_validateField in Hb as (c & Hc' & Hb). congruence.
  - apply outcome_validateField in Hb as (c & Hc' & Hb). congruence.
  - apply outcome_validateField in Hb as (c & Hc' & Hb). congruence.
  - apply outcome_read_checked in Hb as (c & Hc' & Hb). congruence.
Qed.

Lemma handleSubmit_invalid_form_voided_witness :
  voided handleSubmit (scenario "J" "short" "" [] 1700000000000).
Proof.
  apply (handleSubmit_invalid_form_voided
           (scenario "J" "short" "" [] 1700000000000) (mkRateLimit true None) []).
  - reflexivity.
  - reflexivity.
  - reflexivity.
  - reflexivity.
  - left. vm_compute. reflexivity.
Defined.




(** ** The session store under the submit handler *)

Section Session.

Variable I : State -> Prop.

Lemma preserves_bind {A B} (m : M A) (f : A -> M B) :
  preserves I m -> (forall a, preserves I (f a)) -> preserves I (m ≫= f).
Proof.
  intros Hm Hf s Hs. unfold preserves, after in *. rewrite bind_run.
  specialize (Hm s Hs). destruct (m s) as [[a|e] s1]; cbn [snd] in *; [|done].
  by apply Hf.
Qed.

Lemma preserves_try {A} (body : M A) (handler : string -> M A) (final : M unit) :
  preserves I body -> (forall e, preserves I (handler e)) -> preserves I final ->
  preserves I (try_catch_finally body handler final).
Proof.
  intros Hb Hh Hf s Hs. unfold preserves, after, try_catch_finally in *.
  specialize (Hb s Hs). destruct (body s) as [[a|e] s1]; cbn [snd] in *.
  - specialize (Hf s1 Hb). by destruct (final s1) as [[[]|e] s2].
  - specialize (Hh e s1 Hb). destruct (handler e s1) as [o s2]; cbn [snd] in *.
    specialize (Hf s2 Hh). by destruct (final s2) as [[[]|e'] s3].
Qed.

Lemma preserves_ret {A} (a : A) : preserves I (mret a : M A).
Proof. by intros s Hs. Qed.

End Session.

Section SessionFrame.

Variable sigma : gmap string jsstring.

(** A computation that does not write the session store. *)
Ltac frame :=
  intros s Hs; unfold after; exec;
  repeat (case_match; exec); exact Hs.

Lemma session_log (e : Event) : preserves (session_is sigma) (log e).
Proof. frame. Qed.

Lemma session_console (level msg : string) (args : list jsstring) :
  preserves (session_is sigma) (console level msg args).
Proof. frame. Qed.

Lemma session_Date_now : preserves (session_is sigma) Date_now.
Proof. frame. Qed.

Lemma session_checkRateLimit : preserves (session_is sigma) checkRateLimit.
Proof. frame. Qed.

Lemma session_validateField (field : string) :
  preserves (session_is sigma) (validateField field).
Proof. frame. Qed.

Lemma session_read_value (name : string) :
  preserves (session_is sigma) (read_value name).
Proof. frame. Qed.

Lemma session_read_checked (name : string) :
  preserves (session_is sigma) (read_checked name).
Proof. frame. Qed.

Lemma session_button : preserves (session_is sigma) button.
Proof. frame. Qed.

Lemma session_update_button (f : Button -> Button) :
  preserves (session_is sigma) (update_button f).
Proof. frame. Qed.

Lemma session_showMessage (type : string) (message : jsstring) :
  preserves (session_is sigma) (showMessage type message).
Proof. frame. Qed.

Lemma session_simulateAPICall (data : Payload) :
  preserves (session_is sigma) (simulateAPICall data).
Proof. frame. Qed.

Lemma session_recordSubmission : preserves (session_is sigma) recordSubmission.
Proof. intros s Hs. unfold after. rewrite recordSubmission_run. exact Hs. Qed.

Lemma session_form_reset : preserves (session_is sigma) form_reset.
Proof. by intros s Hs. Qed.

Lemma session_remove_validation_classes :
  preserves (session_is sigma) remove_validation_classes.
Proof. by intros s Hs. Qed.

(** With a token in the session store, [initCSRFToken] writes nothing to
    it. *)
Lemma session_initCSRFToken : preserves (session_is sigma) initCSRFToken.
Proof.
  intros s [Hs Htok]. unfold after. subst sigma.
  pose proof Htok as Hf. apply falsy_false in Htok as (token & Htok & Hne).
  rewrite (initCSRFToken_stored s token) by done.
  by split.
Qed.

End SessionFrame.

Create HintDb session.

#[local] Hint Resolve session_log session_console session_Date_now
  session_checkRateLimit session_validateField session_read_value
  session_read_checked session_button session_update_button session_showMessage
  session_simulateAPICall session_recordSubmission session_form_reset
  session_remove_validation_classes session_initCSRFToken preserves_ret : session.

Ltac keep :=
  lazymatch goal with
  | |- preserves _ (mbind _ _) =>
      apply preserves_bind; [keep | intros ?; keep]
  | |- preserves _ (if ?b then _ else _) => destruct b; keep
  | |- preserves _ (try_catch_finally _ _ _) =>
      apply preserves_try; [keep | intros ?; keep | keep]
  | |- preserves _ _ => solve [eauto with session]
  end.

(** On no path does the submit handler write the session store of a
    session that has a token: not when the attempt is rejected, and not
    after the transport has succeeded. *)
Lemma handleSubmit_keeps_session (s : State) (token : jsstring) :
  sessionStorage s !! "csrf_token" = Some token -> token <> [] ->
  sessionStorage (after handleSubmit s) = sessionStorage s.
Proof.
  intros Htok Hne.
  assert (Hk : preserves (session_is (sessionStorage s)) handleSubmit).
  { unfold handleSubmit. keep. }
  apply Hk. split; [done|]. apply falsy_false. eauto.
Qed.

(** C1, on the page of the scenario: the form is loaded, which issues a
    token, and a valid message is submitted. The transport is called, the
    submission is recorded, and the token in the session store is the one
    issued at load time: the call of [initCSRFToken] that follows the
    success has not replaced it ([handleSubmit_keeps_session] has this
    for every state with a token). *)
Theorem handleSubmit_success_keeps_token :
  let loaded := after initContactForm (fresh_page 1700000000000) in
  let submitted := after handleSubmit loaded in
  let issued := hex (drawn (fresh_page 1700000000000)) in
  sessionStorage loaded !! "csrf_token" = Some issued
  /\ outcome handleSubmit loaded = Normal tt
  /\ transports (new_events handleSubmit loaded) =
     [mkPayload (lit "John Doe") (lit "john@example.com")
        (lit "Hello, this is a test message.") issued 1700000000000]
  /\ localStorage submitted !! "form_submissions" = Some [1700000001500%Z]
  /\ sessionStorage submitted !! "csrf_token" = Some issued.
Proof. vm_compute. repeat split. Qed.

(** ** The sanitizers on every text *)

Section MatcherValues.

Lemma or_else_Some {R} (a b : option R) (x : R) :
  or_else a b = Some x -> a = Some x \/ (a = None /\ b = Some x).
Proof. destruct a; simpl; intros H; [left | right]; auto. Qed.

Lemma star_loop_sound {R} (P : jsstring -> jsstring -> jsstring -> Prop)
    (step : jsstring -> jsstring -> (jsstring -> jsstring -> option R) -> option R)
    (k : jsstring -> jsstring -> option R) :
  (forall pre suf k' x, step pre suf k' = Some x ->
     exists w post, suf = w ++ post /\ P pre w post /\ k' (rev w ++ pre) post = Some x) ->
  forall n pre suf x, star_loop step k n pre suf = Some x ->
    exists w post, suf = w ++ post /\ iter P pre w post /\ k (rev w ++ pre) post = Some x.
Proof.
  intros Hstep n. induction n as [|n IH]; intros pre suf x; cbn [star_loop].
  - intros Hk. exists [], suf. repeat split; [constructor | exact Hk].
  - intros H. apply or_else_Some in H as [H|[_ H]].
    + apply Hstep in H as (w1 & post1 & -> & Hw1 & Hk).
      destruct (length post1 <? length (w1 ++ post1))%nat eqn:Hlt; [|discriminate].
      apply length_app_lt in Hlt.
      apply IH in Hk as (w2 & post & -> & Hit & Hk).
      exists (w1 ++ w2), post. split; [by rewrite <- app_assoc|].
      split; [by apply iter_step|].
      by rewrite rev_app_distr, <- app_assoc.
    + exists [], suf. repeat split; [constructor | exact H].
Qed.

(** What the matcher returns is what the continuation returned at the
    end of a match. *)
Lemma rmatch_sound (r : regex) :
  forall R pre suf (k : jsstring -> jsstring -> option R) x,
    rmatch r pre suf k = Some x ->
    exists w post, suf = w ++ post /\ lang r pre w post /\ k (rev w ++ pre) post = Some x.
Proof.
  induction r as [|p|r1 IH1 r2 IH2|r1 IH1 r2 IH2|r1 IH1| | | |r1 IH1];
    intros R pre suf k x; cbn [rmatch lang].
  - intros Hk. by exists [], suf.
  - destruct suf as [|c suf]; [done|]. destruct (p c) eqn:Hp; [|done].
    intros Hk. exists [c], suf. eauto 6.
  - intros H. apply IH1 in H as (w1 & post1 & -> & Hw1 & H).
    apply IH2 in H as (w2 & post & -> & Hw2 & Hk).
    exists (w1 ++ w2), post. split; [by rewrite <- app_assoc|].
    split; [by exists w1, w2|]. by rewrite rev_app_distr, <- app_assoc.
  - intros H. apply or_else_Some in H as [H|[_ H]].
    + apply IH1 in H as (w & post & ? & ? & ?). exists w, post. eauto.
    + apply IH2 in H as (w & post & ? & ? & ?). exists w, post. eauto.
  - apply (star_loop_sound (lang r1)). intros pre' suf' k' x'. apply IH1.
  - destruct pre; [|done]. intros Hk. by exists [], suf.
  - destruct suf; [|done]. intros Hk. by exists [], [].
  - destruct (xorb _ _) eqn:Hx; [|done]. intros Hk. by exists [], suf.
  - destruct (rmatch r1 pre suf _) as [[]|] eqn:Hm; [done|].
    intros Hk. exists [], suf. repeat split; [|done].
    intros (w1 & post1 & -> & Hw1).
    assert (Hs : is_Some (rmatch r1 pre (w1 ++ post1) (fun _ _ => Some tt))).
    { apply rmatch_spec. exists w1, post1. eauto. }
    rewrite Hm in Hs. by destruct Hs.
Qed.

Lemma match_at_sound (r : regex) (pre suf pre' suf' : jsstring) :
  match_at r pre suf = Some (pre', suf') ->
  exists w, suf = w ++ suf' /\ pre' = rev w ++ pre /\ lang r pre w suf'.
Proof.
  unfold match_at. intros H. apply rmatch_sound in H as (w & post & -> & Hw & [= <- <-]).
  by exists w.
Qed.

Lemma match_at_None (r : regex) (pre suf : jsstring) :
  match_at r pre suf = None <->
  ~ exists w post, suf = w ++ post /\ lang r pre w post.
Proof.
  rewrite <- match_at_spec. destruct (match_at r pre suf) as [e|].
  - split; [done|]. intros H. exfalso. apply H. by exists e.
  - split; [|done]. intros _ [x Hx]. discriminate.
Qed.

(** Where the pattern matches nowhere, replacing changes nothing. *)
Lemma replace_loop_no_match (r : regex) (f : jsstring -> jsstring) (bad : N -> Prop) :
  (forall pre w post, lang r pre w post -> exists c, c ∈ w /\ bad c) ->
  forall n pre s, Forall (fun c => ~ bad c) s -> replace_loop n r f pre s = s.
Proof.
  intros Hbad n. induction n as [|n IH]; intros pre s Hs; [done|].
  cbn [replace_loop].
  destruct (match_at r pre s) as [[pre' s']|] eqn:Hm.
  - exfalso. apply match_at_sound in Hm as (w & -> & _ & Hw).
    apply Hbad in Hw as (c & Hc & Hb). rewrite Forall_forall in Hs.
    apply (Hs c); [|done]. apply elem_of_app. by left.
  - destruct s as [|c s]; [done|]. f_equal. apply IH. by inversion Hs.
Qed.

End MatcherValues.

Section SchemeWords.

Lemma lang_lit_i (s : string) :
  forall pre w post, lang (lit_i s) pre w post <-> folds_to s w.
Proof.
  induction s as [|a s IH]; intros pre w post; cbn [lit_i lang]; unfold folds_to; cbn [lit].
  - split; [intros ->; constructor | intros H; by inversion H].
  - split.
    + intros (w1 & w2 & -> & (c & -> & Hc) & Hw2). apply N.eqb_eq in Hc.
      constructor; [done|]. by apply IH in Hw2.
    + intros H. inversion H as [|c a' w' l' Hc Hw]; subst.
      exists [c], w'. split; [done|].
      split; [exists c; split; [done|by apply N.eqb_eq]|].
      by apply (IH _ w' post).
Qed.

(** Case folding maps into [A-Z] or leaves the character alone. *)
Lemma canonicalize_fixed (c a : N) :
  canonicalize c = a -> (a < 65 \/ 90 < a)%N -> c = a.
Proof.
  unfold canonicalize, is_lower.
  destruct (N.leb_spec 97 c), (N.leb_spec c 122); cbn [andb]; lia.
Qed.

Lemma folds_to_colon (w : jsstring) : folds_to ":" w <-> w = [chr ":"].
Proof.
  unfold folds_to. cbn [lit]. split.
  - intros H. inversion H as [|c a w' l' Hc Hw]; subst. inversion Hw; subst.
    f_equal. apply canonicalize_fixed; [done|]. vm_compute. by left.
  - intros ->. by repeat constructor.
Qed.

Lemma lang_re_scheme (name : string) (pre w post : jsstring) :
  lang (re_scheme name) pre w post <-> scheme_word name w.
Proof.
  unfold re_scheme, scheme_word. cbn [lang]. split.
  - intros (n & w2 & -> & Hn & ws & w4 & -> & Hws & Hc).
    apply lang_lit_i in Hn. apply iter_class in Hws.
    apply lang_lit_i, folds_to_colon in Hc as ->. by exists n, ws.
  - intros (n & ws & -> & Hn & Hws). exists n, (ws ++ [chr ":"]).
    split; [done|]. split; [by apply lang_lit_i|].
    exists ws, [chr ":"]. split; [done|]. split; [by apply iter_class|].
    by apply lang_lit_i, folds_to_colon.
Qed.

Lemma hit_match_at (name : string) (pre s : jsstring) :
  is_Some (match_at (re_scheme name) pre s) <-> hit name s.
Proof.
  rewrite match_at_spec. unfold hit. by setoid_rewrite lang_re_scheme.
Qed.

Lemma scheme_word_end (name : string) (w : jsstring) :
  scheme_word name w -> exists w0, w = w0 ++ [chr ":"].
Proof. intros (n & ws & -> & _). exists (n ++ ws). by rewrite <- app_assoc. Qed.

Lemma scheme_word_chars (name : string) (w : jsstring) (c : N) :
  scheme_word name w -> c ∈ w ->
  canonicalize c ∈ map canonicalize (lit name) \/ is_whitespace c = true \/ c = chr ":".
Proof.
  intros (n & ws & -> & Hn & Hws). rewrite !elem_of_app, list_elem_of_singleton.
  intros [Hc|[Hc|Hc]]; [left|right; left|right; by right].
  - unfold folds_to in Hn. revert Hc. induction Hn as [|x a n l Hx _ IH]; [by intros ?%elem_of_nil|].
    cbn [map]. rewrite !elem_of_cons. intros [->|Hc]; [left; done|right; auto].
  - rewrite Forall_forall in Hws. auto.
Qed.

Lemma scheme_word_no_l (name : string) (w : jsstring) :
  known name -> scheme_word name w -> chr "l" ∉ w.
Proof.
  intros Hk Hw Hin. destruct (scheme_word_chars name w _ Hw Hin) as [H|[H|H]];
    [|discriminate|discriminate].
  destruct Hk as [-> | [-> | ->]]; vm_compute in H;
    repeat (apply elem_of_cons in H as [H|H]; [discriminate|]); by apply elem_of_nil in H.
Qed.

Lemma blocked_suffixes (u k : jsstring) :
  lit "blocked:" = u ++ k ->
  k ∈ map (fun i => drop i (lit "blocked:")) (seq 0 9).
Proof.
  intros H.
  assert (k = drop (length u) (lit "blocked:")) as -> by (by rewrite H, drop_app_length).
  assert (length u <= 8)%nat.
  { apply (f_equal length) in H. rewrite length_app in H. cbn in H. lia. }
  apply list_elem_of_fmap. exists (length u). split; [done|]. apply elem_of_seq. lia.
Qed.

Lemma no_hit_in_blocked (name : string) (t o : jsstring) :
  known name -> t <> [] -> (exists u, lit "blocked:" = u ++ t) -> ~ hit name (t ++ o).
Proof.
  intros Hk Hne (u & Hu) Hhit. apply (hit_match_at name []) in Hhit.
  apply blocked_suffixes in Hu. cbn in Hu.
  repeat (apply elem_of_cons in Hu as [->|Hu];
          [destruct Hk as [-> | [-> | ->]]; vm_compute in Hhit; by destruct Hhit|]).
  by apply elem_of_nil in Hu.
Qed.

(** A scheme word that starts in [x ++ blocked: ++ o] lies in [x]. *)
Lemma hit_before_blocked (name : string) (x s o : jsstring) :
  known name -> hit name (x ++ lit "blocked:" ++ o) -> hit name (x ++ s).
Proof.
  intros Hk (w & post & Heq & Hw).
  apply app_eq_inv in Heq as [(k & -> & _)|(k & -> & Heq)].
  - exists w, (k ++ s). split; [by rewrite <- app_assoc|done].
  - destruct k as [|c1 k].
    + rewrite app_nil_r in Hw. exists x, s. done.
    + exfalso.
      change (lit "blocked:") with (chr "b" :: chr "l" :: lit "ocked:") in Heq.
      cbn [app] in Heq. injection Heq as Hc1 Heq. subst c1.
      destruct k as [|c2 k].
      * apply scheme_word_end in Hw as (w0 & Hw0).
        apply app_inj_tail in Hw0 as [_ Hc]. by vm_compute in Hc.
      * cbn [app] in Heq. injection Heq as Hc2 Heq. subst c2.
        apply (scheme_word_no_l name _ Hk Hw).
        rewrite elem_of_app, !elem_of_cons. right. right. by left.
Qed.

Lemma replaced_scheme_free (name : string) (s o : jsstring) :
  known name -> replaced (hit name) (lit "blocked:") s o -> scheme_free name o.
Proof.
  intros Hk Hr. induction Hr as [|c s o Hno Hr IH|w s o Hr IH]; intros u v Heq.
  - symmetry in Heq. apply app_eq_nil in Heq as [_ ->].
    intros (w & post & Hv & Hw). apply scheme_word_end in Hw as (w0 & ->).
    by destruct w0.
  - destruct u as [|c' u]; cbn in Heq.
    + subst v. intros Hhit. apply Hno.
      assert (Hq : forall s o, replaced (hit name) (lit "blocked:") s o ->
                     forall x, hit name (x ++ o) -> hit name (x ++ s)).
      { clear -Hk. induction 1 as [|c s o _ _ IH|w s o _ _]; intros x Hx; [done| |].
        - specialize (IH (x ++ [c])). rewrite <- !app_assoc in IH. by apply IH.
        - by apply (hit_before_blocked name x (w ++ s) o). }
      by apply (Hq s o Hr [c]).
    + injection Heq as <- Heq. by apply (IH u v).
  - apply app_eq_inv in Heq as [(k & Hk1 & Hk2)|(k & -> & Hk2)].
    + destruct k as [|c k].
      * rewrite app_nil_r in Hk1. subst. by apply (IH [] o).
      * subst v. apply no_hit_in_blocked; [done|done|by exists u].
    + by apply (IH k v).
Qed.

Lemma replaced_other (found : jsstring -> Prop) (name : string) (s o : jsstring) :
  replaced found (lit "blocked:") s o -> scheme_free name s ->
  replaced (hit name) (lit "blocked:") s o.
Proof.
  induction 1 as [|c s o _ Hr IH|w s o Hr IH]; intros Hfree.
  - constructor.
  - constructor.
    + by apply (Hfree []).
    + apply IH. intros u v ->. by apply (Hfree (c :: u)).
  - constructor. apply IH. intros u v ->. apply (Hfree (w ++ u)). by rewrite <- app_assoc.
Qed.

Lemma replace_scheme (name : string) :
  forall n pre s, (length s < n)%nat ->
    replaced (hit name) (lit "blocked:") s
      (replace_loop n (re_scheme name) (fun _ => lit "blocked:") pre s).
Proof.
  induction n as [|n IH]; intros pre s Hn; [lia|]. cbn [replace_loop].
  destruct (match_at (re_scheme name) pre s) as [[pre' s']|] eqn:Hm.
  - apply match_at_sound in Hm as (w & -> & _ & Hw). apply lang_re_scheme in Hw.
    assert (Hne : w <> []).
    { apply scheme_word_end in Hw as (w0 & ->). by destruct w0. }
    assert ((length s' <? length (w ++ s'))%nat = true) as -> by (by apply length_app_lt).
    apply replaced_cut, IH. rewrite length_app in Hn.
    destruct w; [done|]. cbn [length] in Hn. lia.
  - destruct s as [|c s]; [constructor|]. constructor.
    + rewrite <- (hit_match_at name pre), Hm. by intros [x Hx].
    + apply IH. cbn [length] in Hn. lia.
Qed.

Lemma scheme_free_test (name : string) (s : jsstring) :
  scheme_free name s <-> test (re_scheme name) s = false.
Proof.
  rewrite <- not_true_iff_false, test_spec. unfold scheme_free, hit.
  setoid_rewrite lang_re_scheme. split.
  - intros Hfree (u & w & post & -> & Hw). apply (Hfree u (w ++ post)); eauto.
  - intros Hno u v -> (w & post & -> & Hw). apply Hno. eauto.
Qed.

End SchemeWords.

(** X3. The text [sanitizeHtml] returns holds no [javascript:], [data:]
    or [vbscript:] scheme, in whatever case and with whatever whitespace
    before the colon: none of the three patterns it replaces matches its
    result. *)
Theorem sanitizeHtml_removes_schemes (html : jsstring) :
  let out := sanitizeHtml (VString html) in
  test (re_scheme "javascript") out = false
  /\ test (re_scheme "data") out = false
  /\ test (re_scheme "vbscript") out = false.
Proof.
  cbn zeta. rewrite <- !scheme_free_test. unfold sanitizeHtml, replace_all.
  set (h3 := replace_loop _ re_handler_bare _ _ _).
  set (h4 := replace_loop _ (re_scheme "javascript") _ _ h3).
  set (h5 := replace_loop _ (re_scheme "data") _ _ h4).
  assert (H4 : replaced (hit "javascript") (lit "blocked:") h3 h4) by (apply replace_scheme; lia).
  assert (H5 : replaced (hit "data") (lit "blocked:") h4 h5) by (apply replace_scheme; lia).
  pose proof (replace_scheme "vbscript" (S (length h5)) [] h5 (Nat.lt_succ_diag_r _)) as H6.
  assert (Hj : known "javascript") by (by left).
  assert (Hd : known "data") by (right; by left).
  assert (Hv : known "vbscript") by (right; by right).
  assert (F4 : scheme_free "javascript" h4) by (by apply (replaced_scheme_free _ h3)).
  assert (F5j : scheme_free "javascript" h5).
  { apply (replaced_scheme_free _ h4); [done|]. by apply (replaced_other (hit "data")). }
  assert (F5d : scheme_free "data" h5) by (by apply (replaced_scheme_free _ h4)).
  split; [|split]; apply (replaced_scheme_free _ h5); try done;
    by apply (replaced_other (hit "vbscript")).
Qed.

Section PlainText.

(** A character of a pattern that is not a letter is matched by itself
    only, whatever the case flag. *)
Lemma folds_to_head (a : Ascii.ascii) (s : string) (w : jsstring) (x : N) :
  folds_to (String a s) w -> x = Ascii.N_of_ascii a ->
  (x < 65 \/ 122 < x \/ 90 < x < 97)%N ->
  exists w', w = x :: w'.
Proof.
  unfold folds_to. cbn [lit]. intros H -> Hx.
  set (x := Ascii.N_of_ascii a) in *.
  inversion H as [|c a' w' l' Hc Hw]; subst. exists w'. f_equal.
  assert (Hcx : canonicalize x = x).
  { unfold canonicalize, is_lower.
    destruct (N.leb_spec 97 x), (N.leb_spec x 122); cbn [andb]; lia. }
  rewrite Hcx in Hc. apply canonicalize_fixed; [done|lia].
Qed.

Lemma script_block_has_bracket (pre w post : jsstring) :
  lang re_script_block pre w post -> exists c, c ∈ w /\ structural c.
Proof.
  unfold re_script_block. cbn [lang].
  intros (w1 & w2 & -> & Hw1 & _). apply lang_lit_i in Hw1.
  apply (folds_to_head _ _ _ (chr "<")) in Hw1 as (w' & ->); [|done|vm_compute; by left].
  exists (chr "<"). split; [apply list_elem_of_here|by left].
Qed.

Lemma handler_quoted_has_equals (pre w post : jsstring) :
  lang re_handler_quoted pre w post -> exists c, c ∈ w /\ structural c.
Proof.
  unfold re_handler_quoted. cbn [lang].
  intros (w1 & r1 & -> & _ & w2 & r2 & -> & _ & w3 & r3 & -> & _
          & w4 & r4 & -> & _ & w5 & r5 & -> & Hw5 & _).
  apply lang_lit_i in Hw5. apply (folds_to_head _ _ _ (chr "=")) in Hw5 as (w' & ->); [|done|vm_compute; by left].
  exists (chr "="). split; [|right; by left].
  rewrite !elem_of_app. do 4 right. left. apply list_elem_of_here.
Qed.

Lemma handler_bare_has_equals (pre w post : jsstring) :
  lang re_handler_bare pre w post -> exists c, c ∈ w /\ structural c.
Proof.
  unfold re_handler_bare. cbn [lang].
  intros (w1 & r1 & -> & _ & w2 & r2 & -> & _ & w3 & r3 & -> & _
          & w4 & r4 & -> & _ & w5 & r5 & -> & Hw5 & _).
  apply lang_lit_i in Hw5. apply (folds_to_head _ _ _ (chr "=")) in Hw5 as (w' & ->); [|done|vm_compute; by left].
  exists (chr "="). split; [|right; by left].
  rewrite !elem_of_app. do 4 right. left. apply list_elem_of_here.
Qed.

Lemma scheme_has_colon (name : string) (pre w post : jsstring) :
  lang (re_scheme name) pre w post -> exists c, c ∈ w /\ structural c.
Proof.
  intros Hw. apply lang_re_scheme, scheme_word_end in Hw as (w0 & ->).
  exists (chr ":"). split; [|right; by right].
  rewrite elem_of_app. right. apply list_elem_of_here.
Qed.

End PlainText.

(** X4. Text that has no [<], no [=] and no [:] comes back from
    [sanitizeHtml] unchanged: each of its six patterns needs one of the
    three characters. *)
Theorem sanitizeHtml_keeps_plain_text (html : jsstring) :
  chr "<" ∉ html -> chr "=" ∉ html -> chr ":" ∉ html ->
  sanitizeHtml (VString html) = html.
Proof.
  intros H1 H2 H3.
  assert (Hs : Forall (fun c => ~ structural c) html).
  { apply Forall_forall. intros c Hc [-> | [-> | ->]]; contradiction. }
  assert (E1 : forall n, replace_loop n re_script_block (fun _ => []) [] html = html).
  { intros n. by apply (replace_loop_no_match _ _ structural), Hs;
      exact script_block_has_bracket. }
  assert (E2 : forall n, replace_loop n re_handler_quoted (fun _ => []) [] html = html).
  { intros n. by apply (replace_loop_no_match _ _ structural), Hs;
      exact handler_quoted_has_equals. }
  assert (E3 : forall n, replace_loop n re_handler_bare (fun _ => []) [] html = html).
  { intros n. by apply (replace_loop_no_match _ _ structural), Hs;
      exact handler_bare_has_equals. }
  assert (E4 : forall name n,
             replace_loop n (re_scheme name) (fun _ => lit "blocked:") [] html = html).
  { intros name n. by apply (replace_loop_no_match _ _ structural), Hs;
      exact (scheme_has_colon name). }
  unfold sanitizeHtml, replace_all. by rewrite !E1, !E2, !E3, !E4.
Qed.

Lemma sanitizeHtml_keeps_plain_text_witness :
  sanitizeHtml (VString (lit "Terms & conditions, 2026")) = lit "Terms & conditions, 2026".
Proof.
  apply sanitizeHtml_keeps_plain_text;
    (eapply bool_decide_unpack; vm_compute; exact I).
Defined.

Section Escape.

Lemma length_entity (c : N) : (1 <= length (entity c))%nat.
Proof.
  destruct (entity_cases c) as [[He _]|[-> _]]; [|done].
  apply entities_shape in He as (t & -> & _). cbn [length]. lia.
Qed.

Lemma flat_map_entity_id (s : jsstring) :
  flat_map entity s = s <-> Forall (fun c => escape_class c = false) s.
Proof.
  split.
  - intros Heq. apply Forall_forall. intros c Hc.
    destruct (escape_class c) eqn:Hcls; [exfalso|done].
    assert (Hlen : forall t : jsstring, (length t <= length (flat_map entity t))%nat).
    { induction t as [|x t IH]; [done|]. cbn [flat_map]. rewrite length_app.
      pose proof (length_entity x). cbn [length]. lia. }
    assert (Hgrow : forall t : jsstring, c ∈ t -> (length t < length (flat_map entity t))%nat).
    { induction t as [|x t IH]; [by intros ?%elem_of_nil|].
      cbn [flat_map]. rewrite length_app. cbn [length]. intros [Hx|Hin]%elem_of_cons.
      - subst x. destruct (entity_cases c) as [[He _]|[_ Hno]]; [|congruence].
        assert (2 <= length (entity c))%nat.
        { revert He. unfold entities. rewrite !elem_of_cons, elem_of_nil.
          intros [->|[->|[->|[->|[->|[->|[]]]]]]]; cbn; lia. }
        pose proof (Hlen t). lia.
      - pose proof (length_entity x). specialize (IH Hin). lia. }
    specialize (Hgrow s Hc). rewrite Heq in Hgrow. lia.
  - induction 1 as [|c s Hc _ IH]; [done|]. cbn [flat_map].
    destruct (entity_cases c) as [[_ Hyes]|[-> _]]; [congruence|].
    by rewrite IH.
Qed.

Ltac by_entity c :=
  destruct (N.eqb_spec c (chr "&")) as [->|?];
  [|destruct (N.eqb_spec c (chr "<")) as [->|?];
    [|destruct (N.eqb_spec c (chr ">")) as [->|?];
      [|destruct (N.eqb_spec c dquote) as [->|?];
        [|destruct (N.eqb_spec c (chr "'")) as [->|?];
          [|destruct (N.eqb_spec c (chr "/")) as [->|?]]]]]].

Lemma entity_inj (c c' : N) : entity c = entity c' -> c = c'.
Proof.
  unfold entity. by_entity c; by_entity c'; intros H; try done;
    try (by vm_compute in H); by injection H.
Qed.

(** The text after an entity is determined by the whole. *)
Lemma entity_app_inj (c c' : N) (r r' : jsstring) :
  entity c ++ r = entity c' ++ r' -> c = c' /\ r = r'.
Proof.
  intros Heq. assert (Hsame : entity c = entity c' /\ r = r').
  { revert Heq.
    destruct (entity_cases c) as [[He Hc]|[He Hc]],
             (entity_cases c') as [[He' Hc']|[He' Hc']].
    - revert He He'. unfold entities. rewrite !elem_of_cons, !elem_of_nil.
      intros [Ha|[Ha|[Ha|[Ha|[Ha|[Ha|[]]]]]]] [Hb|[Hb|[Hb|[Hb|[Hb|[Hb|[]]]]]]];
        rewrite Ha, Hb; intros Heq; try (by vm_compute in Heq);
        (split; [done|]); by apply app_inv_head in Heq.
    - rewrite He'. apply entities_shape in He as (t & -> & _). cbn [app].
      intros [= <- _]. by vm_compute in Hc'.
    - rewrite He. apply entities_shape in He' as (t & -> & _). cbn [app].
      intros [= -> _]. by vm_compute in Hc.
    - rewrite He, He'. cbn [app]. by intros [= -> ->]. }
  destruct Hsame as [He ->]. split; [|done]. by apply entity_inj.
Qed.

Lemma flat_map_entity_inj (s : jsstring) :
  forall s', flat_map entity s = flat_map entity s' -> s = s'.
Proof.
  induction s as [|c s IH]; intros [|c' s']; cbn [flat_map].
  - done.
  - intros Heq. pose proof (length_entity c'). apply (f_equal length) in Heq.
    rewrite length_app in Heq. cbn [length] in Heq. lia.
  - intros Heq. pose proof (length_entity c). apply (f_equal length) in Heq.
    rewrite length_app in Heq. cbn [length] in Heq. lia.
  - intros Heq. apply entity_app_inj in Heq as [-> Heq]. f_equal. by apply IH.
Qed.

End Escape.

(** X1. [escapeHtml] returns a string unchanged exactly when the string
    has none of the six characters of its pattern; so escaping an escaped
    string changes it again unless it had none of them. *)
Theorem escapeHtml_fixed_points (s : jsstring) :
  (escapeHtml (VString s) = s <-> Forall (fun c => escape_class c = false) s)
  /\ (escapeHtml (VString (escapeHtml (VString s))) = escapeHtml (VString s)
      <-> escapeHtml (VString s) = s).
Proof.
  rewrite !escapeHtml_string. split; [apply flat_map_entity_id|].
  split.
  - intros Heq. by apply flat_map_entity_inj in Heq.
  - intros Heq. by rewrite !Heq.
Qed.

(** X2. [escapeHtml] loses nothing: two strings with the same escaped
    text are the same string. *)
Theorem escapeHtml_injective (s s' : jsstring) :
  escapeHtml (VString s) = escapeHtml (VString s') -> s = s'.
Proof. rewrite !escapeHtml_string. apply flat_map_entity_inj. Qed.

Lemma escapeHtml_injective_witness : lit "a<b" = lit "a<b".
Proof. apply (escapeHtml_injective (lit "a<b") (lit "a<b")). reflexivity. Defined.

(** ** Tokens, field marks and the submission store *)

Section TokenText.

Lemma hex_digit_char (d : N) : (d < 16)%N -> hex_char (hex_digit d).
Proof. unfold hex_digit, hex_char. destruct (N.ltb_spec d 10); lia. Qed.

Lemma hex_byte_chars (b : N) :
  (b < 256)%N -> Forall hex_char (padStart 2 (chr "0") (toString16 b)).
Proof.
  intros Hb. unfold padStart, toString16.
  assert (Hq : (b / 16 < 16)%N) by (apply N.Div0.div_lt_upper_bound; lia).
  assert (Hr : (b mod 16 < 16)%N) by (apply N.mod_lt; lia).
  destruct (N.ltb_spec b 16); cbn [length replicate Nat.sub app].
  - constructor; [|constructor; [by apply hex_digit_char|constructor]].
    unfold hex_char. change (chr "0") with 48%N. lia.
  - constructor; [|constructor; [|constructor]]; by apply hex_digit_char.
Qed.

Lemma hex_chars (bytes : list N) :
  Forall (fun b => (b < 256)%N) bytes -> Forall hex_char (hex bytes).
Proof.
  unfold hex. induction 1 as [|b bytes Hb _ IH]; [constructor|].
  cbn [map concat]. apply Forall_app. split; [by apply hex_byte_chars|done].
Qed.

Lemma length_drawn_from (e : nat -> N) (used : nat) :
  length (drawn_from e used) = 32%nat.
Proof. unfold drawn_from. by rewrite length_map, length_seq. Qed.

Lemma length_drawn (s : State) : length (drawn s) = 32%nat.
Proof. apply length_drawn_from. Qed.

End TokenText.

(** X7. [generateCSRFToken] returns 64 characters, each a digit or one of
    [a] to [f]; it spends 32 values of the random source and writes
    neither storage area. *)
Theorem generateCSRFToken_hex64 (s : State) :
  exists token,
    outcome generateCSRFToken s = Normal token
    /\ length token = 64%nat
    /\ Forall hex_char token
    /\ entropyUsed (after generateCSRFToken s) = (entropyUsed s + 32)%nat
    /\ sessionStorage (after generateCSRFToken s) = sessionStorage s
    /\ localStorage (after generateCSRFToken s) = localStorage s.
Proof.
  exists (hex (drawn s)). unfold outcome, after. rewrite generateCSRFToken_run. fields.
  split; [done|]. split; [by rewrite hex_length, length_drawn_from|].
  split; [apply hex_chars, (drawn_bytes s)|done].
Qed.

(** X8. Two calls of [generateCSRFToken] return the same token exactly
    when the random source gave them the same 32 bytes: the two-digit
    padding keeps the hexadecimal text of different bytes apart. *)
Theorem generateCSRFToken_injective (s s' : State) :
  outcome generateCSRFToken s = outcome generateCSRFToken s' <-> drawn s = drawn s'.
Proof.
  unfold outcome. rewrite !generateCSRFToken_run. cbn [fst]. split.
  - intros [= Heq]. apply hex_inj; auto using drawn_bytes.
  - by intros ->.
Qed.

(** X9. After [initCSRFToken] the session store holds the token it
    returns, which is not empty, and the hidden field of the form, where
    the page has one, holds it as its value and, being a hidden input,
    as its default value; the field is otherwise as it was and so is
    every other control. On a page without the field nothing is thrown
    and no control changes. The submission store is not written. *)
Theorem initCSRFToken_syncs (s : State) :
  exists token,
    outcome initCSRFToken s = Normal token
    /\ token <> []
    /\ sessionStorage (after initCSRFToken s) !! "csrf_token" = Some token
    /\ (forall c, controls s !! "csrf_token" = Some c ->
          exists c', controls (after initCSRFToken s) = <["csrf_token" := c']> (controls s)
                     /\ c_value c' = token /\ c_defaultValue c' = token
                     /\ c_checked c' = c_checked c
                     /\ c_defaultChecked c' = c_defaultChecked c
                     /\ c_classes c' = c_classes c /\ c_next c' = c_next c)
    /\ (controls s !! "csrf_token" = None ->
          controls (after initCSRFToken s) = controls s)
    /\ localStorage (after initCSRFToken s) = localStorage s.
Proof.
  unfold outcome, after.
  destruct (falsy (sessionStorage s !! "csrf_token")) eqn:Hf.
  - exists (hex (drawn s)). rewrite initCSRFToken_absent by done. fields.
    split; [done|]. split.
    { intros Heq. apply (f_equal length) in Heq.
      by rewrite hex_length, length_drawn_from in Heq. }
    split; [apply lookup_insert_eq|].
    split; [|split; [by intros ->|done]].
    intros c ->. by exists (set_value_attribute (hex (drawn_from (entropy s) (entropyUsed s))) c).
  - apply falsy_false in Hf as (token & Hs & Hne).
    exists token. rewrite (initCSRFToken_stored s token) by done. fields.
    split; [done|]. split; [done|]. split; [done|].
    split; [|split; [by intros ->|done]].
    intros c ->. by exists (set_value_attribute token c).
Qed.

Section Marking.

Lemma classList_add_elem (x y : string) (l : list string) :
  y ∈ classList_add x l <-> y = x \/ y ∈ l.
Proof.
  unfold classList_add. case_bool_decide as Hx.
  - split; [by right|]. by intros [->|?].
  - rewrite elem_of_app, list_elem_of_singleton. tauto.
Qed.

Lemma classList_remove_elem (x y : string) (l : list string) :
  y ∈ classList_remove x l <-> y <> x /\ y ∈ l.
Proof. unfold classList_remove. rewrite list_elem_of_filter. tauto. Qed.

Lemma classList_remove_absent (x : string) (l : list string) :
  x ∉ l -> classList_remove x l = l.
Proof.
  unfold classList_remove. induction l as [|y l IH]; [done|].
  rewrite not_elem_of_cons. intros [Hne Hl]. rewrite filter_cons.
  case_decide; [by rewrite IH|congruence].
Qed.

Lemma classList_add_present (x : string) (l : list string) :
  x ∈ l -> classList_add x l = l.
Proof. unfold classList_add. intros Hx. by rewrite bool_decide_eq_true_2. Qed.

(** Swapping one class for another, twice, is swapping it once. *)
Lemma swap_class_twice (x y : string) (l : list string) :
  x <> y ->
  classList_add x (classList_remove y (classList_add x (classList_remove y l)))
  = classList_add x (classList_remove y l).
Proof.
  intros Hne. set (l2 := classList_add x (classList_remove y l)).
  assert (Hx : x ∈ l2) by (apply classList_add_elem; by left).
  assert (Hy : y ∉ l2).
  { unfold l2. rewrite classList_add_elem, classList_remove_elem. intros [?|[? _]]; congruence. }
  by rewrite classList_remove_absent, classList_add_present.
Qed.

Lemma show_feedback_twice (msg : jsstring) (fb : Feedback) :
  show_feedback msg (show_feedback msg fb) = show_feedback msg fb.
Proof.
  unfold show_feedback.
  destruct (classList_contains _ (fb_classes fb)) eqn:H; cbn [fb_classes]; by rewrite H.
Qed.

Lemma hide_feedback_twice (fb : Feedback) :
  hide_feedback (hide_feedback fb) = hide_feedback fb.
Proof.
  unfold hide_feedback.
  destruct (classList_contains _ (fb_classes fb)) eqn:H; cbn [fb_classes]; by rewrite H.
Qed.

Lemma mark_field_twice (ok : bool) (msg : jsstring) (c : Control) :
  mark_field ok msg (mark_field ok msg c) = mark_field ok msg c.
Proof.
  unfold mark_field, set_next, set_classes. destruct ok;
    cbn [c_value c_defaultValue c_checked c_defaultChecked c_classes c_next];
    rewrite swap_class_twice by done; f_equal;
    destruct (c_next c) as [fb|]; cbn [fmap option_fmap option_map]; f_equal;
    [apply hide_feedback_twice | apply show_feedback_twice].
Qed.

Lemma mark_field_value (ok : bool) (msg : jsstring) (c : Control) :
  c_value (mark_field ok msg c) = c_value c.
Proof. by destruct ok. Qed.

End Marking.

(** X10. [validateField] changes the one control it is given, and of that
    only the validity classes and the feedback element: the control comes
    out with the class [is-valid] exactly when the verdict is [true],
    with [is-invalid] exactly when it is [false], and with its other
    classes and its value as before. The storage areas, the message box
    and the submit button are not touched. *)
Theorem validateField_marks (s : State) (field : string) (c : Control) :
  controls s !! field = Some c ->
  exists ok c',
    outcome (validateField field) s = Normal ok
    /\ controls (after (validateField field) s) = <[field := c']> (controls s)
    /\ c_value c' = c_value c /\ c_checked c' = c_checked c
    /\ ("is-valid" ∈ c_classes c' <-> ok = true)
    /\ ("is-invalid" ∈ c_classes c' <-> ok = false)
    /\ (forall x, x <> "is-valid" -> x <> "is-invalid" ->
          (x ∈ c_classes c' <-> x ∈ c_classes c))
    /\ localStorage (after (validateField field) s) = localStorage s
    /\ sessionStorage (after (validateField field) s) = sessionStorage s
    /\ formMessage (after (validateField field) s) = formMessage s
    /\ submitButton (after (validateField field) s) = submitButton s.
Proof.
  intros Hc. unfold outcome, after. rewrite validateField_run, Hc. cbn zeta. fields.
  destruct (validation_rule field (trim (c_value c))) as [ok msg]. cbn [fst snd].
  exists ok, (mark_field ok msg c). split; [done|]. split; [done|].
  split; [by destruct ok|]. split; [by destruct ok|].
  unfold mark_field, set_next, set_classes.
  destruct ok; cbn [c_classes]; (split; [|split; [|split; [|done]]]).
  - rewrite classList_add_elem. split; [done|]. by left.
  - rewrite classList_add_elem, classList_remove_elem. split; [|done].
    intros [?|[? _]]; congruence.
  - intros x H1 H2. rewrite classList_add_elem, classList_remove_elem. tauto.
  - rewrite classList_add_elem, classList_remove_elem. split; [|done].
    intros [?|[? _]]; congruence.
  - rewrite classList_add_elem. split; [done|]. by left.
  - intros x H1 H2. rewrite classList_add_elem, classList_remove_elem. tauto.
Qed.

Lemma validateField_marks_witness :
  exists ok c',
    outcome (validateField "email") (fresh_page 0) = Normal ok
    /\ controls (after (validateField "email") (fresh_page 0))
       = <["email" := c']> (controls (fresh_page 0))
    /\ c_value c' = c_value (text_control "john@example.com")
    /\ c_checked c' = c_checked (text_control "john@example.com")
    /\ ("is-valid" ∈ c_classes c' <-> ok = true)
    /\ ("is-invalid" ∈ c_classes c' <-> ok = false)
    /\ (forall x, x <> "is-valid" -> x <> "is-invalid" ->
          (x ∈ c_classes c' <-> x ∈ c_classes (text_control "john@example.com")))
    /\ localStorage (after (validateField "email") (fresh_page 0)) = localStorage (fresh_page 0)
    /\ sessionStorage (after (validateField "email") (fresh_page 0))
       = sessionStorage (fresh_page 0)
    /\ formMessage (after (validateField "email") (fresh_page 0)) = formMessage (fresh_page 0)
    /\ submitButton (after (validateField "email") (fresh_page 0))
       = submitButton (fresh_page 0).
Proof.
  apply (validateField_marks (fresh_page 0) "email" (text_control "john@example.com")).
  reflexivity.
Defined.

(** X11. Validating a field a second time, its value unchanged, gives the
    same verdict and leaves every control as the first validation left
    it. *)
Theorem validateField_idempotent (s : State) (field : string) :
  let s1 := after (validateField field) s in
  outcome (validateField field) s1 = outcome (validateField field) s
  /\ controls (after (validateField field) s1) = controls s1.
Proof.
  cbn zeta. unfold outcome, after. rewrite (validateField_run field s).
  destruct (controls s !! field) as [c|] eqn:Hc; cbn zeta; fields.
  - rewrite validateField_run. fields. rewrite lookup_insert_eq. cbn zeta. fields.
    rewrite mark_field_value.
    destruct (validation_rule field (trim (c_value c))) as [ok msg]. cbn [fst snd].
    split; [done|]. by rewrite insert_insert_eq, mark_field_twice.
  - rewrite validateField_run. fields. by rewrite Hc.
Qed.

Section Trim.

Lemma trimStart_app_ws (ws x : jsstring) :
  Forall (fun c => is_whitespace c = true) ws -> trimStart (ws ++ x) = trimStart x.
Proof. induction 1 as [|c ws Hc _ IH]; [done|]. cbn [app trimStart]. by rewrite Hc. Qed.

Lemma trimStart_ws (ws : jsstring) :
  Forall (fun c => is_whitespace c = true) ws -> trimStart ws = [].
Proof.
  intros H. rewrite <- (app_nil_r ws). by rewrite trimStart_app_ws.
Qed.

Lemma trimStart_app (v x : jsstring) :
  trimStart v <> [] -> trimStart (v ++ x) = trimStart v ++ x.
Proof.
  induction v as [|c v IH]; [done|]. cbn [app trimStart].
  destruct (is_whitespace c); [exact IH|done].
Qed.

Lemma trimStart_all_ws (v : jsstring) :
  trimStart v = [] -> Forall (fun c => is_whitespace c = true) v.
Proof.
  induction v as [|c v IH]; [constructor|]. cbn [trimStart].
  destruct (is_whitespace c) eqn:Hc; [|done]. intros H. constructor; auto.
Qed.

Lemma trimEnd_app_ws (x ws : jsstring) :
  Forall (fun c => is_whitespace c = true) ws -> trimEnd (x ++ ws) = trimEnd x.
Proof.
  intros H. unfold trimEnd. rewrite rev_app_distr, trimStart_app_ws; [done|].
  by apply Forall_rev.
Qed.

(** Whitespace around a value does not show in the trimmed value. *)
Lemma trim_outer_ws (lead v trail : jsstring) :
  Forall (fun c => is_whitespace c = true) lead ->
  Forall (fun c => is_whitespace c = true) trail ->
  trim (lead ++ v ++ trail) = trim v.
Proof.
  intros Hl Ht. unfold trim. rewrite trimStart_app_ws by done.
  destruct (trimStart v) as [|c t] eqn:Hv.
  - apply trimStart_all_ws in Hv. rewrite trimStart_ws; [done|].
    apply Forall_app. by split.
  - rewrite trimStart_app by (by rewrite Hv). rewrite Hv. by apply trimEnd_app_ws.
Qed.

End Trim.

(** X12. Whitespace typed before or after a value does not change the
    verdict of [validateField]: the rules look at the trimmed value. *)
Theorem validateField_ignores_outer_whitespace (s : State) (field : string)
    (c : Control) (lead trail : jsstring) :
  controls s !! field = Some c ->
  Forall (fun x => is_whitespace x = true) lead ->
  Forall (fun x => is_whitespace x = true) trail ->
  outcome (validateField field) (typed field (lead ++ c_value c ++ trail) s)
  = outcome (validateField field) s.
Proof.
  intros Hc Hl Ht. unfold outcome, typed. rewrite Hc, !validateField_run. fields.
  rewrite lookup_insert_eq, Hc. cbn zeta. cbn [fst c_value set_value].
  by rewrite trim_outer_ws.
Qed.

Lemma validateField_ignores_outer_whitespace_witness :
  outcome (validateField "name")
    (typed "name" (lit "  " ++ lit "John Doe" ++ lit " ") (fresh_page 0))
  = outcome (validateField "name") (fresh_page 0).
Proof.
  apply (validateField_ignores_outer_whitespace (fresh_page 0) "name"
           (text_control "John Doe") (lit "  ") (lit " ")).
  - reflexivity.
  - repeat constructor.
  - repeat constructor.
Defined.

Section Store.

Lemma push_keep_last_cases (l : list Z) (now : Z) :
  ((length l < 10)%nat /\ push_keep_last l now = l ++ [now])
  \/ ((10 <= length l)%nat /\ push_keep_last l now = drop 1 (l ++ [now])).
Proof.
  unfold push_keep_last. rewrite length_app. cbn [length].
  destruct (10 <? length l + 1)%nat eqn:H; [apply Nat.ltb_lt in H|apply Nat.ltb_ge in H].
  - right. split; [lia|]. by destruct (l ++ [now]).
  - left. split; [lia|done].
Qed.

(** What stands at the end of the store stays there when an entry is
    added. *)
Lemma push_keep_last_suffix (x l : list Z) (now : Z) :
  x `suffix_of` l -> (length x < 10)%nat ->
  (x ++ [now]) `suffix_of` push_keep_last l now.
Proof.
  intros [k ->] Hx.
  destruct (push_keep_last_cases (k ++ x) now) as [[_ ->]|[Hlen ->]].
  - exists k. by rewrite <- app_assoc.
  - destruct k as [|c k].
    + cbn [app] in Hlen. lia.
    + exists k. cbn [app drop]. by rewrite drop_0, <- app_assoc.
Qed.

Lemma filter_length_suffix {A} (P : A -> Prop) `{!forall x, Decision (P x)}
    (x l : list A) :
  x `suffix_of` l -> Forall P x -> (length x <= length (filter P l))%nat.
Proof.
  intros [k ->] Hall. rewrite filter_app, length_app.
  assert (filter P x = x) as ->; [|lia].
  induction Hall as [|a x Ha _ IH]; [done|]. rewrite filter_cons.
  case_decide; [by rewrite IH|done].
Qed.

Lemma filter_length_lt {A} (P Q : A -> Prop) `{!forall x, Decision (P x)}
    `{!forall x, Decision (Q x)} (l : list A) (a : A) :
  (forall x, Q x -> P x) -> a ∈ l -> P a -> ~ Q a ->
  (length (filter Q l) < length (filter P l))%nat.
Proof.
  intros Hqp Hin Hpa Hqa.
  assert (Hle : forall l : list A, (length (filter Q l) <= length (filter P l))%nat).
  { clear -Hqp. induction l as [|x l IH]; [done|]. rewrite !filter_cons.
    repeat case_decide; cbn [length]; try lia. exfalso. auto. }
  induction l as [|x l IH]; [by apply elem_of_nil in Hin|].
  rewrite !filter_cons. apply elem_of_cons in Hin as [<-|Hin].
  - specialize (Hle l). repeat case_decide; cbn [length]; try done; lia.
  - specialize (IH Hin). repeat case_decide; cbn [length]; try lia. exfalso. auto.
Qed.

End Store.

(** X15. Three submissions recorded within an hour use up the limit: however
    the store was before, a check made less than 3,600,000 ms after the
    first of three recordings denies. *)
Theorem three_recorded_submissions_deny (s : State) (d1 d2 d3 : Z) :
  (0 <= d1)%Z -> (0 <= d2)%Z -> (0 <= d3)%Z -> (d1 + d2 + d3 < 3600000)%Z ->
  exists r,
    outcome (recordSubmission;; elapse d1;; recordSubmission;; elapse d2;;
             recordSubmission;; elapse d3;; checkRateLimit) s = Normal r
    /\ allowed r = false.
Proof.
  intros H1 H2 H3 Hsum. unfold outcome. exec. cbn [parse_submissions default]. unfold id.
  set (l0 := parse_submissions (localStorage s !! "form_submissions")).
  set (t := clock s).
  set (l3 := push_keep_last (push_keep_last (push_keep_last l0 t) (t + d1)) (t + d1 + d2)).
  eexists. split; [reflexivity|].
  assert (Hsuf : [t; (t + d1)%Z; (t + d1 + d2)%Z] `suffix_of` l3).
  { apply (push_keep_last_suffix [t; (t + d1)%Z]); [|cbn; lia].
    apply (push_keep_last_suffix [t]); [|cbn; lia].
    apply (push_keep_last_suffix []); [|cbn; lia].
    apply suffix_nil. }
  unfold rate_limit.
  assert (Hlen : (3 <= length (filter (fun timestamp => (t + d1 + d2 + d3 - timestamp < oneHour)%Z) l3))%nat).
  { apply (filter_length_suffix _ [t; (t + d1)%Z; (t + d1 + d2)%Z]); [done|].
    unfold oneHour. repeat constructor; lia. }
  apply Nat.leb_le in Hlen. by rewrite Hlen.
Qed.

Lemma three_recorded_submissions_deny_witness :
  exists r,
    outcome (recordSubmission;; elapse 1000;; recordSubmission;; elapse 1000;;
             recordSubmission;; elapse 1000;; checkRateLimit) (fresh_page 0) = Normal r
    /\ allowed r = false.
Proof.
  apply (three_recorded_submissions_deny (fresh_page 0) 1000 1000 1000); lia.
Defined.

(** X16. The wait that a denial announces is long enough for the earliest
    counted entry: after that many minutes fewer entries are counted, and
    where three were counted the check allows. *)
Theorem checkRateLimit_wait_suffices (s : State) :
  let stored := parse_submissions (localStorage s !! "form_submissions") in
  let recent := counted stored (clock s) in
  (3 <= length recent)%nat ->
  exists r minutes,
    outcome checkRateLimit s = Normal r
    /\ allowed r = false
    /\ message r = Some (lit "Rate limit exceeded. Please try again in "
                         ++ decimal minutes ++ lit " minute(s).")
    /\ let later := after (elapse (60000 * minutes)) s in
       (length (counted stored (clock later)) < length recent)%nat
       /\ ((length recent = 3)%nat ->
           exists r', outcome checkRateLimit later = Normal r' /\ allowed r' = true).
Proof.
  intros stored recent H3.
  assert (Hne : recent <> []) by (intros Heq; rewrite Heq in H3; cbn in H3; lia).
  destruct (Math_min_spec recent Hne) as [Hin Hall].
  set (minutes := Math_ceil_div (Math_min recent + oneHour - clock s) 60000).
  pose proof (Math_ceil_div_spec (Math_min recent + oneHour - clock s) 60000 eq_refl) as Hceil.
  fold minutes in Hceil.
  exists (rate_limit stored (clock s)), minutes.
  unfold outcome, after. rewrite checkRateLimit_run, elapse_run. fields.
  assert (Hr : rate_limit stored (clock s) =
               mkRateLimit false
                 (Some (lit "Rate limit exceeded. Please try again in "
                        ++ decimal minutes ++ lit " minute(s)."))).
  { unfold rate_limit. change (filter _ stored) with recent.
    apply Nat.leb_le in H3 as H3'. by rewrite H3'. }
  fold stored. rewrite Hr. cbn [allowed message].
  split; [done|]. split; [done|]. split; [done|].
  assert (Hlt : (length (counted stored (clock s + 60000 * minutes)) < length recent)%nat).
  { unfold recent, counted.
    apply (filter_length_lt _ _ stored (Math_min recent)).
    - intros x Hx. apply list_elem_of_filter in Hin as [Hm _]. unfold oneHour in *. lia.
    - by apply list_elem_of_filter in Hin as [_ Hm].
    - by apply list_elem_of_filter in Hin as [Hm _].
    - unfold oneHour in *. lia. }
  split; [exact Hlt|].
  intros Heq. rewrite checkRateLimit_run. fields. fold stored.
  eexists. split; [reflexivity|]. unfold rate_limit.
  change (filter _ stored) with (counted stored (clock s + 60000 * minutes)).
  destruct (3 <=? _)%nat eqn:Hc; [|done]. apply Nat.leb_le in Hc. lia.
Qed.

Lemma checkRateLimit_wait_suffices_witness :
  let s := scenario "John Doe" "Hello, this is a test message." ""
             [1699999997000; 1699999998000; 1699999999000]%Z 1700000000000 in
  exists r minutes,
    outcome checkRateLimit s = Normal r
    /\ allowed r = false
    /\ message r = Some (lit "Rate limit exceeded. Please try again in "
                         ++ decimal minutes ++ lit " minute(s).")
    /\ let later := after (elapse (60000 * minutes)) s in
       (length (counted [1699999997000; 1699999998000; 1699999999000]%Z (clock later))
        < length (counted [1699999997000; 1699999998000; 1699999999000]%Z 1700000000000))%nat
       /\ ((length (counted [1699999997000; 1699999998000; 1699999999000]%Z 1700000000000)
            = 3)%nat ->
           exists r', outcome checkRateLimit later = Normal r' /\ allowed r' = true).
Proof.
  apply (checkRateLimit_wait_suffices
           (scenario "John Doe" "Hello, this is a test message." ""
              [1699999997000; 1699999998000; 1699999999000]%Z 1700000000000)).
  vm_compute. lia.
Defined.

(** ** Every path of the submit handler *)

Section Sent.

Lemma try_run {A} (body : M A) (handler : string -> M A) (final : M unit) (s : State) :
  try_catch_finally body handler final s =
  match body s with
  | (Normal a, s1) =>
      match final s1 with
      | (Normal _, s2) => (Normal a, s2)
      | (Throw e, s2) => (Throw e, s2)
      end
  | (Throw e, s1) =>
      match handler e s1 with
      | (o, s2) =>
          match final s2 with
          | (Normal _, s3) => (o, s3)
          | (Throw e', s3) => (Throw e', s3)
          end
      end
  end.
Proof.
  unfold try_catch_finally. destruct (body s) as [[a|e] s1]; [done|].
  by destruct (handler e s1).
Qed.

(** The runs of [initCSRFToken] and [showMessage], with the state they
    leave written field by field. *)
Lemma initCSRFToken_run (s : State) :
  initCSRFToken s =
  (Normal (if falsy (sessionStorage s !! "csrf_token") then hex (drawn s)
           else default [] (sessionStorage s !! "csrf_token")),
   mkState (localStorage s)
     (if falsy (sessionStorage s !! "csrf_token")
      then <["csrf_token" := hex (drawn s)]> (sessionStorage s) else sessionStorage s)
     (match controls s !! "csrf_token" with
      | Some c =>
          <["csrf_token" :=
              set_value_attribute (if falsy (sessionStorage s !! "csrf_token") then hex (drawn s)
                         else default [] (sessionStorage s !! "csrf_token")) c]> (controls s)
      | None => controls s
      end)
     (formMessage s) (submitButton s) (clock s) (entropy s)
     (if falsy (sessionStorage s !! "csrf_token") then entropyUsed s + 32 else entropyUsed s)%nat
     (timers s)
     (trace s ++
      [Call "initCSRFToken" ""; SessionGet "csrf_token"] ++
      (if falsy (sessionStorage s !! "csrf_token") then
         [Call "generateCSRFToken" ""; Random 32;
          SessionSet "csrf_token" (hex (drawn s));
          Console "log" "[Security] CSRF token generated" []]
       else []))).
Proof.
  destruct (falsy (sessionStorage s !! "csrf_token")) eqn:Hf.
  - rewrite initCSRFToken_absent by done. fields. done.
  - apply falsy_false in Hf as (token & Hs & Hne).
    rewrite (initCSRFToken_stored s token) by done. rewrite Hs. cbn [default].
    fields. by rewrite app_nil_r.
Qed.

Lemma showMessage_flat (type : string) (message : jsstring) (s : State) :
  showMessage type message s =
  (Normal tt,
   mkState (localStorage s) (sessionStorage s) (controls s)
     (match formMessage s with
      | Some _ => Some (mkMessageBox ("alert alert-" ++ type) message "block")
      | None => None
      end)
     (submitButton s) (clock s) (entropy s) (entropyUsed s)
     (match formMessage s with
      | Some _ =>
          if String.eqb type "success"
          then timers s ++ [((clock s + 5000)%Z, "hide form-message")]
          else timers s
      | None => timers s
      end)
     (trace s ++ [Call "showMessage" type])).
Proof. by rewrite showMessage_run. Qed.

End Sent.

Ltac run_more :=
  first [ rewrite showMessage_flat | run_fn | rewrite try_run | rewrite initCSRFToken_run
        | progress unfold form_reset, remove_validation_classes ].

Ltac fields_more :=
  fields; cbn [p_name p_email p_message p_csrf_token p_timestamp].

Ltac exec_more := fields_more; repeat (first [run_more | progress look]; fields_more).

Lemma handleSubmit_sent_of (s : State) (r : Outcome unit * State)
    (cn ce cm ct : Control) (b : Button) :
  handleSubmit s = r -> passes s cn ce cm ct b ->
  r.1 = Normal tt
  /\ transports (drop (length (trace s)) (trace r.2)) = [payload_of s cn ce cm ct]
  /\ localStorage r.2 = recorded s
  /\ clock r.2 = (clock s + 1500)%Z
  /\ submitButton r.2 = Some (released b)
  /\ formMessage r.2 = (fun _ => thanks) <$> formMessage s
  /\ controls r.2 =
     <["csrf_token" := set_value_attribute (session_token s) (cleared ct)]>
       (cleared <$> validated_controls s cn ce cm)
  /\ sessionStorage r.2 !! "csrf_token" = Some (session_token s)
  /\ timers r.2 =
     timers s ++ match formMessage s with
                 | Some _ => [((clock s + 1500 + 5000)%Z, "hide form-message")]
                 | None => []
                 end.
Proof.
  intros Hr (Hrl & Hn & He & Hm & (cp & Hp & Hc) & (ch & Hw & Hh) & Ht & Hb & H1 & H2 & H3).
  revert Hr.
  unfold handleSubmit. exec. rewrite Hrl. cbn [negb]. exec.
  rewrite Hc. cbn [negb]. exec. rewrite Hh. cbn [is_nil negb].
  rewrite H1, H2, H3. cbn [andb negb]. exec.
  rewrite Hb. exec. rewrite try_run. fields_more.
  do 4 (rewrite bind_run, read_value_run; fields_more; look; fields_more).
  repeat (run_more; fields_more).
  intros <-. cbn [fst snd localStorage sessionStorage controls formMessage submitButton
                  clock timers trace].
  split; [reflexivity|]. split.
  { rewrite <- !app_assoc, drop_app_length.
    destruct (falsy (sessionStorage s !! "csrf_token")); reflexivity. }
  split; [reflexivity|]. split; [reflexivity|]. split; [reflexivity|].
  split; [by destruct (formMessage s)|]. split.
  { rewrite <- map_fmap_compose.
    change (set_classes _ ∘ reset_control) with cleared.
    assert (Hlook : (cleared <$> validated_controls s cn ce cm) !! "csrf_token"
                    = Some (cleared ct)).
    { unfold validated_controls.
      by rewrite lookup_fmap, !lookup_insert_ne, Ht by done. }
    unfold validated_controls, validated in Hlook |- *. rewrite H1, H2, H3 in Hlook |- *.
    by rewrite Hlook. }
  split.
  { unfold session_token. destruct (falsy (sessionStorage s !! "csrf_token")) eqn:Hf.
    - unfold drawn. apply lookup_insert_eq.
    - apply falsy_false in Hf as (token & Hs & _). by rewrite Hs. }
  destruct (formMessage s); [reflexivity|by rewrite app_nil_r].
Qed.

(** The end of a path on which nothing was stored or sent. *)
Ltac rejected_leaf :=
  intros <-; left; fields;
  split; [reflexivity|]; split; [reflexivity|];
  split; [rewrite <- ?app_assoc, drop_app_length; reflexivity|];
  split; [reflexivity|];
  split; [first [left; reflexivity | right; reflexivity]|];
  rewrite ?lookup_insert_ne by done; first [reflexivity | assumption].

(** Every attempt is either rejected, with nothing stored, nothing sent
    and no time passed, or it passes every check. *)
Lemma handleSubmit_cases_of (s : State) (r : Outcome unit * State) :
  handleSubmit s = r ->
  (localStorage r.2 = localStorage s /\ sessionStorage r.2 = sessionStorage s
   /\ transports (drop (length (trace s)) (trace r.2)) = []
   /\ clock r.2 = clock s
   /\ (submitButton r.2 = submitButton s \/ submitButton r.2 = released <$> submitButton s)
   /\ controls r.2 !! "csrf_token" = controls s !! "csrf_token")
  \/ (exists cn ce cm ct b, passes s cn ce cm ct b).
Proof.
  unfold handleSubmit. exec.
  destruct (allowed _) eqn:Hrl; cbn [negb]; [|exec_more; rejected_leaf].
  destruct (controls s !! "name") as [cn|] eqn:Hn; [|exec; rejected_leaf].
  exec.
  destruct (controls s !! "email") as [ce|] eqn:He; [|exec; rejected_leaf].
  exec.
  destruct (controls s !! "message") as [cm|] eqn:Hm; [|exec; rejected_leaf].
  exec.
  destruct (controls s !! "privacy") as [cp|] eqn:Hp; [|exec; rejected_leaf].
  exec.
  destruct (c_checked cp) eqn:Hc; cbn [negb]; exec_more;
    (destruct (controls s !! "website") as [ch|] eqn:Hw; [|exec; rejected_leaf]);
    exec;
    (destruct (trim (c_value ch)) as [|x t] eqn:Hh; cbn [is_nil negb];
     [|exec_more; rejected_leaf]).
  - destruct (validation_rule "name" (trim (c_value cn))).1 eqn:H1;
      [|cbn [andb negb]; exec_more; rejected_leaf].
    destruct (validation_rule "email" (trim (c_value ce))).1 eqn:H2;
      [|cbn [andb negb]; exec_more; rejected_leaf].
    destruct (validation_rule "message" (trim (c_value cm))).1 eqn:H3;
      [|cbn [andb negb]; exec_more; rejected_leaf].
    cbn [andb negb].
    destruct (submitButton s) as [b|] eqn:Hb; [|exec; rejected_leaf].
    destruct (controls s !! "csrf_token") as [ct|] eqn:Ht.
    + intros _. right. exists cn, ce, cm, ct, b. unfold passes. rewrite Hrl.
      repeat split; try done; eauto.
    + exec_more. rejected_leaf.
  - cbn [negb]. exec_more. rejected_leaf.
Qed.

(** The end of a path: the checks that the log shows. *)
Ltac no_controls :=
  intros _ ([? ?] & [? ?] & [? ?] & [? ?] & [? ?]); congruence.

Ltac not_passing :=
  intros _ _; right; split; [|reflexivity];
  intros (cn' & ce' & cm' & ct' & b' & ? & ? & ? & ? & (cp' & ? & ?) & (ch' & ? & ?)
          & ? & ? & ? & ? & ?); congruence.

Ltac checks_leaf :=
  intros <-; fields; rewrite <- ?app_assoc, drop_app_length;
  split; [by eexists|];
  split; [intros ?; first [reflexivity | congruence]|];
  first [ intros ?; congruence | no_controls | not_passing ].

(** How far an attempt goes: to the rate-limit check where the limit
    denies; through the honeypot check where it admits, on a page with
    the controls; and to the network call exactly where the attempt
    passes. *)
Lemma handleSubmit_stages_of (s : State) (r : Outcome unit * State) :
  handleSubmit s = r ->
  [RateLimitCheck] `prefix_of` stages (drop (length (trace s)) (trace r.2))
  /\ (allowed (rate_limit (parse_submissions (localStorage s !! "form_submissions"))
                (clock s)) = false ->
      stages (drop (length (trace s)) (trace r.2)) = [RateLimitCheck])
  /\ (allowed (rate_limit (parse_submissions (localStorage s !! "form_submissions"))
                (clock s)) = true ->
      has_checked_controls s ->
      ((exists cn ce cm ct b, passes s cn ce cm ct b)
       /\ stages (drop (length (trace s)) (trace r.2)) = order_of_checks)
      \/ (~ (exists cn ce cm ct b, passes s cn ce cm ct b)
          /\ stages (drop (length (trace s)) (trace r.2)) = checks_before_sending)).
Proof.
  unfold handleSubmit. exec.
  destruct (allowed _) eqn:Hrl; cbn [negb]; [|exec_more; checks_leaf].
  destruct (controls s !! "name") as [cn|] eqn:Hn; [|exec; checks_leaf].
  exec.
  destruct (controls s !! "email") as [ce|] eqn:He; [|exec; checks_leaf].
  exec.
  destruct (controls s !! "message") as [cm|] eqn:Hm; [|exec; checks_leaf].
  exec.
  destruct (controls s !! "privacy") as [cp|] eqn:Hp; [|exec; checks_leaf].
  exec.
  destruct (c_checked cp) eqn:Hc; cbn [negb]; exec_more;
    (destruct (controls s !! "website") as [ch|] eqn:Hw; [|exec; checks_leaf]);
    exec;
    (destruct (trim (c_value ch)) as [|x t] eqn:Hh; cbn [is_nil negb];
     [|exec_more; checks_leaf]).
  - destruct (validation_rule "name" (trim (c_value cn))).1 eqn:H1;
      [|cbn [andb negb]; exec_more; checks_leaf].
    destruct (validation_rule "email" (trim (c_value ce))).1 eqn:H2;
      [|cbn [andb negb]; exec_more; checks_leaf].
    destruct (validation_rule "message" (trim (c_value cm))).1 eqn:H3;
      [|cbn [andb negb]; exec_more; checks_leaf].
    cbn [andb negb].
    destruct (submitButton s) as [b|] eqn:Hb; [|exec; checks_leaf].
    destruct (controls s !! "csrf_token") as [ct|] eqn:Ht.
    + exec. rewrite try_run. fields_more.
      do 4 (rewrite bind_run, read_value_run; fields_more; look; fields_more).
      repeat (run_more; fields_more).
      intros <-. fields. rewrite <- !app_assoc, drop_app_length.
      split; [by eexists|]. split; [intros ?; congruence|]. intros _ _. left.
      split.
      * exists cn, ce, cm, ct, b. unfold passes. rewrite Hrl.
        repeat split; try done; eauto.
      * destruct (falsy (sessionStorage s !! "csrf_token")); reflexivity.
    + exec_more. checks_leaf.
  - cbn [negb]. exec_more. checks_leaf.
Qed.

Section AfterSending.

Lemma validated_defaults (field : string) (c : Control) :
  c_defaultValue (validated field c) = c_defaultValue c
  /\ c_defaultChecked (validated field c) = c_defaultChecked c.
Proof. unfold validated, mark_field. cbn zeta. by destruct (validation_rule _ _).1. Qed.

Lemma cleared_control (c : Control) :
  c_value (cleared c) = c_defaultValue c
  /\ c_checked (cleared c) = c_defaultChecked c
  /\ ("is-valid" ∉ c_classes (cleared c))
  /\ ("is-invalid" ∉ c_classes (cleared c)).
Proof.
  unfold cleared, set_classes, reset_control. cbn [c_value c_checked c_classes].
  split; [done|]. split; [done|].
  rewrite !classList_remove_elem. split; intros [? [? ?]]; congruence.
Qed.

(** A control of the validated form has the defaults it had before. *)
Lemma validated_controls_lookup (s : State) (cn ce cm : Control) (field : string)
    (c : Control) :
  controls s !! "name" = Some cn -> controls s !! "email" = Some ce ->
  controls s !! "message" = Some cm -> controls s !! field = Some c ->
  exists c1, validated_controls s cn ce cm !! field = Some c1
             /\ c_defaultValue c1 = c_defaultValue c
             /\ c_defaultChecked c1 = c_defaultChecked c.
Proof.
  intros Hn He Hm Hc. unfold validated_controls.
  destruct (decide (field = "message")) as [->|H1].
  { rewrite lookup_insert_eq. eexists. split; [done|].
    assert (c = cm) as -> by congruence. apply validated_defaults. }
  rewrite lookup_insert_ne by done.
  destruct (decide (field = "email")) as [->|H2].
  { rewrite lookup_insert_eq. eexists. split; [done|].
    assert (c = ce) as -> by congruence. apply validated_defaults. }
  rewrite lookup_insert_ne by done.
  destruct (decide (field = "name")) as [->|H3].
  { rewrite lookup_insert_eq. eexists. split; [done|].
    assert (c = cn) as -> by congruence. apply validated_defaults. }
  rewrite lookup_insert_ne by done. by exists c.
Qed.

Lemma released_button (b : Button) :
  b_textContent (released b) = b_textContent b
  /\ b_disabled (released b) = false
  /\ (forall x, x <> "btn-loading" -> (x ∈ b_classes (released b) <-> x ∈ b_classes b))
  /\ ("btn-loading" ∉ b_classes (released b)).
Proof.
  unfold released. cbn [b_textContent b_disabled b_classes].
  split; [done|]. split; [done|]. split.
  - intros x Hx. rewrite classList_remove_elem, classList_add_elem. tauto.
  - rewrite classList_remove_elem. by intros [? _].
Qed.

Lemma handleSubmit_denied_of (s : State) (r : Outcome unit * State) :
  handleSubmit s = r ->
  allowed (rate_limit (parse_submissions (localStorage s !! "form_submissions"))
             (clock s)) = false ->
  r.1 = Normal tt
  /\ controls r.2 = controls s /\ localStorage r.2 = localStorage s
  /\ sessionStorage r.2 = sessionStorage s /\ submitButton r.2 = submitButton s
  /\ formMessage r.2 =
     (fun _ => mkMessageBox "alert alert-danger"
                 (default (lit "undefined")
                    (message (rate_limit
                                (parse_submissions (localStorage s !! "form_submissions"))
                                (clock s))))
                 "block") <$> formMessage s
  /\ drop (length (trace s)) (trace r.2) =
     [Call "handleSubmit" ""; Call "checkRateLimit" ""; LocalGet "form_submissions";
      Call "showMessage" "danger"; Console "warn" "[Security] Rate limit exceeded" []].
Proof.
  intros Hr Hrl. revert Hr. unfold handleSubmit. exec. rewrite Hrl. cbn [negb]. exec_more.
  intros <-. cbn [fst snd controls localStorage sessionStorage submitButton formMessage trace].
  repeat (split; [reflexivity|]).
  by rewrite <- !app_assoc, drop_app_length.
Qed.

End AfterSending.

(** C3, as the code has it. Every submit attempt makes the rate-limit
    check first, and no other check where the limit denies. Where the
    limit admits, on a page with the controls, the attempt validates the
    name, the email and the message, in this order, then checks the
    consent, then the honeypot; it goes on to attach the token and to
    call the network exactly when it passes all of these, and ends after
    the honeypot check when it does not. On any page the checks made are
    an initial part of this sequence of eight. *)
Theorem handleSubmit_order_of_checks (s : State) :
  let done := stages (new_events handleSubmit s) in
  let limit :=
    rate_limit (parse_submissions (localStorage s !! "form_submissions")) (clock s) in
  done `prefix_of` order_of_checks
  /\ [RateLimitCheck] `prefix_of` done
  /\ (allowed limit = false -> done = [RateLimitCheck])
  /\ (allowed limit = true -> has_checked_controls s ->
      ((exists cn ce cm ct b, passes s cn ce cm ct b) /\ done = order_of_checks)
      \/ (~ (exists cn ce cm ct b, passes s cn ce cm ct b)
          /\ done = checks_before_sending)).
Proof.
  cbn zeta. split; [apply handleSubmit_stages_prefix|].
  apply (handleSubmit_stages_of s (handleSubmit s) eq_refl).
Qed.

(** X17. An attempt that passes every check hands the transport one
    payload: the trimmed name, email and message, the value of the hidden
    token field, and the reading of the clock. It is recorded in the
    submission store 1500 ms later, when the transport has answered. *)
Theorem handleSubmit_sends_and_records (s : State) (cn ce cm ct : Control) (b : Button) :
  passes s cn ce cm ct b ->
  outcome handleSubmit s = Normal tt
  /\ transports (new_events handleSubmit s) =
     [mkPayload (trim (c_value cn)) (trim (c_value ce)) (trim (c_value cm))
        (c_value ct) (clock s)]
  /\ localStorage (after handleSubmit s) =
     <["form_submissions" :=
         push_keep_last (parse_submissions (localStorage s !! "form_submissions"))
           (clock s + 1500)]> (localStorage s)
  /\ clock (after handleSubmit s) = (clock s + 1500)%Z.
Proof.
  intros Hp.
  destruct (handleSubmit_sent_of s (handleSubmit s) cn ce cm ct b eq_refl Hp)
    as (H1 & H2 & H3 & H4 & _).
  unfold outcome, new_events, after. by rewrite H1, H2, H3, H4.
Qed.

Lemma handleSubmit_sends_and_records_witness :
  let s := scenario "John Doe" "Hello, this is a test message." "" [] 1700000000000 in
  outcome handleSubmit s = Normal tt
  /\ transports (new_events handleSubmit s) =
     [mkPayload (trim (c_value (text_control "John Doe")))
        (trim (c_value (text_control "john@example.com")))
        (trim (c_value (text_control "Hello, this is a test message.")))
        (c_value (mkControl token0 [] false false [] None)) (clock s)]
  /\ localStorage (after handleSubmit s) =
     <["form_submissions" :=
         push_keep_last (parse_submissions (localStorage s !! "form_submissions"))
           (clock s + 1500)]> (localStorage s)
  /\ clock (after handleSubmit s) = (clock s + 1500)%Z.
Proof.
  apply (handleSubmit_sends_and_records
           (scenario "John Doe" "Hello, this is a test message." "" [] 1700000000000)
           (text_control "John Doe") (text_control "john@example.com")
           (text_control "Hello, this is a test message.")
           (mkControl token0 [] false false [] None)
           (mkButton false ["btn"] (lit "Send Message"))).
  unfold passes. repeat split; try reflexivity.
  - exists (checkbox true). split; reflexivity.
  - exists (mkControl (lit "") [] false false [] None). split; reflexivity.
Defined.

(** X18. After an attempt that has passed, the form is as [form.reset()]
    leaves it and carries no validity class: every control but the hidden
    token field has its default value and default checked state; the
    hidden field holds the token of the session store; the message box
    shows the thanks, and its removal is scheduled 5000 ms later. *)
Theorem handleSubmit_resets_form (s : State) (cn ce cm ct : Control) (b : Button) :
  passes s cn ce cm ct b ->
  let s' := after handleSubmit s in
  (forall field c, field <> "csrf_token" -> controls s !! field = Some c ->
     exists c', controls s' !! field = Some c'
                /\ c_value c' = c_defaultValue c /\ c_checked c' = c_defaultChecked c
                /\ ("is-valid" ∉ c_classes c') /\ ("is-invalid" ∉ c_classes c'))
  /\ (exists token, sessionStorage s' !! "csrf_token" = Some token
                    /\ (c_value <$> controls s' !! "csrf_token") = Some token)
  /\ formMessage s' = (fun _ => thanks) <$> formMessage s
  /\ timers s' =
     timers s ++ match formMessage s with
                 | Some _ => [((clock s + 6500)%Z, "hide form-message")]
                 | None => []
                 end.
Proof.
  intros Hp. cbn zeta.
  destruct (handleSubmit_sent_of s (handleSubmit s) cn ce cm ct b eq_refl Hp)
    as (_ & _ & _ & _ & _ & Hbox & Hctl & Hses & Htim).
  destruct Hp as (_ & Hn & He & Hm & _).
  unfold after. rewrite Hctl, Hses, Hbox, Htim. split; [|split; [|split]].
  - intros field c Hne Hc. rewrite lookup_insert_ne, lookup_fmap by done.
    destruct (validated_controls_lookup s cn ce cm field c Hn He Hm Hc)
      as (c1 & -> & Hv & Hk).
    exists (cleared c1). split; [done|].
    destruct (cleared_control c1) as (-> & -> & ? & ?). by rewrite Hv, Hk.
  - exists (session_token s). split; [done|]. by rewrite lookup_insert_eq.
  - done.
  - f_equal. destruct (formMessage s); [|done]. do 2 f_equal. lia.
Qed.

Lemma handleSubmit_resets_form_witness :
  let s := scenario "John Doe" "Hello, this is a test message." "" [] 1700000000000 in
  let s' := after handleSubmit s in
  (forall field c, field <> "csrf_token" -> controls s !! field = Some c ->
     exists c', controls s' !! field = Some c'
                /\ c_value c' = c_defaultValue c /\ c_checked c' = c_defaultChecked c
                /\ ("is-valid" ∉ c_classes c') /\ ("is-invalid" ∉ c_classes c'))
  /\ (exists token, sessionStorage s' !! "csrf_token" = Some token
                    /\ (c_value <$> controls s' !! "csrf_token") = Some token)
  /\ formMessage s' = (fun _ => thanks) <$> formMessage s
  /\ timers s' =
     timers s ++ match formMessage s with
                 | Some _ => [((clock s + 6500)%Z, "hide form-message")]
                 | None => []
                 end.
Proof.
  apply (handleSubmit_resets_form
           (scenario "John Doe" "Hello, this is a test message." "" [] 1700000000000)
           (text_control "John Doe") (text_control "john@example.com")
           (text_control "Hello, this is a test message.")
           (mkControl token0 [] false false [] None)
           (mkButton false ["btn"] (lit "Send Message"))).
  unfold passes. repeat split; try reflexivity.
  - exists (checkbox true). split; reflexivity.
  - exists (mkControl (lit "") [] false false [] None). split; reflexivity.
Defined.

(** X19. However an attempt ends, the submit button comes back: it has the
    text it had, it is enabled if it was, and it has the classes it had,
    the loading class apart, which it carries only if it did before and
    the attempt was rejected. *)
Theorem handleSubmit_releases_button (s : State) (b : Button) :
  submitButton s = Some b ->
  exists b',
    submitButton (after handleSubmit s) = Some b'
    /\ b_textContent b' = b_textContent b
    /\ (b_disabled b = false -> b_disabled b' = false)
    /\ (forall x, x <> "btn-loading" -> (x ∈ b_classes b' <-> x ∈ b_classes b))
    /\ ("btn-loading" ∈ b_classes b' -> b' = b).
Proof.
  intros Hb. unfold after.
  assert (Hcases : submitButton (handleSubmit s).2 = Some b
                   \/ submitButton (handleSubmit s).2 = Some (released b)).
  { destruct (handleSubmit_cases_of s (handleSubmit s) eq_refl)
      as [(_ & _ & _ & _ & [H|H] & _)|(cn & ce & cm & ct & b0 & Hp)].
    - left. by rewrite H.
    - right. by rewrite H, Hb.
    - right. destruct (handleSubmit_sent_of s _ cn ce cm ct b0 eq_refl Hp)
        as (_ & _ & _ & _ & H & _).
      destruct Hp as (_ & _ & _ & _ & _ & _ & _ & Hb0 & _). congruence. }
  destruct Hcases as [->| ->].
  - exists b. by repeat split.
  - exists (released b). destruct (released_button b) as (Ht & Hd & Hc & Hl).
    repeat split; try done; by apply Hc.
Qed.

Lemma handleSubmit_releases_button_witness :
  let s := scenario "J" "short" "" [] 1700000000000 in
  exists b',
    submitButton (after handleSubmit s) = Some b'
    /\ b_textContent b' = b_textContent (mkButton false ["btn"] (lit "Send Message"))
    /\ (b_disabled (mkButton false ["btn"] (lit "Send Message")) = false ->
        b_disabled b' = false)
    /\ (forall x, x <> "btn-loading" ->
          (x ∈ b_classes b' <-> x ∈ b_classes (mkButton false ["btn"] (lit "Send Message"))))
    /\ ("btn-loading" ∈ b_classes b' -> b' = mkButton false ["btn"] (lit "Send Message")).
Proof.
  apply (handleSubmit_releases_button (scenario "J" "short" "" [] 1700000000000)
           (mkButton false ["btn"] (lit "Send Message"))).
  reflexivity.
Defined.

(** X20. An attempt sends exactly when it records: either the transport is
    not called, the submission store is as it was and no time has passed,
    or the transport is called once, with the reading of the clock as
    timestamp, the rate limit had admitted the attempt, and the store has
    the entry of 1500 ms later. *)
Theorem handleSubmit_sends_iff_records (s : State) :
  let s' := after handleSubmit s in
  let store := parse_submissions (localStorage s !! "form_submissions") in
  (transports (new_events handleSubmit s) = []
   /\ localStorage s' = localStorage s /\ clock s' = clock s)
  \/ (exists p,
        transports (new_events handleSubmit s) = [p] /\ p_timestamp p = clock s
        /\ allowed (rate_limit store (clock s)) = true
        /\ localStorage s' =
           <["form_submissions" := push_keep_last store (clock s + 1500)]> (localStorage s)
        /\ clock s' = (clock s + 1500)%Z).
Proof.
  cbn zeta. unfold new_events, after.
  destruct (handleSubmit_cases_of s (handleSubmit s) eq_refl)
    as [(Hl & _ & Ht & Hc & _)|(cn & ce & cm & ct & b & Hp)].
  - left. by rewrite Hl, Ht, Hc.
  - right. destruct (handleSubmit_sent_of s _ cn ce cm ct b eq_refl Hp)
      as (_ & Ht & Hl & Hc & _).
    exists (payload_of s cn ce cm ct). rewrite Ht, Hl, Hc.
    destruct Hp as (Hrl & _). by repeat split.
Qed.

(** X21. An attempt that the rate limit denies reads no control and changes
    none: the handler shows the message of the rate limit in the message
    box, warns on the console and returns; the storage areas and the
    submit button are as they were. *)
Theorem handleSubmit_rate_limited (s : State) (r : RateLimit) :
  outcome checkRateLimit s = Normal r -> allowed r = false ->
  let s' := after handleSubmit s in
  outcome handleSubmit s = Normal tt
  /\ controls s' = controls s /\ localStorage s' = localStorage s
  /\ sessionStorage s' = sessionStorage s /\ submitButton s' = submitButton s
  /\ formMessage s' =
     (fun _ => mkMessageBox "alert alert-danger" (default (lit "undefined") (message r))
                 "block") <$> formMessage s
  /\ new_events handleSubmit s =
     [Call "handleSubmit" ""; Call "checkRateLimit" ""; LocalGet "form_submissions";
      Call "showMessage" "danger"; Console "warn" "[Security] Rate limit exceeded" []].
Proof.
  intros Hr Hrl. apply outcome_checkRateLimit in Hr as ->. cbn zeta.
  destruct (handleSubmit_denied_of s (handleSubmit s) eq_refl Hrl)
    as (H1 & H2 & H3 & H4 & H5 & H6 & H7).
  unfold new_events, outcome, after. by rewrite H1, H2, H3, H4, H5, H6, H7.
Qed.

Lemma handleSubmit_rate_limited_witness :
  let s := scenario "John Doe" "Hello, this is a test message." ""
             [1699999997000; 1699999998000; 1699999999000]%Z 1700000000000 in
  let r := mkRateLimit false
             (Some (lit "Rate limit exceeded. Please try again in 60 minute(s).")) in
  let s' := after handleSubmit s in
  outcome handleSubmit s = Normal tt
  /\ controls s' = controls s /\ localStorage s' = localStorage s
  /\ sessionStorage s' = sessionStorage s /\ submitButton s' = submitButton s
  /\ formMessage s' =
     (fun _ => mkMessageBox "alert alert-danger" (default (lit "undefined") (message r))
                 "block") <$> formMessage s
  /\ new_events handleSubmit s =
     [Call "handleSubmit" ""; Call "checkRateLimit" ""; LocalGet "form_submissions";
      Call "showMessage" "danger"; Console "warn" "[Security] Rate limit exceeded" []].
Proof.
  apply (handleSubmit_rate_limited
           (scenario "John Doe" "Hello, this is a test message." ""
              [1699999997000; 1699999998000; 1699999999000]%Z 1700000000000)
           (mkRateLimit false
              (Some (lit "Rate limit exceeded. Please try again in 60 minute(s).")))).
  - vm_compute. reflexivity.
  - reflexivity.
Defined.

(** ** The input sanitizer *)

Section Deleting.

Lemma replace_loop_as_by (r : regex) (f : jsstring -> jsstring) :
  forall n pre s, replace_loop n r f pre s = replace_loop_by (match_at r) n f pre s.
Proof.
  induction n as [|n IH]; intros pre s; [done|]. cbn [replace_loop replace_loop_by].
  destruct (match_at r pre s) as [[pre' s']|]; rewrite ?IH; destruct s; by rewrite ?IH.
Qed.

Lemma replace_loop_by_deletes (m : jsstring -> jsstring -> option (jsstring * jsstring)) :
  advancing m ->
  forall n pre s, replace_loop_by m n (fun _ => []) pre s `sublist_of` s.
Proof.
  intros Hm n. induction n as [|n IH]; intros pre s; [done|]. cbn [replace_loop_by].
  assert (Hskip :
    match s with
    | c :: s' => c :: replace_loop_by m n (fun _ => []) (c :: pre) s'
    | [] => []
    end `sublist_of` s).
  { destruct s as [|c s]; [done|]. by apply sublist_skip. }
  destruct (m pre s) as [[pre' s']|] eqn:Hms; [|exact Hskip].
  destruct (length s' <? length s)%nat; cbn [app]; [|exact Hskip].
  etrans; [apply IH|]. apply Hm in Hms as [k ->]. by apply sublist_inserts_l.
Qed.

Lemma match_at_advancing (r : regex) : advancing (match_at r).
Proof.
  intros pre suf pre' suf' H. apply match_at_sound in H as (w & -> & _). by exists w.
Qed.

Lemma lazy_loop_advancing (k : jsstring -> jsstring -> option (jsstring * jsstring)) :
  advancing k ->
  forall n pre suf pre' suf',
    lazy_loop (fun p s k' => rmatch (Class dot) p s k') k n pre suf = Some (pre', suf') ->
    suf' `suffix_of` suf.
Proof.
  intros Hk n. induction n as [|n IH]; intros pre suf pre' suf'; cbn [lazy_loop].
  - apply Hk.
  - intros H. apply or_else_Some in H as [H|[_ H]]; [by apply Hk in H|].
    cbn [rmatch] in H. destruct suf as [|c suf]; [done|].
    destruct (dot c); [|done].
    destruct (length suf <? length (c :: suf))%nat; [|done].
    apply IH in H. by apply suffix_cons_r.
Qed.

Lemma match_lazy_advancing (open close : regex) : advancing (match_lazy open close).
Proof.
  intros pre suf pre' suf' H. unfold match_lazy in H.
  apply rmatch_sound in H as (w & post & -> & _ & H).
  apply lazy_loop_advancing in H; [|apply match_at_advancing].
  by apply suffix_app_r.
Qed.

Lemma sanitized_sublist (value : jsstring) : sanitized value `sublist_of` value.
Proof.
  unfold sanitized, replace_all_by, replace_all. cbn zeta.
  rewrite !replace_loop_as_by.
  etrans; [apply replace_loop_by_deletes, match_at_advancing|].
  etrans; [apply replace_loop_by_deletes, match_at_advancing|].
  etrans; [apply replace_loop_by_deletes, match_lazy_advancing|].
  apply replace_loop_by_deletes, match_lazy_advancing.
Qed.

Lemma sanitizeInput_run (input : string) (s : State) :
  sanitizeInput input s =
  match controls s !! input with
  | Some c =>
      (Normal tt,
       mkState (localStorage s) (sessionStorage s)
         (<[input := set_value (sanitized (c_value c)) c]> (controls s))
         (formMessage s) (submitButton s) (clock s) (entropy s) (entropyUsed s)
         (timers s) (trace s ++ [ReadValue input]))
  | None => (Throw "TypeError", s)
  end.
Proof.
  unfold sanitizeInput. run. destruct (controls s !! input) as [c|] eqn:Hc; [|done].
  run. by rewrite Hc.
Qed.

End Deleting.

(** X13. [sanitizeInput] only deletes: the value it leaves in the control
    is the old value with some characters removed, none added and none
    moved. It changes nothing else of that control and no other control,
    and writes neither storage area. *)
Theorem sanitizeInput_only_deletes (s : State) (input : string) (c : Control) :
  controls s !! input = Some c ->
  let s' := after (sanitizeInput input) s in
  exists v,
    controls s' = <[input := set_value v c]> (controls s)
    /\ v `sublist_of` c_value c
    /\ (length v <= length (c_value c))%nat
    /\ localStorage s' = localStorage s /\ sessionStorage s' = sessionStorage s.
Proof.
  intros Hc. cbn zeta. unfold after. rewrite sanitizeInput_run, Hc. cbn [snd controls localStorage sessionStorage].
  exists (sanitized (c_value c)). split; [done|].
  split; [apply sanitized_sublist|].
  split; [apply sublist_length, sanitized_sublist|done].
Qed.

Lemma sanitizeInput_only_deletes_witness :
  let s := page "<script>x</script>Bob" "bob@example.com" "Hello" "" true [] ∅ 0 in
  let s' := after (sanitizeInput "name") s in
  exists v,
    controls s' = <["name" := set_value v (text_control "<script>x</script>Bob")]> (controls s)
    /\ v `sublist_of` c_value (text_control "<script>x</script>Bob")
    /\ (length v <= length (c_value (text_control "<script>x</script>Bob")))%nat
    /\ localStorage s' = localStorage s /\ sessionStorage s' = sessionStorage s.
Proof.
  apply (sanitizeInput_only_deletes
           (page "<script>x</script>Bob" "bob@example.com" "Hello" "" true [] ∅ 0)
           "name" (text_control "<script>x</script>Bob")).
  reflexivity.
Defined.

Example sanitizeInput_sample :
  sanitized (lit "<script>x</script>Bob <IFRAME src=a>b</iframe>javascript:onclick =1")
  = lit "Bob 1".
Proof. by vm_compute. Qed.

Section InputPlainText.

Lemma replace_loop_by_no_match
    (m : jsstring -> jsstring -> option (jsstring * jsstring))
    (f : jsstring -> jsstring) (ok : N -> Prop) :
  (forall pre suf, Forall ok suf -> m pre suf = None) ->
  forall n pre s, Forall ok s -> replace_loop_by m n f pre s = s.
Proof.
  intros Hm n. induction n as [|n IH]; intros pre s Hs; [done|].
  cbn [replace_loop_by]. rewrite Hm by done.
  destruct s as [|c s]; [done|]. f_equal. apply IH. by inversion Hs.
Qed.

Lemma match_lazy_bracket (a : Ascii.ascii) (tag : string) (body close : regex)
    (pre suf : jsstring) :
  Ascii.N_of_ascii a = chr "<" -> chr "<" ∉ suf ->
  match_lazy (lit_i (String a tag) +++ body) close pre suf = None.
Proof.
  intros Ha Hno. destruct (match_lazy _ _ pre suf) as [[pre' suf']|] eqn:Hm; [exfalso|done].
  unfold match_lazy in Hm. apply rmatch_sound in Hm as (w & post & -> & Hw & _).
  cbn [lang] in Hw. destruct Hw as (w1 & w2 & -> & Hw1 & _).
  apply lang_lit_i in Hw1.
  apply (folds_to_head _ _ _ (chr "<")) in Hw1 as (w' & ->); [|done|vm_compute; by left].
  apply Hno. apply list_elem_of_here.
Qed.

Lemma javascript_has_colon (pre w post : jsstring) :
  lang (lit_i "javascript:") pre w post -> exists c, c ∈ w /\ structural c.
Proof.
  intros Hw. apply lang_lit_i in Hw.
  assert (Hlast : forall (s : string) (w : jsstring),
             folds_to (s +:+ ":") w -> chr ":" ∈ w).
  { clear. induction s as [|a s IH]; intros w Hw.
    - apply folds_to_colon in Hw as ->. apply list_elem_of_here.
    - unfold folds_to in Hw. cbn [String.append lit] in Hw.
      inversion Hw as [|c a' w' l' _ Hw']; subst.
      apply list_elem_of_further. by apply IH. }
  exists (chr ":"). split; [by apply (Hlast "javascript")|right; by right].
Qed.

Lemma handler_name_has_equals (pre w post : jsstring) :
  lang re_handler_name pre w post -> exists c, c ∈ w /\ structural c.
Proof.
  unfold re_handler_name. cbn [lang].
  intros (w1 & r1 & -> & _ & w2 & r2 & -> & _ & w3 & r3 & -> & _ & Hw4).
  apply lang_lit_i in Hw4.
  apply (folds_to_head _ _ _ (chr "=")) in Hw4 as (w' & ->); [|done|vm_compute; by left].
  exists (chr "="). split; [|right; by left].
  rewrite !elem_of_app. do 3 right. apply list_elem_of_here.
Qed.

Lemma sanitized_plain_text (value : jsstring) :
  chr "<" ∉ value -> chr "=" ∉ value -> chr ":" ∉ value -> sanitized value = value.
Proof.
  intros H1 H2 H3.
  assert (Hs : Forall (fun c => ~ structural c) value).
  { apply Forall_forall. intros c Hc [-> | [-> | ->]]; contradiction. }
  assert (Hb : Forall (fun c => c <> chr "<") value).
  { apply Forall_forall. intros c Hc ->. contradiction. }
  assert (Hnone : forall a tag body close pre suf,
             Ascii.N_of_ascii a = chr "<" ->
             Forall (fun c => c <> chr "<") suf ->
             match_lazy (lit_i (String a tag) +++ body) close pre suf = None).
  { intros a tag body close pre suf Ha Hsuf. apply match_lazy_bracket; [done|].
    intros Hin. rewrite Forall_forall in Hsuf. by apply (Hsuf _ Hin). }
  assert (E1 : replace_all_by match_script (fun _ => []) value = value).
  { apply (replace_loop_by_no_match _ _ (fun c => c <> chr "<")); [|exact Hb].
    intros pre suf Hsuf. by apply Hnone. }
  assert (E2 : replace_all_by match_iframe (fun _ => []) value = value).
  { apply (replace_loop_by_no_match _ _ (fun c => c <> chr "<")); [|exact Hb].
    intros pre suf Hsuf. by apply Hnone. }
  assert (E3 : replace_all (lit_i "javascript:") (fun _ => []) value = value).
  { by apply (replace_loop_no_match _ _ structural javascript_has_colon). }
  assert (E4 : replace_all re_handler_name (fun _ => []) value = value).
  { by apply (replace_loop_no_match _ _ structural handler_name_has_equals). }
  unfold sanitized. cbn zeta.
  etrans; [|exact E4]. apply (f_equal (replace_all re_handler_name (fun _ => []))).
  etrans; [|exact E3]. apply (f_equal (replace_all (lit_i "javascript:") (fun _ => []))).
  etrans; [|exact E2]. apply (f_equal (replace_all_by match_iframe (fun _ => []))).
  exact E1.
Qed.

End InputPlainText.

(** X14. A value that has no [<], no [=] and no [:] is left as it is by
    [sanitizeInput]: each of its four patterns needs one of the three
    characters. *)
Theorem sanitizeInput_keeps_plain_text (s : State) (input : string) (c : Control) :
  controls s !! input = Some c ->
  chr "<" ∉ c_value c -> chr "=" ∉ c_value c -> chr ":" ∉ c_value c ->
  outcome (sanitizeInput input) s = Normal tt
  /\ controls (after (sanitizeInput input) s) = controls s.
Proof.
  intros Hc H1 H2 H3. unfold outcome, after. rewrite sanitizeInput_run, Hc.
  cbn [fst snd controls]. split; [done|].
  rewrite sanitized_plain_text by done.
  apply insert_id. rewrite Hc. f_equal. by destruct c.
Qed.

Lemma sanitizeInput_keeps_plain_text_witness :
  outcome (sanitizeInput "name") (fresh_page 0) = Normal tt
  /\ controls (after (sanitizeInput "name") (fresh_page 0)) = controls (fresh_page 0).
Proof.
  apply (sanitizeInput_keeps_plain_text (fresh_page 0) "name" (text_control "John Doe"));
    [reflexivity|..]; (eapply bool_decide_unpack; vm_compute; exact I).
Defined.

(** ** Sessions of the page *)

Section Sessions.

Lemma handleSubmit_extends : extends handleSubmit.
Proof.
  assert (Hb : bounded handleSubmit order_of_checks).
  { unfold handleSubmit, order_of_checks. bound. }
  intros s. destruct (Hb s) as (t & Ht & _). by exists t.
Qed.

Lemma watched_field (field : string) : watched field = true -> field <> "csrf_token".
Proof.
  unfold watched. intros H%bool_decide_eq_true ->.
  rewrite !elem_of_cons, elem_of_nil in H. by destruct H as [?|[?|[?|[]]]].
Qed.

(** What is not a submit attempt writes neither storage area, sends
    nothing and leaves the hidden field to the user. *)
Lemma dispatch_run (a : Action) (s : State) :
  exists s1,
    dispatch a s = (Normal tt, s1)
    /\ ((localStorage s1 = localStorage s /\ sessionStorage s1 = sessionStorage s
         /\ (clock s <= clock s1)%Z
         /\ (hands_off a ->
             (c_value <$> controls s1 !! "csrf_token")
             = (c_value <$> controls s !! "csrf_token"))
         /\ exists t, trace s1 = trace s ++ t /\ transports t = [])
        \/ (a = Submit /\ s1 = after handleSubmit s)).
Proof.
  assert (Hsame : forall s1 : State,
            localStorage s1 = localStorage s -> sessionStorage s1 = sessionStorage s ->
            (clock s <= clock s1)%Z ->
            (hands_off a ->
             (c_value <$> controls s1 !! "csrf_token")
             = (c_value <$> controls s !! "csrf_token")) ->
            (exists t, trace s1 = trace s ++ t /\ transports t = []) ->
            forall o : Outcome unit * State, o = (Normal tt, s1) ->
            exists s1, o = (Normal tt, s1)
              /\ ((localStorage s1 = localStorage s /\ sessionStorage s1 = sessionStorage s
                   /\ (clock s <= clock s1)%Z
                   /\ (hands_off a ->
                       (c_value <$> controls s1 !! "csrf_token")
                       = (c_value <$> controls s !! "csrf_token"))
                   /\ exists t, trace s1 = trace s ++ t /\ transports t = [])
                  \/ (a = Submit /\ s1 = after handleSubmit s))).
  { intros s1 ? ? ? ? ? o ->. exists s1. split; [done|]. left. by repeat split. }
  assert (Hidle : exists t, trace s = trace s ++ t /\ transports t = []).
  { exists []. by rewrite app_nil_r. }
  destruct a as [ms|field value|field checked|field|field|]; cbn [dispatch].
  - apply (Hsame (with_clock (clock s + Z.of_N ms) s)); try done.
    fields. lia.
  - unfold edit. rewrite modify_run.
    destruct (controls s !! field) as [c|] eqn:Hc;
      [|apply (Hsame s); try done; lia].
    apply (Hsame (with_controls (<[field := set_value value c]> (controls s)) s));
      try done; try (fields; lia).
    intros Hoff. fields.
    rewrite lookup_insert_ne; [done|]. intros ->. by apply (Hoff value).
  - unfold edit. rewrite modify_run.
    destruct (controls s !! field) as [c|] eqn:Hc;
      [|apply (Hsame s); try done; lia].
    apply (Hsame (with_controls (<[field := set_checked checked c]> (controls s)) s));
      try done; try (fields; lia).
    intros _. fields.
    destruct (decide (field = "csrf_token")) as [->|Hne].
    + by rewrite lookup_insert_eq, Hc.
    + by rewrite lookup_insert_ne.
  - destruct (watched field) eqn:Hwatch; [|apply (Hsame s); try done; lia].
    apply watched_field in Hwatch.
    unfold when_present. rewrite bind_run, gets_run.
    destruct (controls s !! field) as [c|] eqn:Hc; [|apply (Hsame s); try done; lia].
    unfold listener. rewrite validateField_run, Hc. cbn zeta. fields.
    eapply Hsame; [..|reflexivity]; fields; try done; try lia.
    + intros _. by rewrite lookup_insert_ne.
    + by eexists.
  - destruct (watched field) eqn:Hwatch; [|apply (Hsame s); try done; lia].
    apply watched_field in Hwatch.
    unfold when_present. rewrite bind_run, gets_run.
    destruct (controls s !! field) as [c|] eqn:Hc; [|apply (Hsame s); try done; lia].
    unfold listener. rewrite sanitizeInput_run, Hc. cbn [snd].
    eapply Hsame; [..|reflexivity]; cbn [localStorage sessionStorage clock controls trace];
      try done; try lia.
    + intros _. by rewrite lookup_insert_ne.
    + by eexists.
  - eexists. split; [done|]. by right.
Qed.

Lemma spaced_cons (gap a : Z) (l : list Z) :
  spaced gap (a :: l) <->
  (forall t', l !! 2%nat = Some t' -> (gap <= t' - a)%Z) /\ spaced gap l.
Proof.
  unfold spaced. split.
  - intros H. split.
    + intros t' Ht'. by apply (H 0%nat a t').
    + intros i t t' Ht Ht'. by apply (H (S i) t t').
  - intros [H0 H] [|i] t t'; cbn.
    + intros [= <-]. apply H0.
    + apply H.
Qed.

Lemma spaced_short (gap : Z) (l : list Z) : (length l <= 3)%nat -> spaced gap l.
Proof.
  intros Hl i t t' _ Ht'. apply lookup_lt_Some in Ht'. lia.
Qed.

Lemma last3_length (l : list Z) : (length (last3 l) <= 3)%nat.
Proof. unfold last3. rewrite length_drop. lia. Qed.

Lemma last3_suffix (l : list Z) : last3 l `suffix_of` l.
Proof. apply suffix_drop. Qed.

(** Adding a send to a window that is full pushes the first one out. *)
Lemma spaced_window (gap : Z) (w : list Z) (t : Z) (rest : list Z) :
  (length w <= 3)%nat ->
  (forall a, w !! 0%nat = Some a -> length w = 3%nat -> (gap <= t - a)%Z) ->
  spaced gap (last3 (w ++ [t]) ++ rest) ->
  spaced gap (w ++ [t] ++ rest).
Proof.
  intros Hlen Ha Hs. unfold last3 in Hs. rewrite length_app in Hs. cbn [length] in Hs.
  destruct w as [|a [|b [|c [|d w]]]]; cbn [length] in Hlen; try lia; try exact Hs.
  cbn in Hs. cbn [app]. apply spaced_cons. split; [|exact Hs].
  cbn. intros t' [= <-]. by apply Ha.
Qed.

Lemma allowed_counts (l : list Z) (now : Z) :
  allowed (rate_limit l now) = true ->
  (length (filter (fun t => (now - t < oneHour)%Z) l) < 3)%nat.
Proof.
  unfold rate_limit. destruct (3 <=? _)%nat eqn:H; [done|]. intros _.
  by apply Nat.leb_gt in H.
Qed.

Lemma remembered_later (s s1 : State) (w : list Z) :
  remembered s w -> localStorage s1 = localStorage s -> (clock s <= clock s1)%Z ->
  remembered s1 w.
Proof.
  intros (Hlen & Hclk & Hsort & Hsuf) Hl Hc. unfold remembered, store. rewrite Hl.
  split; [done|]. split; [|done].
  eapply Forall_impl; [exact Hclk|]. intros t Ht. cbn in *. lia.
Qed.

(** The window after one more send, at the time [t]. *)
Lemma last3_snoc (w : list Z) (t : Z) :
  (length w <= 3)%nat ->
  last3 (w ++ [t]) = drop (length w - 2) w ++ [t].
Proof.
  intros Hlen. unfold last3. rewrite length_app. cbn [length].
  replace (length w + 1 - 3)%nat with (length w - 2)%nat by lia.
  apply drop_app_le. lia.
Qed.

Lemma submit_step (s : State) (w : list Z) :
  remembered s w ->
  let s1 := after handleSubmit s in
  let n := sent_at (new_events handleSubmit s) in
  (n = [] /\ remembered s1 w)
  \/ (n = [clock s] /\ remembered s1 (last3 (w ++ [clock s]))
      /\ (forall a, w !! 0%nat = Some a -> length w = 3%nat ->
            (3601500 <= clock s - a)%Z)).
Proof.
  intros Hrem. cbn zeta. unfold new_events, after, sent_at.
  destruct (handleSubmit_cases_of s (handleSubmit s) eq_refl)
    as [(Hl & _ & Ht & Hc & _)|(cn & ce & cm & ct & b & Hp)].
  { left. rewrite Ht. split; [done|]. apply (remembered_later s); [done|done|lia]. }
  right.
  destruct (handleSubmit_sent_of s _ cn ce cm ct b eq_refl Hp) as (_ & Ht & Hl & Hc & _).
  destruct Hp as (Hrl & _). apply allowed_counts in Hrl.
  destruct Hrem as (Hlen & Hclk & Hsort & Hsuf).
  rewrite Ht. split; [done|]. split.
  - unfold remembered, store. rewrite Hl, Hc. unfold recorded. rewrite lookup_insert_eq.
    cbn [parse_submissions default]. rewrite last3_snoc by done.
    split; [rewrite length_app, length_drop; cbn [length]; lia|]. split; [|split].
    + apply Forall_app. split.
      * apply Forall_drop. eapply Forall_impl; [exact Hclk|]. intros t Hle. cbn in *. lia.
      * repeat constructor. lia.
    + intros i j a b' Hij Hi Hj.
      assert (Hall : forall k x, (drop (length w - 2) w ++ [clock s]) !! k = Some x ->
                (x <= clock s)%Z
                /\ ((k < length (drop (length w - 2) w))%nat ->
                    w !! (length w - 2 + k)%nat = Some x)).
      { intros k x Hk. apply lookup_app_Some in Hk as [Hk|[Hk1 Hk2]].
        - rewrite lookup_drop in Hk. split; [|done].
          rewrite Forall_forall in Hclk.
          assert (x + 1500 <= clock s)%Z; [|lia].
          apply Hclk. by eapply list_elem_of_lookup_2.
        - apply list_lookup_singleton_Some in Hk2 as [_ <-]. split; [lia|]. lia. }
      destruct (Hall i a Hi) as [Hia Hiw], (Hall j b' Hj) as [Hjb Hjw].
      destruct (decide (j < length (drop (length w - 2) w))%nat) as [Hjl|Hjl].
      * apply (Hsort (length w - 2 + i)%nat (length w - 2 + j)%nat); [lia| |by apply Hjw].
        apply Hiw. lia.
      * apply lookup_app_Some in Hj as [Hj|[_ Hj]].
        { apply lookup_lt_Some in Hj. lia. }
        apply list_lookup_singleton_Some in Hj as [_ <-]. exact Hia.
    + rewrite fmap_app. cbn [fmap list_fmap].
      apply push_keep_last_suffix.
      * etrans; [|exact Hsuf]. rewrite fmap_drop. apply suffix_drop.
      * rewrite length_fmap, length_drop. lia.
  - intros a Ha H3.
    destruct (Z.le_gt_cases 3601500 (clock s - a)) as [Hge|Hlt]; [done|exfalso].
    assert (Hcount : (length ((fun t => (t + 1500)%Z) <$> w)
                      <= length (filter (fun t => (clock s - t < oneHour)%Z) (store s)))%nat).
    { apply filter_length_suffix; [done|].
      apply Forall_fmap, Forall_forall. intros x Hx. cbn.
      apply list_elem_of_lookup_1 in Hx as [k Hk].
      assert (a <= x)%Z by (apply (Hsort 0%nat k); [lia|done|done]).
      unfold oneHour. lia. }
    rewrite length_fmap in Hcount. unfold store in Hcount. lia.
Qed.

Lemma session_extends (acts : list Action) : extends (session acts).
Proof.
  induction acts as [|a acts IH]; intros s; cbn [session].
  - exists []. unfold after. cbn. by rewrite app_nil_r.
  - unfold after. rewrite bind_run.
    destruct (dispatch_run a s) as (s1 & -> & [(_ & _ & _ & _ & t1 & Ht1 & _)|[_ ->]]).
    + destruct (IH s1) as (t2 & Ht2). exists (t1 ++ t2).
      unfold after in Ht2. by rewrite Ht2, Ht1, app_assoc.
    + destruct (handleSubmit_extends s) as (t1 & Ht1).
      destruct (IH (after handleSubmit s)) as (t2 & Ht2). exists (t1 ++ t2).
      unfold after in Ht2 |- *. unfold after in Ht1. by rewrite Ht2, Ht1, app_assoc.
Qed.

Lemma sent_at_app (t1 t2 : list Event) : sent_at (t1 ++ t2) = sent_at t1 ++ sent_at t2.
Proof. unfold sent_at, transports. by rewrite omap_app, fmap_app. Qed.

Lemma session_spaced (acts : list Action) :
  forall s w, remembered s w ->
    spaced 3601500 (w ++ sent_at (new_events (session acts) s)).
Proof.
  induction acts as [|a acts IH]; intros s w Hrem.
  - unfold new_events, after. cbn. rewrite drop_all. cbn. rewrite app_nil_r.
    apply spaced_short. by destruct Hrem.
  - assert (Hsplit : forall s1 t1,
               (dispatch a;; session acts) s = session acts s1 ->
               trace s1 = trace s ++ t1 ->
               new_events (session (a :: acts)) s = t1 ++ new_events (session acts) s1).
    { intros s1 t1 Hrun Ht1. unfold new_events, after. cbn [session]. rewrite Hrun.
      destruct (session_extends acts s1) as (t2 & Ht2). unfold after in Ht2.
      by rewrite Ht2, Ht1, (drop_app_length (trace s ++ t1)), <- app_assoc, drop_app_length. }
    destruct (dispatch_run a s) as (s1 & Hd & [(Hl & _ & Hc & _ & t1 & Ht1 & Hnone)|[-> ->]]).
    + rewrite (Hsplit s1 t1); [|by rewrite bind_run, Hd|done].
      rewrite sent_at_app. unfold sent_at at 1. rewrite Hnone. cbn [fmap list_fmap app].
      apply IH. by apply (remembered_later s).
    + destruct (handleSubmit_extends s) as (t1 & Ht1).
      rewrite (Hsplit (after handleSubmit s) t1); [|by rewrite bind_run, Hd|done].
      rewrite sent_at_app.
      assert (Hnew : new_events handleSubmit s = t1).
      { unfold new_events. by rewrite Ht1, drop_app_length. }
      destruct (submit_step s w Hrem) as [[Hn Hrem1]|(Hn & Hrem1 & Hgap)];
        rewrite Hnew in Hn; rewrite Hn.
      * by apply IH.
      * apply spaced_window; [by destruct Hrem|done|]. by apply IH.
Qed.

End Sessions.

(** X22. However the page is used, the rate limit holds for what is sent:
    in every sequence of waits, edits, blur and input events and submit
    attempts, from every state of the page and of the submission store,
    the fourth of any four payloads sent in a row carries a timestamp at
    least 3,601,500 ms after that of the first. Attempts do not overlap:
    each is followed to its end before the next thing happens. *)
Theorem session_rate_limited (s : State) (acts : list Action) (i : nat) (t t' : Z) :
  let sent := p_timestamp <$> transports (new_events (session acts) s) in
  sent !! i = Some t -> sent !! (i + 3)%nat = Some t' -> (3601500 <= t' - t)%Z.
Proof.
  cbn zeta. intros Ht Ht'.
  assert (Hrem : remembered s []).
  { split; [cbn; lia|]. split; [constructor|]. split; [|apply suffix_nil].
    intros ? ? ? ? _ H. by rewrite lookup_nil in H. }
  apply (session_spaced acts s [] Hrem i t t'); [exact Ht|exact Ht'].
Qed.

Lemma session_rate_limited_witness :
  let s := scenario "John Doe" "Hello, this is a test message." "" [] 1700000000000 in
  let refill :=
    [Fill "name" (lit "John Doe"); Fill "email" (lit "john@example.com");
     Fill "message" (lit "Hello, this is a test message."); Tick "privacy" true] in
  let acts :=
    [Submit] ++ refill ++ [Submit] ++ refill ++ [Submit] ++ refill ++ [Submit]
    ++ [Wait 3600000; Submit] in
  let sent := p_timestamp <$> transports (new_events (session acts) s) in
  sent !! 0%nat = Some 1700000000000%Z
  /\ sent !! 3%nat = Some 1700003604500%Z
  /\ (3601500 <= 1700003604500 - 1700000000000)%Z.
Proof.
  cbn zeta.
  assert (H0 : (p_timestamp <$> transports (new_events (session
            ([Submit] ++
             [Fill "name" (lit "John Doe"); Fill "email" (lit "john@example.com");
              Fill "message" (lit "Hello, this is a test message."); Tick "privacy" true] ++
             [Submit] ++
             [Fill "name" (lit "John Doe"); Fill "email" (lit "john@example.com");
              Fill "message" (lit "Hello, this is a test message."); Tick "privacy" true] ++
             [Submit] ++
             [Fill "name" (lit "John Doe"); Fill "email" (lit "john@example.com");
              Fill "message" (lit "Hello, this is a test message."); Tick "privacy" true] ++
             [Submit] ++ [Wait 3600000; Submit]))
            (scenario "John Doe" "Hello, this is a test message." "" [] 1700000000000)))
          !! 0%nat = Some 1700000000000%Z) by (vm_compute; reflexivity).
  assert (H3 : (p_timestamp <$> transports (new_events (session
            ([Submit] ++
             [Fill "name" (lit "John Doe"); Fill "email" (lit "john@example.com");
              Fill "message" (lit "Hello, this is a test message."); Tick "privacy" true] ++
             [Submit] ++
             [Fill "name" (lit "John Doe"); Fill "email" (lit "john@example.com");
              Fill "message" (lit "Hello, this is a test message."); Tick "privacy" true] ++
             [Submit] ++
             [Fill "name" (lit "John Doe"); Fill "email" (lit "john@example.com");
              Fill "message" (lit "Hello, this is a test message."); Tick "privacy" true] ++
             [Submit] ++ [Wait 3600000; Submit]))
            (scenario "John Doe" "Hello, this is a test message." "" [] 1700000000000)))
          !! (0 + 3)%nat = Some 1700003604500%Z) by (vm_compute; reflexivity).
  split; [exact H0|]. split; [exact H3|].
  exact (session_rate_limited _ _ 0%nat _ _ H0 H3).
Defined.

Section Tokens.

Lemma in_sync_token (token : jsstring) (s : State) :
  in_sync token s -> session_token s = token.
Proof.
  intros (Hs & Hne & _). unfold session_token. rewrite Hs.
  destruct token; [done|]. done.
Qed.

Lemma submit_keeps_sync (token : jsstring) (s : State) :
  in_sync token s ->
  Forall (fun p => p_csrf_token p = token) (transports (new_events handleSubmit s))
  /\ in_sync token (after handleSubmit s).
Proof.
  intros Hsync. pose proof Hsync as (Hs & Hne & Hf). unfold new_events, after.
  destruct (handleSubmit_cases_of s (handleSubmit s) eq_refl)
    as [(_ & Hses & Ht & _ & _ & Hctl)|(cn & ce & cm & ct & b & Hp)].
  - rewrite Ht. split; [constructor|]. unfold in_sync. by rewrite Hses, Hctl.
  - destruct (handleSubmit_sent_of s _ cn ce cm ct b eq_refl Hp)
      as (_ & Ht & _ & _ & _ & _ & Hctl & Hses & _).
    destruct Hp as (_ & _ & _ & _ & _ & _ & Hct & _).
    rewrite Ht. split.
    + repeat constructor. cbn [payload_of p_csrf_token].
      rewrite Hct in Hf. by injection Hf.
    + unfold in_sync. rewrite Hses, Hctl, lookup_insert_eq, (in_sync_token token s) by done.
      done.
Qed.

Lemma session_keeps_sync (token : jsstring) (acts : list Action) :
  forall s, in_sync token s -> Forall hands_off acts ->
    Forall (fun p => p_csrf_token p = token) (transports (new_events (session acts) s))
    /\ in_sync token (after (session acts) s).
Proof.
  induction acts as [|a acts IH]; intros s Hsync Hoff.
  - unfold new_events, after. cbn. rewrite drop_all. by split; [constructor|].
  - apply Forall_cons in Hoff as [Ha Hoff].
    assert (Hsplit : forall s1 t1,
               (dispatch a;; session acts) s = session acts s1 ->
               trace s1 = trace s ++ t1 ->
               new_events (session (a :: acts)) s = t1 ++ new_events (session acts) s1
               /\ after (session (a :: acts)) s = after (session acts) s1).
    { intros s1 t1 Hrun Ht1. unfold new_events, after. cbn [session]. rewrite Hrun.
      split; [|done].
      destruct (session_extends acts s1) as (t2 & Ht2). unfold after in Ht2.
      by rewrite Ht2, Ht1, (drop_app_length (trace s ++ t1)), <- app_assoc, drop_app_length. }
    destruct (dispatch_run a s)
      as (s1 & Hd & [(_ & Hses & _ & Hctl & t1 & Ht1 & Hnone)|[-> ->]]).
    + destruct (Hsplit s1 t1) as [-> ->]; [by rewrite bind_run, Hd|done|].
      unfold transports in *. rewrite omap_app, Hnone. cbn [app].
      apply IH; [|done]. destruct Hsync as (Hs & Hne & Hf).
      unfold in_sync. by rewrite Hses, Hctl.
    + destruct (handleSubmit_extends s) as (t1 & Ht1).
      destruct (Hsplit (after handleSubmit s) t1) as [-> ->]; [by rewrite bind_run, Hd|done|].
      assert (Hnew : new_events handleSubmit s = t1).
      { unfold new_events. by rewrite Ht1, drop_app_length. }
      destruct (submit_keeps_sync token s Hsync) as [Hsent Hsync1].
      rewrite Hnew in Hsent.
      destruct (IH (after handleSubmit s) Hsync1 Hoff) as [Hrest Hend].
      split; [|done]. unfold transports in *. rewrite omap_app. by apply Forall_app.
Qed.

Lemma initContactForm_syncs (s : State) (hidden : Control) :
  controls s !! "csrf_token" = Some hidden ->
  in_sync (session_token s) (after initContactForm s).
Proof.
  intros Hh. unfold after, initContactForm. run. rewrite initCSRFToken_run. fields. run.
  fields. rewrite Hh. unfold in_sync. fields. unfold session_token.
  destruct (falsy (sessionStorage s !! "csrf_token")) eqn:Hf.
  - rewrite !lookup_insert_eq. split; [done|]. split; [|done].
    intros Heq. apply (f_equal length) in Heq.
    by rewrite hex_length, length_drawn in Heq.
  - apply falsy_false in Hf as (token & -> & Hne). by rewrite lookup_insert_eq.
Qed.

End Tokens.

(** X23. One token serves the whole session: on a page with the hidden
    token field, the token that [initContactForm] finds or issues is in
    the session store after every sequence of waits, edits, events and
    submit attempts in which the user does not write into the hidden
    field, and it is the token of every payload sent on the way. *)
Theorem session_payloads_carry_token (s0 : State) (hidden : Control)
    (acts : list Action) :
  controls s0 !! "csrf_token" = Some hidden ->
  Forall hands_off acts ->
  let loaded := after initContactForm s0 in
  exists token,
    sessionStorage loaded !! "csrf_token" = Some token
    /\ Forall (fun p => p_csrf_token p = token)
         (transports (new_events (session acts) loaded))
    /\ sessionStorage (after (session acts) loaded) !! "csrf_token" = Some token.
Proof.
  intros Hh Hoff. cbn zeta. exists (session_token s0).
  pose proof (initContactForm_syncs s0 hidden Hh) as Hsync.
  destruct (session_keeps_sync _ acts _ Hsync Hoff) as [Hsent (Hend & _)].
  destruct Hsync as (Hs & _). by repeat split.
Qed.

Lemma session_payloads_carry_token_witness :
  let s0 := fresh_page 1700000000000 in
  let acts := [Blur "name"; Submit; Fill "name" (lit "Jane Roe"); Submit] in
  let loaded := after initContactForm s0 in
  exists token,
    sessionStorage loaded !! "csrf_token" = Some token
    /\ Forall (fun p => p_csrf_token p = token)
         (transports (new_events (session acts) loaded))
    /\ sessionStorage (after (session acts) loaded) !! "csrf_token" = Some token.
Proof.
  apply (session_payloads_carry_token (fresh_page 1700000000000)
           (mkControl [] [] false false [] None)
           [Blur "name"; Submit; Fill "name" (lit "Jane Roe"); Submit]).
  - reflexivity.
  - repeat constructor; intros v; discriminate.
Defined.

(** ** The portfolio filter and the navigation menu *)

Section Filter.

Lemma classList_contains_elem (x : string) (l : list string) :
  classList_contains x l = true <-> x ∈ l.
Proof. unfold classList_contains. apply bool_decide_eq_true. Qed.

Lemma classList_contains_add (x : string) (l : list string) :
  classList_contains x (classList_add x l) = true.
Proof. apply classList_contains_elem, classList_add_elem. by left. Qed.

Lemma classList_contains_remove (x : string) (l : list string) :
  classList_contains x (classList_remove x l) = false.
Proof.
  destruct (classList_contains x (classList_remove x l)) eqn:H; [|done].
  apply classList_contains_elem, classList_remove_elem in H. by destruct H.
Qed.

Lemma filter_item_hidden (category : attribute) (item : Card) :
  classList_contains "hidden" (card_classes (filter_item category item))
  = negb (bool_decide (category = Some (lit "all"))
          || bool_decide (card_category item = category)).
Proof.
  unfold filter_item.
  destruct (bool_decide (category = Some (lit "all"))
            || bool_decide (card_category item = category)); cbn [card_classes negb].
  - apply classList_contains_remove.
  - apply classList_contains_add.
Qed.

Lemma filter_item_category (category : attribute) (item : Card) :
  card_category (filter_item category item) = card_category item.
Proof. unfold filter_item. by case_match. Qed.

Lemma filter_item_classes (category : attribute) (item : Card) (x : string) :
  x <> "hidden" ->
  x ∈ card_classes (filter_item category item) <-> x ∈ card_classes item.
Proof.
  intros Hx. unfold filter_item. case_match; cbn [card_classes].
  - rewrite classList_remove_elem. tauto.
  - rewrite classList_add_elem. tauto.
Qed.

Lemma mark_button_active (category : attribute) (btn : FilterButton) :
  classList_contains "active" (btn_classes (mark_button category btn))
  = bool_decide (btn_filter btn = category).
Proof.
  unfold mark_button. case_bool_decide; cbn [btn_classes].
  - apply classList_contains_add.
  - apply classList_contains_remove.
Qed.

Lemma mark_button_filter (category : attribute) (btn : FilterButton) :
  btn_filter (mark_button category btn) = btn_filter btn.
Proof. unfold mark_button. by case_match. Qed.

End Filter.

(** X24. After [filterPortfolio], card by card: the card keeps its category
    and every class other than [hidden], and it carries [hidden] exactly
    when the filter is not [all] and is not the card's own category.  A
    card without a category is so hidden by every filter but [all], and
    shown with the cards that have none by a button without
    [data-filter]. *)
Theorem filterPortfolio_hides_the_others (category : attribute) (g : Grid) :
  Forall2
    (fun item item' =>
       card_category item' = card_category item
       /\ ("hidden" ∈ card_classes item'
           <-> category <> Some (lit "all") /\ card_category item <> category)
       /\ (forall x, x <> "hidden" -> x ∈ card_classes item' <-> x ∈ card_classes item))
    (portfolioItems g) (portfolioItems (filterPortfolio category g)).
Proof.
  cbn [filterPortfolio portfolioItems].
  apply Forall2_fmap_r, Forall_Forall2_diag, Forall_forall. intros item _.
  split; [apply filter_item_category|]. split; [|apply filter_item_classes].
  rewrite <- classList_contains_elem, filter_item_hidden, negb_true_iff, orb_false_iff.
  by rewrite !bool_decide_eq_false.
Qed.

(** X25. The last filter decides: after two calls of [filterPortfolio] the
    hidden cards, the active buttons and the current filter are those of
    the second call alone. *)
Theorem filterPortfolio_last_wins (first second : attribute) (g : Grid) :
  let g2 := filterPortfolio second (filterPortfolio first g) in
  hidden_cards g2 = hidden_cards (filterPortfolio second g)
  /\ active_buttons g2 = active_buttons (filterPortfolio second g)
  /\ currentFilter g2 = second.
Proof.
  cbn zeta. unfold hidden_cards, active_buttons.
  cbn [filterPortfolio portfolioItems filterButtons currentFilter].
  split; [|split; [|done]].
  - rewrite <- !list_fmap_compose. apply list_fmap_ext. intros _ item _. cbn.
    by rewrite !filter_item_hidden, filter_item_category.
  - rewrite <- !list_fmap_compose. apply list_fmap_ext. intros _ btn _. cbn.
    by rewrite !mark_button_active, mark_button_filter.
Qed.

(** X26. A click on a filter button marks active the buttons with the
    clicked button's [data-filter], the clicked one among them, and no
    other. *)
Theorem click_marks_the_button (g : Grid) (i : nat) (button : FilterButton) :
  filterButtons g !! i = Some button ->
  let g' := click i g in
  currentFilter g' = btn_filter button
  /\ active_buttons g' !! i = Some true
  /\ forall j other, filterButtons g !! j = Some other ->
       (active_buttons g' !! j = Some true <-> btn_filter other = btn_filter button).
Proof.
  intros Hi. cbn zeta. unfold click, active_buttons. rewrite Hi.
  cbn [filterPortfolio filterButtons currentFilter].
  split; [done|].
  assert (Hj : forall j other, filterButtons g !! j = Some other ->
            ((fun btn => classList_contains "active" (btn_classes btn))
               <$> (mark_button (btn_filter button) <$> filterButtons g)) !! j
            = Some (bool_decide (btn_filter other = btn_filter button))).
  { intros j other Hj. rewrite !list_lookup_fmap, Hj. cbn.
    by rewrite mark_button_active. }
  split.
  - rewrite (Hj i button Hi). by rewrite bool_decide_eq_true_2.
  - intros j other Hother. rewrite (Hj j other Hother).
    split.
    + intros [= H]. by apply bool_decide_eq_true in H.
    + intros H. by rewrite bool_decide_eq_true_2.
Qed.

Lemma click_marks_the_button_witness :
  let g := mkGrid (Some (lit "all"))
             [mkCard (Some (lit "web")) [] []; mkCard (Some (lit "app")) [] []]
             [mkFilterButton (Some (lit "all")) ["active"];
              mkFilterButton (Some (lit "web")) []] [] in
  filterButtons g !! 1%nat = Some (mkFilterButton (Some (lit "web")) [])
  /\ currentFilter (click 1 g) = Some (lit "web")
  /\ active_buttons (click 1 g) = [false; true]
  /\ hidden_cards (click 1 g) = [false; true].
Proof.
  cbn zeta. split; [reflexivity|].
  destruct (click_marks_the_button
              (mkGrid (Some (lit "all"))
                 [mkCard (Some (lit "web")) [] []; mkCard (Some (lit "app")) [] []]
                 [mkFilterButton (Some (lit "all")) ["active"];
                  mkFilterButton (Some (lit "web")) []] [])
              1%nat (mkFilterButton (Some (lit "web")) []) eq_refl) as [Hc _].
  split; [exact Hc|]. split; vm_compute; reflexivity.
Defined.

Section Templates.

Lemma markup_of_app (a b : jsstring) : markup_of (a ++ b) = markup_of a ++ markup_of b.
Proof. apply filter_app. Qed.

Lemma markup_of_free (s : jsstring) :
  Forall (fun c => c ∉ markup_chars) s -> markup_of s = [].
Proof.
  unfold markup_of. induction 1 as [|c s Hc _ IH]; [done|].
  rewrite filter_cons. by case_decide.
Qed.

(** Escaped text has no markup character; what is not a string gives
    the empty text. *)
Lemma escapeHtml_markup_free (v : value) : markup_of (escapeHtml v) = [].
Proof.
  apply markup_of_free. destruct v; try by constructor.
  rewrite escapeHtml_string. induction s as [|c s IH]; [constructor|].
  cbn [flat_map]. apply Forall_app. split; [apply entity_no_markup|done].
Qed.

Lemma portfolio_tags_markup (tags : list value) :
  markup_of (flat_map portfolio_tag tags)
  = concat (replicate (length tags) (markup_of (portfolio_tag VUndefined))).
Proof.
  induction tags as [|tag tags IH]; [done|].
  cbn [flat_map length replicate concat]. rewrite markup_of_app, IH. f_equal.
  unfold portfolio_tag, Template.render. cbn [flat_map Template.piece_text].
  by rewrite !markup_of_app, !escapeHtml_markup_free.
Qed.

End Templates.

(** X27. No text of a project reaches the markup of its card: the markup
    characters of the [innerHTML] that [populatePortfolio] writes — angle
    brackets, quotes and slashes, in order — are the same for any two
    projects with the same number of tags, whatever their titles,
    categories, descriptions and tags are. *)
Theorem portfolio_card_markup (project project' : Project) :
  length (project_tags project) = length (project_tags project') ->
  markup_of (portfolio_card project) = markup_of (portfolio_card project').
Proof.
  intros Hlen. unfold portfolio_card, Template.render. cbn [flat_map Template.piece_text].
  rewrite !markup_of_app, !escapeHtml_markup_free, !portfolio_tags_markup, Hlen.
  reflexivity.
Qed.

Lemma portfolio_card_markup_witness :
  markup_of (portfolio_card
    (mkProject (VString (lit "<script>alert(1)</script>")) (VString (lit "web'"))
       (VNumber 7) [VString (lit "a/b")]))
  = markup_of (portfolio_card
    (mkProject (VString (lit "Shop")) (VString (lit "web")) (VString (lit "A shop."))
       [VString (lit "css")])).
Proof.
  apply (portfolio_card_markup
    (mkProject (VString (lit "<script>alert(1)</script>")) (VString (lit "web'"))
       (VNumber 7) [VString (lit "a/b")])
    (mkProject (VString (lit "Shop")) (VString (lit "web")) (VString (lit "A shop."))
       [VString (lit "css")])).
  reflexivity.
Defined.

Section Paths.

Lemma split_on_nonempty (sep : N) (s : jsstring) : split_on sep s <> [].
Proof.
  destruct s as [|c s]; [done|]. cbn [split_on].
  destruct (c =? sep)%N; [done|]. by destruct (split_on sep s).
Qed.

Lemma split_on_none (sep : N) (s : jsstring) : sep ∉ s -> split_on sep s = [s].
Proof.
  induction s as [|c s IH]; [done|]. rewrite not_elem_of_cons. intros [Hne Hs].
  cbn [split_on]. destruct (N.eqb_spec c sep) as [->|_]; [done|]. by rewrite IH.
Qed.

Lemma split_on_app (sep : N) (d rest : jsstring) :
  split_on sep (d ++ sep :: rest) = split_on sep d ++ split_on sep rest.
Proof.
  induction d as [|c d IH]; cbn [app split_on].
  - by rewrite N.eqb_refl.
  - destruct (c =? sep)%N; rewrite IH; [done|].
    pose proof (split_on_nonempty sep d). by destruct (split_on sep d).
Qed.

Lemma last_separator (sep : N) (s : jsstring) :
  sep ∉ s \/ exists d page, s = d ++ sep :: page /\ sep ∉ page.
Proof.
  induction s as [|c s IH]; [left; apply not_elem_of_nil|].
  destruct IH as [Hs|(d & page & -> & Hp)].
  - destruct (decide (c = sep)) as [->|Hne].
    + right. by exists [], s.
    + left. by apply not_elem_of_cons.
  - right. by exists (c :: d), page.
Qed.

Lemma last_split_on (sep : N) (d page : jsstring) :
  sep ∉ page -> last (split_on sep (d ++ sep :: page)) = Some page.
Proof.
  intros Hp. rewrite split_on_app, (split_on_none sep page Hp). apply last_snoc.
Qed.

Lemma currentPage_of_page (page : jsstring) :
  chr "/" ∉ page -> page <> [] ->
  forall dir, directory dir -> currentPage (dir ++ page) = page.
Proof.
  intros Hp Hne dir [->|(d & ->)]; unfold currentPage.
  - cbn [app]. rewrite split_on_none by done. cbn [last]. by destruct page.
  - rewrite <- app_assoc. cbn [app]. rewrite last_split_on by done. by destruct page.
Qed.

Lemma currentPage_of_directory (dir : jsstring) :
  directory dir -> currentPage dir = lit "index.html".
Proof.
  intros [->|(d & ->)]; unfold currentPage; [done|].
  by rewrite last_split_on by apply not_elem_of_nil.
Qed.

(** The current page is the part of the path after its last slash, and
    [index.html] where that part is empty. *)
Lemma currentPage_cases (pathname : jsstring) :
  exists dir page,
    pathname = dir ++ page /\ directory dir /\ (chr "/" ∉ page)
    /\ currentPage pathname = (if bool_decide (page = []) then lit "index.html" else page).
Proof.
  destruct (last_separator (chr "/") pathname) as [Hs|(d & page & -> & Hp)].
  - exists [], pathname. split; [done|]. split; [by left|]. split; [done|].
    unfold currentPage. rewrite split_on_none by done. cbn [last].
    by destruct pathname.
  - exists (d ++ [chr "/"]), page. split; [by rewrite <- app_assoc|].
    split; [right; by exists d|]. split; [done|].
    unfold currentPage. rewrite last_split_on by done. by destruct page.
Qed.

Lemma currentPage_nonempty (pathname : jsstring) : currentPage pathname <> [].
Proof. unfold currentPage. by repeat case_match. Qed.

Lemma nav_link_marked (page : jsstring) (item : NavItem) :
  ("active" ∈ a_classes (nav_link page item) <-> is_current page item = true)
  /\ (a_aria_current (nav_link page item) = Some (lit "page")
      <-> is_current page item = true).
Proof.
  unfold nav_link. destruct (is_current page item); cbn [a_classes a_aria_current].
  - split; (split; [done|intros _]); [|done]. apply classList_add_elem. by left.
  - split; (split; [|done]); [|done].
    rewrite list_elem_of_singleton. discriminate.
Qed.

Lemma is_current_href (pathname : jsstring) (item : NavItem) :
  is_current (currentPage pathname) item = true
  <-> item_href item = VString (currentPage pathname).
Proof.
  unfold is_current. destruct (item_href item) as [| | | |href|]; try done.
  rewrite orb_true_iff, andb_true_iff, !bool_decide_eq_true.
  split.
  - intros [->|[He _]]; [done|]. by destruct (currentPage_nonempty pathname).
  - intros [= ->]. by left.
Qed.

End Paths.

(** X5. The link that [populateNavigation] marks: a link gets the class
    [active], and with it [aria-current="page"], exactly when its [href]
    is a string without a slash that is the part of the path after the
    last slash, or is [index.html] on a path that ends in a slash or is
    empty.  So a [href] with a directory in it is never marked, and the
    second test of the condition, for an empty current page, decides
    nothing. *)
Theorem populateNavigation_marks_current (items : list NavItem) (pathname : jsstring)
    (old : list NavLink) :
  exists links,
    populateNavigation (Some items) pathname (Some old) = Some links
    /\ Forall2
         (fun item a =>
            ("active" ∈ a_classes a <-> a_aria_current a = Some (lit "page"))
            /\ ("active" ∈ a_classes a <->
                exists href dir,
                  item_href item = VString href /\ (chr "/" ∉ href) /\ directory dir
                  /\ ((href <> [] /\ pathname = dir ++ href)
                      \/ (href = lit "index.html" /\ pathname = dir))))
         items links.
Proof.
  eexists. split; [reflexivity|].
  apply Forall2_fmap_r, Forall_Forall2_diag, Forall_forall. intros item _.
  destruct (nav_link_marked (currentPage pathname) item) as [Hcls Haria].
  split; [by rewrite Hcls, Haria|]. rewrite Hcls, is_current_href.
  split.
  - intros Hhref.
    destruct (currentPage_cases pathname) as (dir & page & -> & Hdir & Hp & Hcur).
    rewrite Hcur in Hhref. case_bool_decide as Hpage.
    + subst page. rewrite app_nil_r. exists (lit "index.html"), dir.
      split; [done|]. split; [|split; [done|by right]].
      eapply bool_decide_unpack. vm_compute. exact I.
    + exists page, dir. split; [done|]. split; [done|]. split; [done|]. by left.
  - intros (href & dir & -> & Hp & Hdir & [[Hne ->]|[-> ->]]).
    + by rewrite currentPage_of_page.
    + by rewrite currentPage_of_directory.
Qed.

(** X6. What [populateNavigation] writes for an entry with a string name
    and a string address: the link text is the name, and the [href] the
    address, exactly when these have none of the six escaped characters;
    an address with a slash in it is so never written as it is. *)
Theorem populateNavigation_writes_escaped (page name href : jsstring) :
  let a := nav_link page (mkNavItem (VString name) (VString href)) in
  (a_textContent a = name <-> Forall (fun c => escape_class c = false) name)
  /\ (a_href a = href <-> Forall (fun c => escape_class c = false) href)
  /\ (chr "/" ∈ href -> a_href a <> href).
Proof.
  cbn zeta.
  assert (Ht : a_textContent (nav_link page (mkNavItem (VString name) (VString href)))
               = flat_map entity name).
  { unfold nav_link. case_match; cbn; apply escapeHtml_string. }
  assert (Hh : a_href (nav_link page (mkNavItem (VString name) (VString href)))
               = flat_map entity href).
  { unfold nav_link. case_match; cbn; apply escapeHtml_string. }
  rewrite Ht, Hh, !flat_map_entity_id. split; [done|]. split; [done|].
  intros Hin Hall. rewrite Forall_forall in Hall. by specialize (Hall _ Hin).
Qed.
